(** * Buffer pool core of scudb: LRU replacer, extendible hash, buffer pool manager

    A shallow embedding of [lru_replacer.cpp], [extendible_hash.cpp] and
    [buffer_pool_manager.cpp].  Heap objects reached through [shared_ptr] or
    raw pointers live in explicit stores (lists indexed by address), so that
    aliasing is kept; every operation runs in the [option] monad, where [None]
    stands for an execution that leaves the defined behaviour of C++ (null or
    dangling dereference, out-of-range [operator[]], signed overflow, failed
    [assert]) or, for the one unbounded loop, that needs more fuel.  Latches
    are not modelled: every operation is taken as one atomic step. *)

From Stdlib Require Import ZArith Lia.
From stdpp Require Import ssreflect base option list gmap fin_maps sorting.

Set Warnings "-rewrite-rw,-clear-no-such-hyp".

Local Open Scope Z_scope.

(** ** LRU replacer ([lru_replacer.cpp]) *)

Module LRU.
Section lru.
Context {T : Type} `{!EqDecision T, !Countable T}.

(** The value a default-constructed [Node] carries (the two sentinels). *)
Variable dflt : T.

(** A [shared_ptr<Node>]: [None] is the null pointer, [Some a] the node at
    address [a] of the node store. *)
Definition ptr : Type := option nat.

(** Modelled from the spec: the [Node] struct of the absent header
    [lru_replacer.h], a node of the doubly-linked list with its value and
    its two neighbours. *)
Record Node : Type := mkNode { val : T; prev : ptr; next : ptr }.

(** Modelled from the spec: the fields of [LRUReplacer] in the absent header:
    two sentinels, [head] and [tail], and a mapping from value to node.  The
    node store [heap] holds every node ever made by [make_shared]. *)
Record LRUReplacer : Type := mkLRU {
  heap : list Node;
  head : ptr;
  tail : ptr;
  map : gmap T ptr
}.

(** [*p] *)
Definition load (h : list Node) (p : ptr) : option Node :=
  a ← p; h !! a.

(** [p->next = q] *)
Definition set_next (p q : ptr) (h : list Node) : option (list Node) :=
  a ← p; n ← h !! a; Some (<[a := mkNode (val n) (prev n) q]> h).

(** [p->prev = q] *)
Definition set_prev (p q : ptr) (h : list Node) : option (list Node) :=
  a ← p; n ← h !! a; Some (<[a := mkNode (val n) q (next n)]> h).

(** [LRUReplacer::LRUReplacer()] *)
Definition LRUReplacer_new : LRUReplacer :=
  {| heap := [mkNode dflt None (Some 1%nat); mkNode dflt (Some 0%nat) None];
     head := Some 0%nat;
     tail := Some 1%nat;
     map := ∅ |}.

(** [LRUReplacer::Insert] *)
Definition Insert (value : T) (s : LRUReplacer) : option LRUReplacer :=
  '(cur, h1) ←
    match map s !! value with
    | Some cur =>
        c ← load (heap s) cur;
        let prev_ := prev c in
        let succ := next c in
        h ← set_prev succ prev_ (heap s);
        h ← set_next prev_ succ h;
        Some (cur, h)
    | None =>
        Some (Some (length (heap s)), heap s ++ [mkNode value None None])
    end;
  hd ← load h1 (head s);
  let temp := next hd in
  h2 ← set_next cur temp h1;
  h3 ← set_prev temp cur h2;
  h4 ← set_next (head s) cur h3;
  h5 ← set_prev cur (head s) h4;
  Some {| heap := h5; head := head s; tail := tail s;
          map := <[value := cur]> (map s) |}.

(** [LRUReplacer::Victim]; the reference parameter [value] is passed in and
    returned next to the boolean. *)
Definition Victim (value : T) (s : LRUReplacer) : option (bool * T * LRUReplacer) :=
  if decide (map s = ∅) then Some (false, value, s)
  else
    tl ← load (heap s) (tail s);
    let last := prev tl in
    l ← load (heap s) last;
    let temp := prev l in
    h1 ← set_next temp (tail s) (heap s);
    h2 ← set_prev (tail s) temp h1;
    l' ← load h2 last;
    Some (true, val l',
          {| heap := h2; head := head s; tail := tail s;
             map := delete (val l') (map s) |}).

(** [LRUReplacer::Erase] *)
Definition Erase (value : T) (s : LRUReplacer) : option (bool * LRUReplacer) :=
  h ←
    match map s !! value with
    | Some cur =>
        c ← load (heap s) cur;
        h1 ← set_next (prev c) (next c) (heap s);
        c' ← load h1 cur;
        set_prev (next c') (prev c') h1
    | None => Some (heap s)
    end;
  Some (bool_decide (is_Some (map s !! value)),
        {| heap := h; head := head s; tail := tail s;
           map := delete value (map s) |}).

(** [LRUReplacer::Size] *)
Definition Size (s : LRUReplacer) : nat := size (map s).

(** The values of the list from the node after [head] up to [tail], most
    recently inserted first: the observable content of the replacer. *)
Fixpoint walk (fuel : nat) (h : list Node) (p stop : ptr) : list T :=
  match fuel with
  | O => []
  | S n =>
      if decide (p = stop) then []
      else match load h p with
           | Some nd => val nd :: walk n h (next nd) stop
           | None => []
           end
  end.

Definition contents (s : LRUReplacer) : list T :=
  match load (heap s) (head s) with
  | Some hd => walk (length (heap s)) (heap s) (next hd) (tail s)
  | None => []
  end.

(** Field reads at an address of the node store. *)
Definition next_at (h : list Node) (a : nat) : ptr := n ← h !! a; next n.
Definition prev_at (h : list Node) (a : nat) : ptr := n ← h !! a; prev n.
Definition val_at (h : list Node) (a : nat) : T := default dflt (val <$> h !! a).

(** The addresses [c] form a doubly-linked chain: each node points to the
    one after it by [next], and is pointed back to by [prev]. *)
Definition linked (h : list Node) (c : list nat) : Prop :=
  ∀ i x y, c !! i = Some x → c !! S i = Some y →
    next_at h x = Some y ∧ prev_at h y = Some x.

(** Representation invariant: the nodes at the addresses [c], in this
    order, are the list between the two sentinels; they carry distinct
    values, and [map] sends exactly these values to their nodes. *)
Definition rep (s : LRUReplacer) (c : list nat) : Prop :=
  ∃ hd tl, head s = Some hd ∧ tail s = Some tl ∧
    NoDup (hd :: c ++ [tl]) ∧
    linked (heap s) (hd :: c ++ [tl]) ∧
    NoDup (val_at (heap s) <$> c) ∧
    ∀ v p, map s !! v = Some p ↔
           ∃ a, p = Some a ∧ a ∈ c ∧ val_at (heap s) a = v.

(** The replacer [s] holds the values [l], most recently inserted first. *)
Definition model (s : LRUReplacer) (l : list T) : Prop :=
  ∃ c, rep s c ∧ l = val_at (heap s) <$> c.

(** The replacer [s] satisfies its representation invariant. *)
Definition valid (s : LRUReplacer) : Prop := ∃ l, model s l.

(** Calls on a replacer, and the run of a sequence of calls (oldest first)
    from a state. *)
Inductive op : Type :=
  | OpInsert (value : T)
  | OpVictim
  | OpErase (value : T).

Definition run_op (o : op) (s : LRUReplacer) : option LRUReplacer :=
  match o with
  | OpInsert v => Insert v s
  | OpVictim => '(_, _, s') ← Victim dflt s; Some s'
  | OpErase v => '(_, s') ← Erase v s; Some s'
  end.

Definition run (ops : list op) (s : LRUReplacer) : option LRUReplacer :=
  foldl (λ r o, r ≫= run_op o) (Some s) ops.

(** The time of the most recent [Insert] of [v] in a history: the number of
    calls up to and including it, [0] when [v] was never inserted. *)
Fixpoint last_insert (n : nat) (ops : list op) (v : T) : nat :=
  match ops with
  | [] => O
  | o :: ops' =>
      match last_insert (S n) ops' v with
      | O => match o with
             | OpInsert w => if decide (w = v) then S n else O
             | _ => O
             end
      | t => t
      end
  end.

(** [n] calls of [Victim] in a row, stopping at the first that fails, with
    the values they output in the order of the calls. *)
Fixpoint drain (n : nat) (s : LRUReplacer) : option (list T * LRUReplacer) :=
  match n with
  | O => Some ([], s)
  | S n' =>
      '(ok, v, s1) ← Victim dflt s;
      if (ok : bool) then '(vs, s2) ← drain n' s1; Some (v :: vs, s2)
      else Some ([], s1)
  end.

End lru.
End LRU.

(** ** Extendible hash ([extendible_hash.cpp]) *)

Module EH.
Section eh.
Context {K V : Type} `{!EqDecision K, !Countable K}.

(** [HashKey]: [std::hash<K>{}(key)], a [size_t], taken as a parameter. *)
Variable HashKey : K → Z.

(** Modelled from the spec: the [Bucket] struct of the absent header
    [extendible_hash.h]: a local depth and a small map from key to value. *)
Record Bucket : Type := mkBucket { localDepth : Z; kmap : gmap K V }.

(** Modelled from the spec: the fields of [ExtendibleHash] in the absent
    header.  The directory [buckets] is a vector of [shared_ptr<Bucket>];
    a pointer is the address of its bucket in [store], so that several
    directory slots can reference one bucket. *)
Record ExtendibleHash : Type := mkEH {
  globalDepth : Z;
  bucketSize : nat;
  bucketNum : Z;
  buckets : list nat;
  store : list Bucket
}.

(** [ExtendibleHash::ExtendibleHash(size_t size)] *)
Definition ExtendibleHash_new (size : nat) : ExtendibleHash :=
  {| globalDepth := 0; bucketSize := size; bucketNum := 1;
     buckets := [0%nat]; store := [mkBucket 0 ∅] |}.

(** [1 << d] on [int]: defined while the result and its predecessor fit. *)
Definition shl1 (d : Z) : option Z :=
  if decide (0 ≤ d < 31) then Some (Z.shiftl 1 d) else None.

(** [ExtendibleHash::GetGlobalDepth] *)
Definition GetGlobalDepth (s : ExtendibleHash) : Z := globalDepth s.

(** [ExtendibleHash::GetLocalDepth]; [bucket_id] is an index into the
    directory, whose entries are never null. *)
Definition GetLocalDepth (bucket_id : nat) (s : ExtendibleHash) : option Z :=
  b ← buckets s !! bucket_id;
  bk ← store s !! b;
  if decide (size (kmap bk) = 0%nat) then Some (-1) else Some (localDepth bk).

(** [ExtendibleHash::GetNumBuckets] *)
Definition GetNumBuckets (s : ExtendibleHash) : Z := bucketNum s.

(** [ExtendibleHash::getIdx] *)
Definition getIdx (key : K) (s : ExtendibleHash) : option nat :=
  m ← shl1 (globalDepth s);
  Some (Z.to_nat (Z.land (HashKey key) (m - 1))).

(** [ExtendibleHash::Find]; the reference parameter [value] is passed in and
    returned next to the boolean. *)
Definition Find (key : K) (value : V) (s : ExtendibleHash) : option (bool * V) :=
  index ← getIdx key s;
  b ← buckets s !! index;
  bk ← store s !! b;
  match kmap bk !! key with
  | None => Some (false, value)
  | Some v => Some (true, v)
  end.

(** [ExtendibleHash::Remove] *)
Definition Remove (key : K) (s : ExtendibleHash) : option (bool * ExtendibleHash) :=
  index ← getIdx key s;
  cur ← buckets s !! index;
  bk ← store s !! cur;
  match kmap bk !! key with
  | None => Some (false, s)
  | Some _ =>
      Some (true,
            {| globalDepth := globalDepth s; bucketSize := bucketSize s;
               bucketNum := bucketNum s; buckets := buckets s;
               store := <[cur := mkBucket (localDepth bk) (delete key (kmap bk))]> (store s) |})
  end.

(** The block of [Insert] run when the bucket [cur] overflows: the local
    depth grows, the directory doubles when needed, the entries whose hash
    has the [mask] bit move to a new bucket, and the slots of [cur] with
    that bit in their index are redirected to it. *)
Definition split (cur : nat) (bk : Bucket) (s : ExtendibleHash) : option ExtendibleHash :=
  let ld := localDepth bk + 1 in
  let '(bs, gd) :=
    if decide (ld > globalDepth s)
    then (buckets s ++ buckets s, globalDepth s + 1)
    else (buckets s, globalDepth s) in
  let newBuc := length (store s) in
  mask ← shl1 (ld - 1);
  let moved := filter (λ kv, Z.land (HashKey kv.1) mask ≠ 0) (kmap bk) in
  let kept := filter (λ kv, Z.land (HashKey kv.1) mask = 0) (kmap bk) in
  Some {| globalDepth := gd; bucketSize := bucketSize s;
          bucketNum := bucketNum s + 1;
          buckets :=
            imap (λ i b, if decide (b = cur ∧ Z.land (Z.of_nat i) mask ≠ 0)
                         then newBuc else b) bs;
          store := <[cur := mkBucket ld kept]> (store s) ++ [mkBucket ld moved] |}.

(** The [for(;;)] loop of [Insert]; [fuel] bounds the number of rounds. *)
Fixpoint Insert_loop (fuel : nat) (key : K) (value : V) (cur : nat)
    (s : ExtendibleHash) : option ExtendibleHash :=
  match fuel with
  | O => None
  | S n =>
      bk ← store s !! cur;
      if decide ((size (kmap bk) < bucketSize s)%nat ∨ is_Some (kmap bk !! key))
      then
        Some {| globalDepth := globalDepth s; bucketSize := bucketSize s;
                bucketNum := bucketNum s; buckets := buckets s;
                store := <[cur := mkBucket (localDepth bk) (<[key := value]> (kmap bk))]> (store s) |}
      else
        s' ← split cur bk s;
        index ← getIdx key s';
        cur' ← buckets s' !! index;
        Insert_loop n key value cur' s'
  end.

(** [ExtendibleHash::Insert] *)
Definition Insert (fuel : nat) (key : K) (value : V) (s : ExtendibleHash) : option ExtendibleHash :=
  index ← getIdx key s;
  cur ← buckets s !! index;
  Insert_loop fuel key value cur s.

(** The states reached from the constructor by [Insert] and [Remove] calls
    that return. *)
Inductive reachable (size : nat) : ExtendibleHash → Prop :=
  | reach_new : reachable size (ExtendibleHash_new size)
  | reach_Insert s fuel key value s' :
      reachable size s → Insert fuel key value s = Some s' →
      reachable size s'
  | reach_Remove s key b s' :
      reachable size s → Remove key s = Some (b, s') →
      reachable size s'.

(** Number of directory slots that reference the bucket at address [b]. *)
Definition num_slots (b : nat) (s : ExtendibleHash) : nat :=
  length (filter (λ x, x = b) (buckets s)).

(** Structural invariant of the index.  Every slot references a bucket of
    the store; the slots of one bucket are those that agree on its low
    [localDepth] bits, and the hashes of its keys have the same low bits;
    every bucket of the store is referenced. *)
Record wf (s : ExtendibleHash) : Prop := mkWf {
  wf_gd : 0 ≤ globalDepth s < 31;
  wf_len : length (buckets s) = Z.to_nat (2 ^ globalDepth s);
  wf_num : bucketNum s = Z.of_nat (length (store s));
  wf_ref : ∀ b, (b < length (store s))%nat → ∃ i, buckets s !! i = Some b;
  wf_dir : ∀ i b, buckets s !! i = Some b →
    ∃ bk, store s !! b = Some bk ∧
      0 ≤ localDepth bk ≤ globalDepth s ∧
      (∀ j, (j < length (buckets s))%nat →
         (buckets s !! j = Some b ↔
          Z.of_nat j mod 2 ^ localDepth bk = Z.of_nat i mod 2 ^ localDepth bk)) ∧
      (∀ k, is_Some (kmap bk !! k) →
         HashKey k mod 2 ^ localDepth bk = Z.of_nat i mod 2 ^ localDepth bk)
}.

(** The bucket [Insert] and [Find] reach for [key]. *)
Definition target (key : K) (s : ExtendibleHash) : option Bucket :=
  index ← getIdx key s;
  b ← buckets s !! index;
  store s !! b.

(** [key] is stored in no bucket. *)
Definition absent (key : K) (s : ExtendibleHash) : Prop :=
  ∀ bk, bk ∈ store s → kmap bk !! key = None.

(** The entries of a bucket whose hash agrees with that of [key] on the
    low [n] bits. *)
Definition agree (key : K) (n : Z) (m : gmap K V) : gmap K V :=
  filter (λ kv, HashKey kv.1 mod 2 ^ n = HashKey key mod 2 ^ n) m.

(** [Insert] finds room for [key]: the key is in its bucket already, or, at
    some depth [n] an [int] directory can reach, fewer than [bucketSize]
    entries of the bucket agree with the key on the low [n] bits. *)
Definition fits (key : K) (s : ExtendibleHash) : Prop :=
  ∃ bk, target key s = Some bk ∧
    (is_Some (kmap bk !! key) ∨
     ∃ n, 0 ≤ n < 31 ∧ (size (agree key n (kmap bk)) < bucketSize s)%nat).

(** [key] is held with [value] by some bucket of the store. *)
Definition stored (key : K) (value : V) (s : ExtendibleHash) : Prop :=
  ∃ b bk, store s !! b = Some bk ∧ kmap bk !! key = Some value.

(** No bucket holds more entries than [bucketSize]. *)
Definition capped (s : ExtendibleHash) : Prop :=
  ∀ b bk, store s !! b = Some bk → (size (kmap bk) ≤ bucketSize s)%nat.

(** Calls that change a table, the run of a sequence of them (oldest
    first), and the finite map the same sequence builds. *)
Inductive op : Type :=
  | OpInsert (key : K) (value : V)
  | OpRemove (key : K).

Definition run_op (fuel : nat) (o : op) (s : ExtendibleHash) : option ExtendibleHash :=
  match o with
  | OpInsert key value => Insert fuel key value s
  | OpRemove key => '(_, s') ← Remove key s; Some s'
  end.

Definition run (fuel : nat) (ops : list op) (s : ExtendibleHash) : option ExtendibleHash :=
  foldl (λ r o, r ≫= run_op fuel o) (Some s) ops.

Definition denote (ops : list op) (m : gmap K V) : gmap K V :=
  foldl (λ m o, match o with
                | OpInsert key value => <[key := value]> m
                | OpRemove key => delete key m
                end) m ops.

(** [ExtendibleHash::ExtendibleHash()]: the body builds a temporary table of
    bucket size 64 and drops it, so the object itself keeps the empty
    directory of a default-constructed vector; [gd], [size] and [num] stand
    for whatever its three scalar members hold. *)
Definition ExtendibleHash_default (gd : Z) (size : nat) (num : Z) : ExtendibleHash :=
  {| globalDepth := gd; bucketSize := size; bucketNum := num;
     buckets := []; store := [] |}.

End eh.
End EH.

(** ** Buffer pool manager ([buffer_pool_manager.cpp]) *)

Module BPM.
Section bpm.

(** The [PAGE_SIZE] bytes of a page, and the all-zero page. *)
Variable Data : Type.
Variable zeroed : Data.

(** Constants of the absent [config.h]. *)
Variable INVALID_PAGE_ID : Z.
Variable BUCKET_SIZE : nat.

(** [std::hash<page_id_t>] *)
Variable HashKey : Z → Z.

(** The calls the manager makes on the disk manager. *)
Inductive DiskCall : Type :=
  | AllocatePage
  | DeallocatePage (page_id : Z)
  | ReadPage (page_id : Z)
  | WritePage (page_id : Z) (data : Data).

(** The disk manager is an external collaborator: its state is the sequence
    of calls it has received (oldest first), and what it answers is a
    function of that sequence. *)
Variable disk_alloc : list DiskCall → Z.
Variable disk_read : list DiskCall → Z → Data.

(** Modelled from the spec: the [Page] class of the absent header [page.h]:
    the payload, the page id, the pin count and the dirty flag. *)
Record Page : Type := mkPage {
  data_ : Data;
  page_id_ : Z;
  pin_count_ : Z;
  is_dirty_ : bool
}.

(** A [Page*]: [None] is [nullptr], [Some i] is [&pages_[i]]. *)
Definition PagePtr : Type := option nat.

(** Modelled from the spec: the fields of [BufferPoolManager] in the absent
    header: the frame array, the page table, the replacer and the free list,
    with the disk manager as the calls it has received.  [log_manager_] is
    stored by the constructor and used by no member function; it is left
    out. *)
Record BufferPoolManager : Type := mkBPM {
  pool_size_ : nat;
  pages_ : list Page;
  page_table_ : EH.ExtendibleHash (K := Z) (V := PagePtr);
  replacer_ : LRU.LRUReplacer (T := PagePtr);
  free_list_ : list PagePtr;
  disk_manager_ : list DiskCall
}.

(** The largest [int]: [pin_count_++] beyond it is a signed overflow. *)
Definition INT_MAX : Z := 2 ^ 31 - 1.

(** Modelled from the spec: [Page::ResetMemory] of the absent header, which
    zeroes the payload. *)
Definition ResetMemory (pg : Page) : Page :=
  mkPage zeroed (page_id_ pg) (pin_count_ pg) (is_dirty_ pg).

Definition set_pages (ps : list Page) (s : BufferPoolManager) : BufferPoolManager :=
  mkBPM (pool_size_ s) ps (page_table_ s) (replacer_ s) (free_list_ s) (disk_manager_ s).

Definition set_page_table (pt : EH.ExtendibleHash) (s : BufferPoolManager) : BufferPoolManager :=
  mkBPM (pool_size_ s) (pages_ s) pt (replacer_ s) (free_list_ s) (disk_manager_ s).

Definition set_replacer (r : LRU.LRUReplacer) (s : BufferPoolManager) : BufferPoolManager :=
  mkBPM (pool_size_ s) (pages_ s) (page_table_ s) r (free_list_ s) (disk_manager_ s).

Definition set_free_list (fl : list PagePtr) (s : BufferPoolManager) : BufferPoolManager :=
  mkBPM (pool_size_ s) (pages_ s) (page_table_ s) (replacer_ s) fl (disk_manager_ s).

(** A call on the disk manager is appended to the calls it has received. *)
Definition disk_call (c : DiskCall) (s : BufferPoolManager) : BufferPoolManager :=
  mkBPM (pool_size_ s) (pages_ s) (page_table_ s) (replacer_ s) (free_list_ s)
        (disk_manager_ s ++ [c]).

(** [*tar] *)
Definition deref (tar : PagePtr) (s : BufferPoolManager) : option Page :=
  a ← tar; pages_ s !! a.

(** [*tar = pg] *)
Definition assign (tar : PagePtr) (pg : Page) (s : BufferPoolManager) : option BufferPoolManager :=
  a ← tar; _ ← pages_ s !! a; Some (set_pages (<[a := pg]> (pages_ s)) s).

(** [BufferPoolManager::BufferPoolManager]; a fresh [Page] has the invalid
    page id, no pin, a clean flag and zeroed memory. *)
Definition BufferPoolManager_new (pool_size : nat) : BufferPoolManager :=
  {| pool_size_ := pool_size;
     pages_ := replicate pool_size (mkPage zeroed INVALID_PAGE_ID 0 false);
     page_table_ := EH.ExtendibleHash_new BUCKET_SIZE;
     replacer_ := LRU.LRUReplacer_new None;
     free_list_ := Some <$> seq 0 pool_size;
     disk_manager_ := [] |}.

(** [BufferPoolManager::GetVictimPage] *)
Definition GetVictimPage (s : BufferPoolManager) : option (PagePtr * BufferPoolManager) :=
  match free_list_ s with
  | [] =>
      if decide (LRU.Size (replacer_ s) = 0%nat) then Some (None, s)
      else
        '(_, tar, r) ← LRU.Victim None (replacer_ s);
        pg ← deref tar s;
        if decide (pin_count_ pg = 0) then Some (tar, set_replacer r s) else None
  | tar :: rest =>
      pg ← deref tar s;
      if decide (page_id_ pg = INVALID_PAGE_ID) then
        if decide (pin_count_ pg = 0) then Some (tar, set_free_list rest s) else None
      else None
  end.

(** [BufferPoolManager::FetchPage]; [fuel] bounds the loop of the page
    table's [Insert]. *)
Definition FetchPage (fuel : nat) (page_id : Z) (s : BufferPoolManager)
    : option (PagePtr * BufferPoolManager) :=
  '(found, tar) ← EH.Find HashKey page_id None (page_table_ s);
  if (found : bool) then
    pg ← deref tar s;
    if decide (pin_count_ pg < INT_MAX) then
      s1 ← assign tar (mkPage (data_ pg) (page_id_ pg) (pin_count_ pg + 1) (is_dirty_ pg)) s;
      '(_, r) ← LRU.Erase tar (replacer_ s1);
      Some (tar, set_replacer r s1)
    else None
  else
    '(tar, s1) ← GetVictimPage s;
    match tar with
    | None => Some (tar, s1)
    | Some _ =>
        pg ← deref tar s1;
        let s2 := if is_dirty_ pg
                  then disk_call (WritePage (page_id_ pg) (data_ pg)) s1
                  else s1 in
        '(_, pt) ← EH.Remove HashKey (page_id_ pg) (page_table_ s2);
        pt' ← EH.Insert HashKey fuel page_id tar pt;
        let s3 := set_page_table pt' s2 in
        let d := disk_read (disk_manager_ s3) page_id in
        let s4 := disk_call (ReadPage page_id) s3 in
        s5 ← assign tar (mkPage d page_id 1 false) s4;
        Some (tar, s5)
    end.

(** [BufferPoolManager::UnpinPage] *)
Definition UnpinPage (page_id : Z) (is_dirty : bool) (s : BufferPoolManager)
    : option (bool * BufferPoolManager) :=
  '(_, tar) ← EH.Find HashKey page_id None (page_table_ s);
  match tar with
  | None => Some (false, s)
  | Some _ =>
      pg ← deref tar s;
      let pg1 := mkPage (data_ pg) (page_id_ pg) (pin_count_ pg) is_dirty in
      s1 ← assign tar pg1 s;
      if decide (pin_count_ pg1 ≤ 0) then Some (false, s1)
      else
        let pg2 := mkPage (data_ pg1) (page_id_ pg1) (pin_count_ pg1 - 1) (is_dirty_ pg1) in
        s2 ← assign tar pg2 s1;
        if decide (pin_count_ pg2 = 0) then
          r ← LRU.Insert tar (replacer_ s2);
          Some (true, set_replacer r s2)
        else Some (true, s2)
  end.

(** [BufferPoolManager::FlushPage] *)
Definition FlushPage (page_id : Z) (s : BufferPoolManager)
    : option (bool * BufferPoolManager) :=
  '(_, tar) ← EH.Find HashKey page_id None (page_table_ s);
  match tar with
  | None => Some (false, s)
  | Some _ =>
      pg ← deref tar s;
      if decide (page_id_ pg = INVALID_PAGE_ID) then Some (false, s)
      else if is_dirty_ pg then
        let s1 := disk_call (WritePage page_id (data_ pg)) s in
        s2 ← assign tar (mkPage (data_ pg) (page_id_ pg) (pin_count_ pg) false) s1;
        Some (true, s2)
      else Some (true, s)
  end.

(** [BufferPoolManager::DeletePage] *)
Definition DeletePage (page_id : Z) (s : BufferPoolManager)
    : option (bool * BufferPoolManager) :=
  '(_, tar) ← EH.Find HashKey page_id None (page_table_ s);
  match tar with
  | Some _ =>
      pg ← deref tar s;
      if decide (pin_count_ pg > 0) then Some (false, s)
      else
        '(_, r) ← LRU.Erase tar (replacer_ s);
        '(_, pt) ← EH.Remove HashKey page_id (page_table_ s);
        let s1 := set_page_table pt (set_replacer r s) in
        s2 ← assign tar (ResetMemory (mkPage (data_ pg) (page_id_ pg) (pin_count_ pg) false)) s1;
        let s3 := set_free_list (free_list_ s2 ++ [tar]) s2 in
        Some (true, disk_call (DeallocatePage page_id) s3)
  | None => Some (true, disk_call (DeallocatePage page_id) s)
  end.

(** [BufferPoolManager::NewPage]; the reference parameter [page_id] is
    passed in and returned with the frame. *)
Definition NewPage (fuel : nat) (page_id : Z) (s : BufferPoolManager)
    : option (PagePtr * Z * BufferPoolManager) :=
  '(tar, s1) ← GetVictimPage s;
  match tar with
  | None => Some (tar, page_id, s1)
  | Some _ =>
      let page_id := disk_alloc (disk_manager_ s1) in
      let s2 := disk_call AllocatePage s1 in
      pg ← deref tar s2;
      let s3 := if is_dirty_ pg
                then disk_call (WritePage (page_id_ pg) (data_ pg)) s2
                else s2 in
      '(_, pt) ← EH.Remove HashKey (page_id_ pg) (page_table_ s3);
      pt' ← EH.Insert HashKey fuel page_id tar pt;
      let s4 := set_page_table pt' s3 in
      s5 ← assign tar (mkPage zeroed page_id 1 false) s4;
      Some (tar, page_id, s5)
  end.

(** The page table maps [page_id] to the frame at index [f]. *)
Definition resident (page_id : Z) (f : nat) (s : BufferPoolManager) : Prop :=
  EH.Find HashKey page_id None (page_table_ s) = Some (true, Some f).

(** The states reached from the constructor by calls that return. *)
Inductive reachable (pool_size : nat) : BufferPoolManager → Prop :=
  | reach_init : reachable pool_size (BufferPoolManager_new pool_size)
  | reach_Fetch s fuel page_id tar s' :
      reachable pool_size s → FetchPage fuel page_id s = Some (tar, s') →
      reachable pool_size s'
  | reach_Unpin s page_id is_dirty b s' :
      reachable pool_size s → UnpinPage page_id is_dirty s = Some (b, s') →
      reachable pool_size s'
  | reach_Flush s page_id b s' :
      reachable pool_size s → FlushPage page_id s = Some (b, s') →
      reachable pool_size s'
  | reach_Delete s page_id b s' :
      reachable pool_size s → DeletePage page_id s = Some (b, s') →
      reachable pool_size s'
  | reach_New s fuel page_id tar page_id' s' :
      reachable pool_size s → NewPage fuel page_id s = Some (tar, page_id', s') →
      reachable pool_size s'.

(** Invariant of the manager.  The page table and the replacer satisfy
    their own invariants; the page table sends a page id to a frame that
    carries this id; the frames of the replacer and of the free list are
    frames of the pool with no pin, and those of the free list are clean;
    no pin count is negative; and a frame of the free list is there once,
    and is neither in the replacer nor in the page table. *)
Record inv (s : BufferPoolManager) : Prop := mkInv {
  inv_table : EH.wf HashKey (page_table_ s);
  inv_replacer : LRU.valid None (replacer_ s);
  inv_resident : ∀ pid x, EH.stored pid x (page_table_ s) →
    ∃ f pg, x = Some f ∧ pages_ s !! f = Some pg ∧ page_id_ pg = pid;
  inv_evictable : ∀ x, x ∈ LRU.contents (replacer_ s) →
    ∃ f pg, x = Some f ∧ pages_ s !! f = Some pg ∧ pin_count_ pg = 0;
  inv_free : ∀ x, x ∈ free_list_ s →
    ∃ f pg, x = Some f ∧ pages_ s !! f = Some pg ∧
            pin_count_ pg = 0 ∧ is_dirty_ pg = false;
  inv_pin : ∀ f pg, pages_ s !! f = Some pg → 0 ≤ pin_count_ pg;
  inv_free_NoDup : NoDup (free_list_ s);
  inv_free_evictable : ∀ x, x ∈ free_list_ s → x ∉ LRU.contents (replacer_ s);
  inv_free_resident : ∀ pid x, EH.stored pid x (page_table_ s) → x ∉ free_list_ s
}.

End bpm.

Arguments AllocatePage {Data}.
Arguments DeallocatePage {Data} page_id.
Arguments ReadPage {Data} page_id.
Arguments WritePage {Data} page_id data.
Arguments mkPage {Data} data_ page_id_ pin_count_ is_dirty_.
Arguments data_ {Data} p.
Arguments page_id_ {Data} p.
Arguments pin_count_ {Data} p.
Arguments is_dirty_ {Data} p.
Arguments mkBPM {Data} pool_size_ pages_ page_table_ replacer_ free_list_ disk_manager_.
Arguments pool_size_ {Data} b.
Arguments pages_ {Data} b.
Arguments page_table_ {Data} b.
Arguments replacer_ {Data} b.
Arguments free_list_ {Data} b.
Arguments disk_manager_ {Data} b.
Arguments set_pages {Data} ps s.
Arguments set_page_table {Data} pt s.
Arguments set_replacer {Data} r s.
Arguments set_free_list {Data} fl s.
Arguments disk_call {Data} c s.
Arguments deref {Data} tar s.
Arguments assign {Data} tar pg s.
Arguments GetVictimPage {Data} INVALID_PAGE_ID s.
Arguments FetchPage {Data} INVALID_PAGE_ID HashKey disk_read fuel page_id s.
Arguments UnpinPage {Data} HashKey page_id is_dirty s.
Arguments FlushPage {Data} INVALID_PAGE_ID HashKey page_id s.
Arguments DeletePage {Data} zeroed HashKey page_id s.
Arguments NewPage {Data} zeroed INVALID_PAGE_ID HashKey disk_alloc fuel page_id s.
Arguments BufferPoolManager_new {Data} zeroed INVALID_PAGE_ID BUCKET_SIZE pool_size.
Arguments resident {Data} HashKey page_id f s.
Arguments reachable {Data} zeroed INVALID_PAGE_ID BUCKET_SIZE HashKey disk_alloc disk_read pool_size s.
Arguments inv {Data} HashKey s.
End BPM.

(** ** Concrete instances, used to run the model *)

Module Demo.

(** A hash that sends every key to the same value, and [std::hash<int>],
    which is the key converted to [size_t]. *)
Definition hash_const (k : Z) : Z := 0.
Definition hash_int (k : Z) : Z := k `mod` 2 ^ 64.

(** Buckets of two entries, filled with the keys 1 and 2 under [hash_const]. *)
Definition eh_collide : EH.ExtendibleHash (K := Z) (V := Z) :=
  Eval vm_compute in
    default (EH.ExtendibleHash_new 2)
      (EH.Insert hash_const 1 1 10 (EH.ExtendibleHash_new 2)
         ≫= EH.Insert hash_const 1 2 20).

(** Buckets of two entries after the inserts of the keys 0 and 2, and then
    of the key 4, under [hash_int]: the third insert splits twice. *)
Definition eh_two : EH.ExtendibleHash (K := Z) (V := Z) :=
  Eval vm_compute in
    default (EH.ExtendibleHash_new 2)
      (EH.Insert hash_int 1 0 10 (EH.ExtendibleHash_new 2)
         ≫= EH.Insert hash_int 1 2 20).

Definition eh_three : EH.ExtendibleHash (K := Z) (V := Z) :=
  Eval vm_compute in
    default (EH.ExtendibleHash_new 2) (EH.Insert hash_int 3 4 40 eh_two).


(** A disk manager that numbers the pages it allocates by the calls it has
    received, and whose pages read as their own id. *)
Definition alloc (calls : list (BPM.DiskCall Z)) : Z := Z.of_nat (length calls).
Definition read (calls : list (BPM.DiskCall Z)) (page_id : Z) : Z := page_id.

(** A pool of one frame: as built; after [NewPage] (page 0, pinned once);
    after a further [UnpinPage(0, false)] (unpinned, in the replacer); and
    after [NewPage], [FetchPage(0)] and [UnpinPage(0, true)] (pinned once,
    dirty). *)
Definition bpm0 : BPM.BufferPoolManager Z :=
  BPM.BufferPoolManager_new 0 (-1) 2 1.

Definition bpm1 : BPM.BufferPoolManager Z :=
  Eval vm_compute in
    default bpm0 (snd <$> BPM.NewPage 0 (-1) hash_int alloc 1 0 bpm0).

Definition bpm2 : BPM.BufferPoolManager Z :=
  Eval vm_compute in
    default bpm1 (snd <$> BPM.UnpinPage hash_int 0 false bpm1).

Definition bpm3 : BPM.BufferPoolManager Z :=
  Eval vm_compute in
    default bpm1
      (BPM.FetchPage (-1) hash_int read 1 0 bpm1
         ≫= λ r, snd <$> BPM.UnpinPage hash_int 0 true r.2).

(** The pool after [NewPage], [UnpinPage(0, false)] and [DeletePage(0)]:
    the frame is back on the free list. *)
Definition bpm4 : BPM.BufferPoolManager Z :=
  Eval vm_compute in
    default bpm2 (snd <$> BPM.DeletePage 0 hash_int 0 bpm2).

(** A pool of two frames after [NewPage] (page 0 in frame 0) and
    [UnpinPage(0, false)]: frame 0 is in the replacer and frame 1 is still
    on the free list. *)
Definition bpm5 : BPM.BufferPoolManager Z :=
  Eval vm_compute in
    default (BPM.BufferPoolManager_new 0 (-1) 2 2)
      (BPM.NewPage 0 (-1) hash_int alloc 1 0 (BPM.BufferPoolManager_new 0 (-1) 2 2)
         ≫= λ r, snd <$> BPM.UnpinPage hash_int 0 false r.2).

(** A replacer of integers after the inserts of 1, 2 and 3. *)
Definition lru_three : LRU.LRUReplacer (T := Z) :=
  Eval vm_compute in
    default (LRU.LRUReplacer_new 0)
      (LRU.run 0 [LRU.OpInsert 1; LRU.OpInsert 2; LRU.OpInsert 3]
               (LRU.LRUReplacer_new 0)).

End Demo.

(** * Properties *)

(** ** The LRU replacer *)

Section lru_facts.
Import LRU.
Context {T : Type} `{!EqDecision T, !Countable T}.
Variable dflt : T.

Local Abbreviation val_at := (val_at dflt).
Local Abbreviation rep := (rep dflt).
Local Abbreviation model := (model dflt).
Local Abbreviation valid := (valid dflt).

#[local] Arguments set_next : simpl never.
#[local] Arguments set_prev : simpl never.

Lemma next_at_insert (h : list (@Node T)) a n b :
  (a < length h)%nat →
  next_at (<[a := n]> h) b = if decide (b = a) then next n else next_at h b.
Proof.
  intros Ha. unfold next_at. case_decide as Hb.
  - subst. by rewrite list_lookup_insert_eq.
  - by rewrite list_lookup_insert_ne.
Qed.

Lemma prev_at_insert (h : list (@Node T)) a n b :
  (a < length h)%nat →
  prev_at (<[a := n]> h) b = if decide (b = a) then prev n else prev_at h b.
Proof.
  intros Ha. unfold prev_at. case_decide as Hb.
  - subst. by rewrite list_lookup_insert_eq.
  - by rewrite list_lookup_insert_ne.
Qed.

Lemma val_at_insert (h : list (@Node T)) a n b :
  (a < length h)%nat →
  val_at (<[a := n]> h) b = if decide (b = a) then val n else val_at h b.
Proof.
  intros Ha. unfold LRU.val_at. case_decide as Hb.
  - subst. by rewrite list_lookup_insert_eq.
  - by rewrite list_lookup_insert_ne.
Qed.

(** What a store that results from [p->next = q] looks like. *)
Lemma set_next_spec (h : list (@Node T)) a q :
  (a < length h)%nat →
  ∃ h', set_next (Some a) q h = Some h' ∧ length h' = length h ∧
    (∀ b, next_at h' b = if decide (b = a) then q else next_at h b) ∧
    (∀ b, prev_at h' b = prev_at h b) ∧
    (∀ b, val_at h' b = val_at h b).
Proof.
  intros Ha. destruct (lookup_lt_is_Some_2 h a Ha) as [n Hn].
  eexists. split; [by rewrite /set_next /= Hn|].
  split; [by rewrite length_insert|]. split_and!; intros b.
  - by rewrite next_at_insert.
  - rewrite prev_at_insert //. case_decide; [subst; by rewrite /prev_at Hn|done].
  - rewrite val_at_insert //. case_decide; [subst; by rewrite /LRU.val_at Hn|done].
Qed.

Lemma set_prev_spec (h : list (@Node T)) a q :
  (a < length h)%nat →
  ∃ h', set_prev (Some a) q h = Some h' ∧ length h' = length h ∧
    (∀ b, prev_at h' b = if decide (b = a) then q else prev_at h b) ∧
    (∀ b, next_at h' b = next_at h b) ∧
    (∀ b, val_at h' b = val_at h b).
Proof.
  intros Ha. destruct (lookup_lt_is_Some_2 h a Ha) as [n Hn].
  eexists. split; [by rewrite /set_prev /= Hn|].
  split; [by rewrite length_insert|]. split_and!; intros b.
  - by rewrite prev_at_insert.
  - rewrite next_at_insert //. case_decide; [subst; by rewrite /next_at Hn|done].
  - rewrite val_at_insert //. case_decide; [subst; by rewrite /LRU.val_at Hn|done].
Qed.

Lemma next_at_lt (h : list (@Node T)) a q : next_at h a = Some q → (a < length h)%nat.
Proof.
  unfold next_at. intros Hq. destruct (h !! a) eqn:E; [|done].
  by eapply lookup_lt_Some.
Qed.

Lemma prev_at_lt (h : list (@Node T)) a q : prev_at h a = Some q → (a < length h)%nat.
Proof.
  unfold prev_at. intros Hq. destruct (h !! a) eqn:E; [|done].
  by eapply lookup_lt_Some.
Qed.

(** Every node of a chain of two nodes or more is in the store. *)
Lemma linked_lt (h : list (@Node T)) c a :
  linked h c → (2 ≤ length c)%nat → a ∈ c → (a < length h)%nat.
Proof.
  intros Hl Hlen [i Hi]%list_elem_of_lookup.
  destruct i as [|i].
  - destruct (lookup_lt_is_Some_2 c 1%nat) as [y Hy]; [lia|].
    destruct (Hl _ _ _ Hi Hy) as [? _]. by eapply next_at_lt.
  - destruct (lookup_lt_is_Some_2 c i) as [x Hx].
    { apply lookup_lt_Some in Hi. lia. }
    destruct (Hl _ _ _ Hx Hi) as [_ ?]. by eapply prev_at_lt.
Qed.

(** Taking the node at position [S k] out of a chain: its predecessor and
    successor point to each other, every other field is as before. *)
Lemma unlink_linked (h h' : list (@Node T)) c k pr x su :
  NoDup c → linked h c →
  c !! k = Some pr → c !! S k = Some x → c !! S (S k) = Some su →
  (∀ b, next_at h' b = if decide (b = pr) then Some su else next_at h b) →
  (∀ b, prev_at h' b = if decide (b = su) then Some pr else prev_at h b) →
  linked h' (delete (S k) c).
Proof.
  intros Hnd Hl Hpr Hx Hsu Hn Hp i a b Ha Hb.
  rewrite Hn Hp.
  destruct (decide (S i < S k)%nat) as [Hlt|Hge].
  - rewrite list_lookup_delete_lt in Ha; [|lia].
    rewrite list_lookup_delete_lt in Hb; [|lia].
    destruct (Hl _ _ _ Ha Hb) as [H1 H2].
    assert (a ≠ pr).
    { intros ->. pose proof (NoDup_lookup _ _ _ _ Hnd Ha Hpr). lia. }
    assert (b ≠ su).
    { intros ->. pose proof (NoDup_lookup _ _ _ _ Hnd Hb Hsu). lia. }
    by rewrite !decide_False.
  - rewrite list_lookup_delete_ge in Hb; [|lia].
    destruct (decide (i = k)) as [->|Hne].
    + rewrite list_lookup_delete_lt in Ha; [|lia].
      assert (a = pr) as -> by congruence. assert (b = su) as -> by congruence.
      by rewrite !decide_True.
    + rewrite list_lookup_delete_ge in Ha; [|lia].
      destruct (Hl _ _ _ Ha Hb) as [H1 H2].
      assert (a ≠ pr).
      { intros ->. pose proof (NoDup_lookup _ _ _ _ Hnd Ha Hpr). lia. }
      assert (b ≠ su).
      { intros ->. pose proof (NoDup_lookup _ _ _ _ Hnd Hb Hsu). lia. }
      by rewrite !decide_False.
Qed.

(** Putting a node that is not in the chain right after its first node. *)
Lemma push_linked (h h' : list (@Node T)) hd t c cur :
  NoDup (hd :: t :: c) → linked h (hd :: t :: c) → cur ∉ hd :: t :: c →
  (∀ b, next_at h' b = if decide (b = hd) then Some cur
                       else if decide (b = cur) then Some t else next_at h b) →
  (∀ b, prev_at h' b = if decide (b = cur) then Some hd
                       else if decide (b = t) then Some cur else prev_at h b) →
  linked h' (hd :: cur :: t :: c).
Proof.
  intros Hnd Hl Hcur Hn Hp i a b Ha Hb. rewrite Hn Hp.
  apply NoDup_cons in Hnd as [Hhd Hnd].
  apply NoDup_cons in Hnd as [Ht Hnd].
  destruct i as [|[|i]]; simpl in *.
  - simplify_eq. by rewrite !decide_True.
  - simplify_eq. assert (a ≠ hd) by set_solver. assert (b ≠ a) by set_solver.
    rewrite (decide_False (P := a = hd)) // (decide_True (P := a = a)) //.
    by rewrite (decide_False (P := b = a)) // decide_True.
  - assert ((hd :: t :: c) !! S i = Some a) as Ha' by done.
    assert ((hd :: t :: c) !! S (S i) = Some b) as Hb' by done.
    destruct (Hl _ _ _ Ha' Hb') as [H1 H2].
    assert (a ∈ t :: c) by (eapply list_elem_of_lookup_2; exact Ha).
    assert (b ∈ c) by (eapply list_elem_of_lookup_2; exact Hb).
    assert (a ≠ hd) by set_solver. assert (a ≠ cur) by set_solver.
    assert (b ≠ cur) by set_solver. assert (b ≠ t) by set_solver.
    by rewrite !decide_False.
Qed.


Lemma delete_snoc {A} (c : list A) k t :
  (k < length c)%nat → delete k (c ++ [t]) = delete k c ++ [t].
Proof.
  revert k. induction c as [|x c IH]; intros [|k] Hk; simpl in *; try lia; [done|].
  f_equal. apply IH. lia.
Qed.

Lemma filter_ne_id {A} `{!EqDecision A} (l : list A) v :
  v ∉ l → filter (λ w, w ≠ v) l = l.
Proof.
  induction l as [|x l IH]; intros Hv; [done|].
  apply not_elem_of_cons in Hv as [Hx Hv].
  rewrite filter_cons_True; [|congruence]. f_equal. by apply IH.
Qed.

Lemma filter_ne_delete {A} `{!EqDecision A} (l : list A) k v :
  NoDup l → l !! k = Some v → filter (λ w, w ≠ v) l = delete k l.
Proof.
  revert k. induction l as [|x l IH]; intros k Hnd Hk; [done|].
  apply NoDup_cons in Hnd as [Hx Hnd]. destruct k as [|k]; simpl in *.
  - simplify_eq. rewrite filter_cons_False; [|naive_solver]. by apply filter_ne_id.
  - rewrite filter_cons_True.
    + f_equal. by apply IH.
    + intros ->. apply Hx. by eapply list_elem_of_lookup_2.
Qed.

Lemma elem_of_delete_NoDup {A} (c : list A) k a b :
  NoDup c → c !! k = Some a → b ∈ delete k c ↔ b ∈ c ∧ b ≠ a.
Proof.
  intros Hnd Hk. split.
  - intros [j Hj]%list_elem_of_lookup. split.
    + eapply list_elem_of_delete_inv, list_elem_of_lookup_2, Hj.
    + intros ->. destruct (decide (j < k)%nat).
      * rewrite list_lookup_delete_lt // in Hj.
        pose proof (NoDup_lookup _ _ _ _ Hnd Hj Hk). lia.
      * rewrite list_lookup_delete_ge in Hj; [|lia].
        pose proof (NoDup_lookup _ _ _ _ Hnd Hj Hk). lia.
  - intros [[j Hj]%list_elem_of_lookup Hne].
    destruct (decide (j < k)%nat).
    + apply (list_elem_of_lookup_2 _ j). by rewrite list_lookup_delete_lt.
    + assert (j ≠ k) by (intros ->; congruence).
      apply (list_elem_of_lookup_2 _ (pred j)).
      rewrite list_lookup_delete_ge; [|lia].
      by replace (S (pred j)) with j by lia.
Qed.

Lemma NoDup_fmap_inj {A B} (f : A → B) (c : list A) a b :
  NoDup (f <$> c) → a ∈ c → b ∈ c → f a = f b → a = b.
Proof.
  intros Hnd [i Hi]%list_elem_of_lookup [j Hj]%list_elem_of_lookup Hf.
  assert ((f <$> c) !! i = Some (f a)) as Hi' by by rewrite list_lookup_fmap Hi.
  assert ((f <$> c) !! j = Some (f a)) as Hj' by by rewrite list_lookup_fmap Hj /= Hf.
  pose proof (NoDup_lookup _ _ _ _ Hnd Hi' Hj'). congruence.
Qed.

(** The neighbours a node of the list reads in its own fields are its
    neighbours in the chain. *)
Lemma rep_neighbours (h : list (@Node T)) hd tl c k a :
  linked h (hd :: c ++ [tl]) → c !! k = Some a →
  ∃ pr su, (hd :: c ++ [tl]) !! k = Some pr ∧ (hd :: c ++ [tl]) !! S (S k) = Some su ∧
    prev_at h a = Some pr ∧ next_at h a = Some su.
Proof.
  intros Hl Hk.
  assert (k < length c)%nat by by eapply lookup_lt_Some.
  assert ((hd :: c ++ [tl]) !! S k = Some a) as Ha.
  { simpl. by rewrite lookup_app_l. }
  destruct (lookup_lt_is_Some_2 (hd :: c ++ [tl]) k) as [pr Hpr].
  { simpl. rewrite length_app /=. lia. }
  destruct (lookup_lt_is_Some_2 (hd :: c ++ [tl]) (S (S k))) as [su Hsu].
  { simpl. rewrite length_app /=. lia. }
  exists pr, su. split_and!; [done..| |].
  - by destruct (Hl _ _ _ Hpr Ha).
  - by destruct (Hl _ _ _ Ha Hsu).
Qed.

Lemma rep_unlink (s : @LRUReplacer T _ _) c k a pr su h' :
  rep s c → c !! k = Some a →
  prev_at (heap s) a = Some pr → next_at (heap s) a = Some su →
  (∀ b, next_at h' b = if decide (b = pr) then Some su else next_at (heap s) b) →
  (∀ b, prev_at h' b = if decide (b = su) then Some pr else prev_at (heap s) b) →
  (∀ b, val_at h' b = val_at (heap s) b) →
  rep (mkLRU h' (head s) (tail s) (delete (val_at (heap s) a) (map s))) (delete k c).
Proof.
  intros (hd & tl & Hhd & Htl & Hnd & Hl & Hv & Hm) Hk Hpr Hsu Hn Hp Hval.
  assert (k < length c)%nat as Hlt by by eapply lookup_lt_Some.
  destruct (rep_neighbours _ _ _ _ _ _ Hl Hk) as (pr' & su' & Hpr' & Hsu' & ? & ?).
  assert (pr' = pr) as -> by congruence. assert (su' = su) as -> by congruence.
  assert (NoDup c) as Hndc.
  { apply NoDup_cons in Hnd as [_ Hnd]. by apply NoDup_app in Hnd as [? _]. }
  exists hd, tl. simpl. split_and!; [done..| | | |].
  - rewrite -delete_snoc //. change (NoDup (delete (S k) (hd :: c ++ [tl]))).
    eapply sublist_NoDup; [exact Hnd|apply sublist_delete].
  - rewrite -delete_snoc //. change (linked h' (delete (S k) (hd :: c ++ [tl]))).
    assert ((hd :: c ++ [tl]) !! S k = Some a) as Ha'.
    { simpl. by rewrite lookup_app_l. }
    exact (unlink_linked (heap s) h' _ k pr a su Hnd Hl Hpr' Ha' Hsu' Hn Hp).
  - rewrite (list_fmap_ext _ (val_at (heap s))); [|done].
    rewrite list_fmap_delete. eapply sublist_NoDup; [exact Hv|apply sublist_delete].
  - intros v p. rewrite lookup_delete. case_decide as Hva.
    + split; [done|]. intros (b & -> & Hb & Hvb). exfalso.
      apply (elem_of_delete_NoDup _ _ _ _ Hndc Hk) in Hb as [Hb Hne].
      apply Hne. eapply (NoDup_fmap_inj (val_at (heap s))); [done..| |].
      * by eapply list_elem_of_lookup_2.
      * rewrite -Hval Hvb. done.
    + rewrite Hm. split.
      * intros (b & -> & Hb & Hvb). exists b. split_and!; [done| |by rewrite Hval].
        apply (elem_of_delete_NoDup _ _ _ _ Hndc Hk). split; [done|].
        intros ->. congruence.
      * intros (b & -> & Hb & Hvb). exists b. split_and!; [done| |by rewrite -Hval].
        by apply (elem_of_delete_NoDup _ _ _ _ Hndc Hk) in Hb as [Hb _].
Qed.

(** Putting a node that holds a value not in the list at its front. *)
Lemma rep_push (s : @LRUReplacer T _ _) c cur t v h' :
  rep s c → (∀ hd, head s = Some hd → next_at (heap s) hd = Some t ∧ cur ≠ hd) →
  (∀ tl, tail s = Some tl → cur ≠ tl) →
  cur ∉ c → v ∉ val_at (heap s) <$> c →
  (∀ hd, head s = Some hd →
     ∀ b, next_at h' b = if decide (b = hd) then Some cur
                         else if decide (b = cur) then Some t else next_at (heap s) b) →
  (∀ hd, head s = Some hd →
     ∀ b, prev_at h' b = if decide (b = cur) then Some hd
                         else if decide (b = t) then Some cur else prev_at (heap s) b) →
  (∀ b, val_at h' b = if decide (b = cur) then v else val_at (heap s) b) →
  rep (mkLRU h' (head s) (tail s) (<[v := Some cur]> (map s))) (cur :: c).
Proof.
  intros (hd & tl & Hhd & Htl & Hnd & Hl & Hv & Hm) Hhead Htail Hcur Hvn Hn Hp Hval.
  destruct (Hhead _ Hhd) as [Ht Hne]. specialize (Htail _ Htl).
  specialize (Hn _ Hhd). specialize (Hp _ Hhd).
  assert (∃ r, c ++ [tl] = t :: r) as [r Hr].
  { destruct (c ++ [tl]) as [|t' r] eqn:E; [by destruct c|].
    exists r. f_equal.
    assert ((hd :: t' :: r) !! 0%nat = Some hd) as H0 by done.
    assert ((hd :: t' :: r) !! 1%nat = Some t') as H1 by done.
    destruct (Hl _ _ _ H0 H1) as [? _]. congruence. }
  assert (cur ∉ hd :: c ++ [tl]) as Hfresh by set_solver.
  assert (∀ b, b ∈ c → val_at h' b = val_at (heap s) b) as Hvc.
  { intros b Hb. rewrite Hval decide_False //. set_solver. }
  exists hd, tl. simpl. split_and!; [done..| | | |].
  - apply NoDup_cons in Hnd as [Hhdn Hnd]. apply NoDup_cons. split; [set_solver|].
    apply NoDup_cons. split; [set_solver|done].
  - rewrite Hr. rewrite Hr in Hnd Hl Hfresh. by eapply push_linked.
  - apply NoDup_cons. rewrite Hval decide_True //.
    change (list_fmap nat T (val_at h') c) with (val_at h' <$> c).
    rewrite (list_fmap_ext (val_at h') (val_at (heap s)) c) //.
    intros i x Hx. apply Hvc. by eapply list_elem_of_lookup_2.
  - intros w p. rewrite lookup_insert. case_decide as Hw.
    + subst w. split.
      * intros [= <-]. exists cur. split_and!; [done|set_solver|].
        by rewrite Hval decide_True.
      * intros (b & -> & Hb & Hvb). f_equal. f_equal.
        apply elem_of_cons in Hb as [->|Hb]; [done|]. exfalso.
        apply Hvn. apply list_elem_of_fmap. exists b. split; [|done].
        by rewrite -Hvc.
    + rewrite Hm. split.
      * intros (b & -> & Hb & Hvb). exists b. split_and!; [done|set_solver|].
        by rewrite Hvc.
      * intros (b & -> & Hb & Hvb). exists b.
        apply elem_of_cons in Hb as [->|Hb].
        { rewrite Hval decide_True // in Hvb. }
        split_and!; [done..|]. by rewrite -Hvc.
Qed.


(** The four assignments of [Insert] that put [cur] between [head] and the
    node after it. *)
Lemma push_steps (h : list (@Node T)) hd t cur :
  next_at h hd = Some t → (cur < length h)%nat → (t < length h)%nat →
  ∃ hdn h2 h3 h4 h5,
    h !! hd = Some hdn ∧ next hdn = Some t ∧
    set_next (Some cur) (Some t) h = Some h2 ∧
    set_prev (Some t) (Some cur) h2 = Some h3 ∧
    set_next (Some hd) (Some cur) h3 = Some h4 ∧
    set_prev (Some cur) (Some hd) h4 = Some h5 ∧
    length h5 = length h ∧
    (∀ b, next_at h5 b = if decide (b = hd) then Some cur
                         else if decide (b = cur) then Some t else next_at h b) ∧
    (∀ b, prev_at h5 b = if decide (b = cur) then Some hd
                         else if decide (b = t) then Some cur else prev_at h b) ∧
    (∀ b, val_at h5 b = val_at h b).
Proof.
  intros Hhd Hcur Ht. pose proof (next_at_lt _ _ _ Hhd) as Hlt.
  destruct (h !! hd) as [hdn|] eqn:Ehd; [|by rewrite /next_at Ehd in Hhd].
  destruct (set_next_spec h cur (Some t) Hcur) as (h2 & E2 & L2 & N2 & P2 & V2).
  destruct (set_prev_spec h2 t (Some cur)) as (h3 & E3 & L3 & P3 & N3 & V3); [lia|].
  destruct (set_next_spec h3 hd (Some cur)) as (h4 & E4 & L4 & N4 & P4 & V4); [lia|].
  destruct (set_prev_spec h4 cur (Some hd)) as (h5 & E5 & L5 & P5 & N5 & V5); [lia|].
  exists hdn, h2, h3, h4, h5. split_and!; try done.
  - by rewrite /next_at Ehd in Hhd.
  - lia.
  - intros b. rewrite N5 N4 N3 N2. done.
  - intros b. rewrite P5 P4 P3 P2. done.
  - intros b. by rewrite V5 V4 V3 V2.
Qed.

Lemma rep_lt (s : @LRUReplacer T _ _) c a :
  rep s c → a ∈ c → (a < length (heap s))%nat.
Proof.
  intros (hd & tl & Hhd & Htl & Hnd & Hl & Hv & Hm) Ha.
  eapply (linked_lt _ (hd :: c ++ [tl])); [done| |set_solver].
  simpl. rewrite length_app /=. lia.
Qed.

Lemma rep_head (s : @LRUReplacer T _ _) c :
  rep s c → ∃ hd tl t, head s = Some hd ∧ tail s = Some tl ∧
    next_at (heap s) hd = Some t ∧ (t < length (heap s))%nat ∧
    (hd < length (heap s))%nat ∧ (tl < length (heap s))%nat ∧
    (hd ∉ c) ∧ (tl ∉ c) ∧ hd ≠ tl.
Proof.
  intros (hd & tl & Hhd & Htl & Hnd & Hl & Hv & Hm).
  assert (2 ≤ length (hd :: c ++ [tl]))%nat as Hlen.
  { simpl. rewrite length_app /=. lia. }
  destruct (lookup_lt_is_Some_2 (hd :: c ++ [tl]) 1%nat) as [t Ht]; [lia|].
  assert ((hd :: c ++ [tl]) !! 0%nat = Some hd) as H0 by done.
  destruct (Hl _ _ _ H0 Ht) as [Hn _].
  exists hd, tl, t. split_and!; try done.
  - eapply (linked_lt _ _ _ Hl Hlen). by eapply list_elem_of_lookup_2.
  - eapply (linked_lt _ _ _ Hl Hlen). set_solver.
  - eapply (linked_lt _ _ _ Hl Hlen). set_solver.
  - apply NoDup_cons in Hnd as [Hnd _]. set_solver.
  - apply NoDup_cons in Hnd as [_ Hnd]. apply NoDup_app in Hnd as (_ & Hnd & _).
    intros Hin. apply (Hnd _ Hin). set_solver.
  - apply NoDup_cons in Hnd as [Hnd _]. set_solver.
Qed.

Lemma rep_map_lookup (s : @LRUReplacer T _ _) c v :
  rep s c → is_Some (map s !! v) ↔ v ∈ val_at (heap s) <$> c.
Proof.
  intros (hd & tl & Hhd & Htl & Hnd & Hl & Hv & Hm). split.
  - intros [p Hp]. apply Hm in Hp as (a & -> & Ha & <-).
    by apply list_elem_of_fmap_2.
  - intros (a & -> & Ha)%list_elem_of_fmap. exists (Some a). apply Hm. eauto.
Qed.

(** Nodes made later do not disturb the list. *)
Lemma rep_grow (s : @LRUReplacer T _ _) c n :
  rep s c → rep (mkLRU (heap s ++ [n]) (head s) (tail s) (map s)) c.
Proof.
  intros Hrep.
  assert (∀ a, a ∈ c → val_at (heap s ++ [n]) a = val_at (heap s) a) as Hval.
  { intros a Ha. rewrite /LRU.val_at lookup_app_l //. by eapply rep_lt. }
  destruct Hrep as (hd & tl & Hhd & Htl & Hnd & Hl & Hv & Hm).
  exists hd, tl. simpl. split_and!; try done.
  - intros i x y Hx Hy. destruct (Hl _ _ _ Hx Hy) as [H1 H2]. split.
    + rewrite /next_at lookup_app_l //. by eapply next_at_lt.
    + rewrite /prev_at lookup_app_l //. by eapply prev_at_lt.
  - rewrite (list_fmap_ext _ (val_at (heap s)) c) //.
    intros i x Hx. apply Hval. by eapply list_elem_of_lookup_2.
  - intros v p. rewrite Hm. split; intros (a & -> & Ha & Hva); exists a;
      (split_and!; [done..|]); [by rewrite Hval|by rewrite -Hval].
Qed.

Lemma model_NoDup (s : @LRUReplacer T _ _) l : model s l → NoDup l.
Proof. intros (c & (hd & tl & _ & _ & _ & _ & Hv & _) & ->). done. Qed.

Theorem Insert_model (s : @LRUReplacer T _ _) l v :
  model s l →
  ∃ s', Insert v s = Some s' ∧ model s' (v :: filter (λ w, w ≠ v) l).
Proof.
  intros (c & Hrep & ->).
  destruct (rep_head _ _ Hrep) as (hd & tl & t & Hhd & Htl & Ht & Htlt & Hhdlt & Htllt & Hhdc & Htlc & Hne).
  pose proof Hrep as (hd' & tl' & Hhd' & Htl' & Hnd & Hl & Hv & Hm).
  assert (hd' = hd) as -> by congruence. assert (tl' = tl) as -> by congruence.
  assert (NoDup c) as Hndc.
  { apply NoDup_cons in Hnd as [_ Hnd]. by apply NoDup_app in Hnd as [? _]. }
  rewrite /Insert. destruct (map s !! v) as [p|] eqn:Emap.
  - (* the value is in the list: its node is taken out, then put first *)
    apply Hm in Emap as (a & -> & Ha & Hva).
    apply list_elem_of_lookup in Ha as [k Hk].
    destruct (rep_neighbours _ _ _ _ _ _ Hl Hk) as (pr & su & Hpr & Hsu & Hprev & Hnext).
    assert (Hprlt : (pr < length (heap s))%nat).
    { eapply (linked_lt _ _ _ Hl); [simpl; rewrite length_app /=; lia|].
      by eapply list_elem_of_lookup_2. }
    assert (Hsult : (su < length (heap s))%nat).
    { eapply (linked_lt _ _ _ Hl); [simpl; rewrite length_app /=; lia|].
      by eapply list_elem_of_lookup_2. }
    destruct (heap s !! a) as [n|] eqn:En; [|by rewrite /next_at En in Hnext].
    assert (prev n = Some pr) as Hpn by by rewrite /prev_at En in Hprev.
    assert (next n = Some su) as Hnn by by rewrite /next_at En in Hnext.
    destruct (set_prev_spec (heap s) su (Some pr) Hsult) as (h1 & E1 & L1 & P1 & N1 & V1).
    destruct (set_next_spec h1 pr (Some su)) as (h2 & E2 & L2 & N2 & P2 & V2); [lia|].
    set (s1 := mkLRU h2 (head s) (tail s) (delete (val_at (heap s) a) (map s))).
    assert (rep s1 (delete k c)) as Hrep1.
    { eapply (rep_unlink s c k a pr su h2); try done.
      - intros b. by rewrite N2 N1.
      - intros b. by rewrite P2 P1.
      - intros b. by rewrite V2 V1. }
    destruct (rep_head _ _ Hrep1) as (hd1 & tl1 & t1 & Hhd1 & Htl1 & Ht1 & Ht1lt & _).
    simpl in Hhd1, Htl1, Ht1, Ht1lt.
    assert (hd1 = hd) as -> by congruence. assert (tl1 = tl) as -> by congruence.
    assert (a < length h2)%nat as Halt.
    { rewrite L2 L1. by eapply lookup_lt_Some. }
    destruct (push_steps h2 hd t1 a Ht1 Halt Ht1lt)
      as (hdn & h3 & h4 & h5 & h6 & Ehd & Enx & E3 & E4 & E5 & E6 & L6 & N6 & P6 & V6).
    eexists. split.
    { simpl. rewrite En /= Hpn Hnn E1 /= E2 /= Hhd /= Ehd /= Enx E3 /= E4 /= E5 /= E6 /=. done. }
    assert (a ∉ delete k c) as Hadel.
    { rewrite (elem_of_delete_NoDup _ _ _ _ Hndc Hk). naive_solver. }
    assert (val_at h2 <$> delete k c = delete k (val_at (heap s) <$> c)) as Hvals.
    { rewrite -list_fmap_delete. apply list_fmap_ext. intros i x _. by rewrite V2 V1. }
    assert ((val_at (heap s) <$> c) !! k = Some v) as Hkv.
    { by rewrite list_lookup_fmap Hk /= Hva. }
    exists (a :: delete k c). split.
    + replace (<[v := Some a]> (map s)) with (<[v := Some a]> (map s1)).
      2:{ rewrite /s1 /= Hva. by rewrite insert_delete_eq. }
      rewrite -Hhd. apply (rep_push s1 (delete k c) a t1 v h6 Hrep1); simpl.
      * intros hd0 ?. assert (hd0 = hd) as -> by congruence. split; [done|].
        intros ->. apply Hhdc. by eapply list_elem_of_lookup_2.
      * intros tl0 ?. assert (tl0 = tl) as -> by congruence.
        intros ->. apply Htlc. by eapply list_elem_of_lookup_2.
      * done.
      * rewrite Hvals. rewrite (elem_of_delete_NoDup _ _ _ _ Hv Hkv). naive_solver.
      * intros hd0 ?. by assert (hd0 = hd) as -> by congruence.
      * intros hd0 ?. by assert (hd0 = hd) as -> by congruence.
      * intros b. rewrite V6. case_decide; [subst b|done]. by rewrite V2 V1.
    + simpl. rewrite V6 V2 V1 Hva. f_equal.
      rewrite (filter_ne_delete _ k) // -Hvals.
      apply list_fmap_ext. intros i x _. by rewrite V6.
  - (* the value is new: a node is made for it and put first *)
    set (nd := mkNode v None None).
    set (s1 := mkLRU (heap s ++ [nd]) (head s) (tail s) (map s)).
    pose proof (rep_grow s c nd Hrep) as Hrep1. fold s1 in Hrep1.
    assert (v ∉ val_at (heap s) <$> c) as Hvn.
    { rewrite -(rep_map_lookup s c v Hrep) Emap. by intros [? ?]. }
    assert (∀ b, (b < length (heap s))%nat →
              val_at (heap s ++ [nd]) b = val_at (heap s) b) as Hvold.
    { intros b Hb. by rewrite /LRU.val_at lookup_app_l. }
    assert (next_at (heap s ++ [nd]) hd = Some t) as Ht1.
    { by rewrite /next_at lookup_app_l. }
    destruct (push_steps (heap s ++ [nd]) hd t (length (heap s)) Ht1)
      as (hdn & h3 & h4 & h5 & h6 & Ehd & Enx & E3 & E4 & E5 & E6 & L6 & N6 & P6 & V6).
    { rewrite length_app /=. lia. }
    { rewrite length_app /=. lia. }
    assert (length (heap s) ∉ c) as Hfresh.
    { intros Hin. pose proof (rep_lt _ _ _ Hrep Hin). lia. }
    eexists. split.
    { simpl. rewrite Hhd /= Ehd /= Enx E3 /= E4 /= E5 /= E6 /=. done. }
    exists (length (heap s) :: c). split.
    + rewrite -Hhd. apply (rep_push s1 c (length (heap s)) t v h6 Hrep1); simpl.
      * intros hd0 ?. assert (hd0 = hd) as -> by congruence. split; [done|lia].
      * intros tl0 ?. assert (tl0 = tl) as -> by congruence. lia.
      * done.
      * rewrite (list_fmap_ext _ (val_at (heap s)) c) //.
        intros i x Hx. apply Hvold. eapply rep_lt; [done|].
        by eapply list_elem_of_lookup_2.
      * intros hd0 ?. by assert (hd0 = hd) as -> by congruence.
      * intros hd0 ?. by assert (hd0 = hd) as -> by congruence.
      * intros b. rewrite V6. case_decide; [subst b|done].
        by rewrite /LRU.val_at list_lookup_middle.
    + simpl. rewrite V6. f_equal.
      * by rewrite /LRU.val_at list_lookup_middle.
      * rewrite filter_ne_id //. apply list_fmap_ext. intros i x Hx.
        rewrite V6. symmetry. apply Hvold. eapply rep_lt; [done|].
        by eapply list_elem_of_lookup_2.
Qed.


Lemma model_new : model (LRUReplacer_new dflt) [].
Proof.
  exists []. split; [|done]. exists 0%nat, 1%nat. simpl. split_and!; try done.
  - apply NoDup_cons. split; [set_solver|]. apply NoDup_singleton.
  - intros [|[|i]] x y Hx Hy; simplify_eq/=. done.
  - apply NoDup_nil_2.
  - intros v p. rewrite lookup_empty. split; [done|]. intros (a & _ & Ha & _).
    by apply elem_of_nil in Ha.
Qed.

Lemma model_map_empty (s : @LRUReplacer T _ _) l : model s l → map s = ∅ ↔ l = [].
Proof.
  intros (c & Hrep & ->). split.
  - intros Hm. destruct c as [|a c]; [done|]. exfalso.
    assert (is_Some (map s !! val_at (heap s) a)) as [? Hs].
    { apply (rep_map_lookup s (a :: c)); [done|]. set_solver. }
    by rewrite Hm lookup_empty in Hs.
  - intros Hc. apply fmap_nil_inv in Hc as ->. apply map_empty. intros v.
    apply eq_None_not_Some. rewrite (rep_map_lookup s [] v Hrep). set_solver.
Qed.

Lemma model_Size (s : @LRUReplacer T _ _) l : model s l → Size s = length l.
Proof.
  intros Hmod. pose proof (model_NoDup _ _ Hmod) as Hnd.
  destruct Hmod as (c & Hrep & ->). rewrite /Size.
  rewrite -size_dom.
  assert (dom (map s) = list_to_set (val_at (heap s) <$> c)) as ->.
  { apply set_eq. intros v. rewrite elem_of_dom elem_of_list_to_set.
    by apply rep_map_lookup. }
  by rewrite size_list_to_set.
Qed.

Theorem Victim_model_empty (s : @LRUReplacer T _ _) value :
  model s [] → Victim value s = Some (false, value, s).
Proof.
  intros Hmod. rewrite /Victim decide_True //. by apply (model_map_empty s []).
Qed.

Theorem Victim_model (s : @LRUReplacer T _ _) l v value :
  model s (l ++ [v]) →
  ∃ s', Victim value s = Some (true, v, s') ∧ model s' l ∧
        map s' = delete v (map s).
Proof.
  intros Hmod.
  assert (map s ≠ ∅) as Hne.
  { rewrite (model_map_empty s _ Hmod). by destruct l. }
  destruct Hmod as (c & Hrep & Hl).
  destruct (rep_head _ _ Hrep) as (hd & tl & t & Hhd & Htl & Ht & Htlt & Hhdlt & Htllt & Hhdc & Htlc & Hhdtl).
  pose proof Hrep as (hd' & tl' & Hhd' & Htl' & Hnd & Hlk & Hv & Hm).
  assert (hd' = hd) as -> by congruence. assert (tl' = tl) as -> by congruence.
  destruct c as [|a0 c0] using rev_ind; [by destruct l|clear IHc0].
  rewrite fmap_app /= in Hl. apply app_inj_tail in Hl as [-> ->].
  assert ((c0 ++ [a0]) !! length c0 = Some a0) as Hk by (by apply list_lookup_middle).
  destruct (rep_neighbours _ _ _ _ _ _ Hlk Hk) as (pr & su & Hpr & Hsu & Hprev & Hnext).
  assert (su = tl) as ->.
  { simpl in Hsu.
    rewrite (list_lookup_middle (c0 ++ [a0]) [] tl) in Hsu; [|rewrite length_app /=; lia].
    congruence. }
  assert ((hd :: (c0 ++ [a0]) ++ [tl]) !! S (length c0) = Some a0) as Ha.
  { simpl. rewrite lookup_app_l; [|rewrite length_app /=; lia].
    by apply list_lookup_middle. }
  destruct (Hlk _ _ _ Ha Hsu) as [_ Hptl].
  assert (Hprlt : (pr < length (heap s))%nat).
  { eapply (linked_lt _ _ _ Hlk); [simpl; rewrite length_app /=; lia|].
    by eapply list_elem_of_lookup_2. }
  destruct (heap s !! tl) as [ntl|] eqn:Etl; [|by rewrite /prev_at Etl in Hptl].
  assert (prev ntl = Some a0) as Hpt by by rewrite /prev_at Etl in Hptl.
  destruct (heap s !! a0) as [n|] eqn:En; [|by rewrite /next_at En in Hnext].
  assert (prev n = Some pr) as Hpn by by rewrite /prev_at En in Hprev.
  destruct (set_next_spec (heap s) pr (Some tl) Hprlt) as (h1 & E1 & L1 & N1 & P1 & V1).
  destruct (set_prev_spec h1 tl (Some pr)) as (h2 & E2 & L2 & P2 & N2 & V2); [lia|].
  assert (∃ n', h2 !! a0 = Some n' ∧ val n' = val_at (heap s) a0) as (n' & En' & Hvn').
  { destruct (lookup_lt_is_Some_2 h2 a0) as [n' Hn'].
    { rewrite L2 L1. by eapply lookup_lt_Some. }
    exists n'. split; [done|]. rewrite -V1 -V2. by rewrite /LRU.val_at Hn'. }
  eexists. split.
  { rewrite /Victim decide_False //= Htl /= Etl /= Hpt /= En /= Hpn E1 /= E2 /= En' /= Hvn'.
    done. }
  split; [|done]. rewrite -Htl. exists c0. split.
  - replace c0 with (delete (length c0) (c0 ++ [a0]))
      by (by rewrite delete_middle app_nil_r).
    eapply (rep_unlink s (c0 ++ [a0]) (length c0) a0 pr tl h2); try done.
    + intros b. by rewrite N2 N1.
    + intros b. by rewrite P2 P1.
    + intros b. by rewrite V2 V1.
  - simpl. apply list_fmap_ext. intros i x _. by rewrite V2 V1.
Qed.

Theorem Erase_model (s : @LRUReplacer T _ _) l v :
  model s l →
  ∃ s', Erase v s = Some (bool_decide (v ∈ l), s') ∧
        model s' (filter (λ w, w ≠ v) l) ∧
        map s' = delete v (map s) ∧
        (v ∉ l → s' = s).
Proof.
  intros (c & Hrep & ->).
  pose proof Hrep as (hd & tl & Hhd & Htl & Hnd & Hlk & Hv & Hm).
  pose proof (rep_map_lookup s c v Hrep) as Hin.
  rewrite /Erase. destruct (map s !! v) as [p|] eqn:Emap.
  - assert (v ∈ val_at (heap s) <$> c) as Hvin by (apply Hin; eauto).
    apply Hm in Emap as (a & -> & Ha & Hva).
    apply list_elem_of_lookup in Ha as [k Hk].
    destruct (rep_neighbours _ _ _ _ _ _ Hlk Hk) as (pr & su & Hpr & Hsu & Hprev & Hnext).
    assert ((hd :: c ++ [tl]) !! S k = Some a) as Ha.
    { simpl. rewrite lookup_app_l //. by eapply lookup_lt_Some. }
    assert (a ≠ pr) as Hapr.
    { intros ->. pose proof (NoDup_lookup _ _ _ _ Hnd Hpr Ha). lia. }
    assert (Hprlt : (pr < length (heap s))%nat).
    { eapply (linked_lt _ _ _ Hlk); [simpl; rewrite length_app /=; lia|].
      by eapply list_elem_of_lookup_2. }
    assert (Hsult : (su < length (heap s))%nat).
    { eapply (linked_lt _ _ _ Hlk); [simpl; rewrite length_app /=; lia|].
      by eapply list_elem_of_lookup_2. }
    destruct (heap s !! a) as [n|] eqn:En; [|by rewrite /next_at En in Hnext].
    assert (prev n = Some pr) as Hpn by by rewrite /prev_at En in Hprev.
    assert (next n = Some su) as Hnn by by rewrite /next_at En in Hnext.
    destruct (set_next_spec (heap s) pr (Some su) Hprlt) as (h1 & E1 & L1 & N1 & P1 & V1).
    destruct (set_prev_spec h1 su (Some pr)) as (h2 & E2 & L2 & P2 & N2 & V2); [lia|].
    assert (∃ n', h1 !! a = Some n' ∧ next n' = Some su ∧ prev n' = Some pr)
      as (n' & En' & Hnn' & Hpn').
    { destruct (lookup_lt_is_Some_2 h1 a) as [n' Hn'].
      { rewrite L1. by eapply lookup_lt_Some. }
      exists n'. split; [done|]. split.
      - pose proof (N1 a) as HN. rewrite decide_False // Hnext /next_at Hn' in HN. done.
      - pose proof (P1 a) as HP. rewrite Hprev /prev_at Hn' in HP. done. }
    eexists. split.
    { simpl. rewrite En /= Hpn Hnn E1 /= En' /= Hnn' Hpn' E2 /=.
      rewrite bool_decide_true // bool_decide_true //. }
    split_and!; [|done|done].
    exists (delete k c). split.
    + rewrite -Hva. eapply (rep_unlink s c k a pr su h2); try done.
      * intros b. by rewrite N2 N1.
      * intros b. by rewrite P2 P1.
      * intros b. by rewrite V2 V1.
    + cbn [heap].
      assert ((val_at (heap s) <$> c) !! k = Some v) as Hkv
        by (by rewrite list_lookup_fmap Hk /= Hva).
      rewrite (filter_ne_delete _ k v Hv Hkv).
      rewrite -list_fmap_delete. apply list_fmap_ext. intros i x _. by rewrite V2 V1.
  - assert (v ∉ val_at (heap s) <$> c) as Hvn.
    { rewrite -Hin. by intros [? ?]. }
    assert (delete v (map s) = map s) as Hdel by by apply delete_id.
    eexists. split.
    { simpl. by rewrite bool_decide_false. }
    rewrite Hdel. assert (mkLRU (heap s) (head s) (tail s) (map s) = s) as -> by by destruct s.
    split_and!; [|done|done]. rewrite filter_ne_id //. by exists c.
Qed.


Lemma NoDup_bounded_length (c : list nat) n :
  NoDup c → (∀ a, a ∈ c → (a < n)%nat) → (length c ≤ n)%nat.
Proof.
  intros Hnd Hlt. rewrite -(length_seq n 0). apply submseteq_length.
  apply NoDup_submseteq; [done|]. intros a Ha. apply elem_of_seq.
  specialize (Hlt a Ha). lia.
Qed.

Lemma walk_linked (h : list (@Node T)) tl cs p0 fuel :
  linked h (p0 :: cs ++ [tl]) → NoDup (p0 :: cs ++ [tl]) →
  (length cs ≤ fuel)%nat →
  ∃ q, next_at h p0 = Some q ∧ walk fuel h (Some q) (Some tl) = val_at h <$> cs.
Proof.
  revert p0 fuel. induction cs as [|a cs IH]; intros p0 fuel Hl Hnd Hf.
  - exists tl. split.
    + by destruct (Hl 0%nat p0 tl).
    + destruct fuel; [done|]. by rewrite /= decide_True.
  - exists a. split; [by destruct (Hl 0%nat p0 a)|].
    destruct fuel as [|fuel]; [simpl in Hf; lia|].
    apply NoDup_cons in Hnd as [_ Hnd].
    destruct (IH a fuel) as (q & Hq & Hw).
    + intros i x y Hx Hy. by apply (Hl (S i)).
    + done.
    + simpl in Hf. lia.
    + assert (Some a ≠ Some tl) as Hatl.
      { intros [= ->]. apply NoDup_cons in Hnd as [Hnd _]. set_solver. }
      simpl. rewrite decide_False //.
      destruct (h !! a) as [nd|] eqn:End; [|by rewrite /next_at End in Hq].
      rewrite /next_at End /= in Hq. rewrite Hq Hw. f_equal.
      by rewrite /LRU.val_at End.
Qed.

Lemma model_contents (s : @LRUReplacer T _ _) l : model s l → contents s = l.
Proof.
  intros (c & Hrep & ->).
  pose proof Hrep as (hd & tl & Hhd & Htl & Hnd & Hl & Hv & Hm).
  assert (length c ≤ length (heap s))%nat as Hlen.
  { apply NoDup_bounded_length; [|intros a Ha; by eapply rep_lt].
    apply NoDup_cons in Hnd as [_ Hnd]. by apply NoDup_app in Hnd as [? _]. }
  destruct (walk_linked _ _ _ _ _ Hl Hnd Hlen) as (q & Hq & Hw).
  rewrite /contents Hhd Htl /=.
  destruct (heap s !! hd) as [nd|] eqn:End; [|by rewrite /next_at End in Hq].
  rewrite /next_at End /= in Hq. by rewrite Hq.
Qed.


(** *** Histories *)

Lemma last_insert_snoc n (ops : list (@op T)) o v :
  last_insert n (ops ++ [o]) v =
    match o with
    | OpInsert w => if decide (w = v) then S (n + length ops) else last_insert n ops v
    | _ => last_insert n ops v
    end.
Proof.
  revert n. induction ops as [|o' ops IH]; intros n; simpl.
  - destruct o as [w| |w]; try done. case_decide; [f_equal; lia|done].
  - rewrite IH. destruct o as [w| |w]; try done.
    case_decide; [|done]. f_equal. lia.
Qed.

Lemma last_insert_le n (ops : list (@op T)) v :
  (last_insert n ops v ≤ n + length ops)%nat.
Proof.
  revert n. induction ops as [|o ops IH]; intros n; simpl; [lia|].
  specialize (IH (S n)). destruct (last_insert (S n) ops v); [|lia].
  destruct o as [w| |w]; try lia. case_decide; lia.
Qed.

Lemma run_snoc (ops : list (@op T)) o s :
  run dflt (ops ++ [o]) s = run dflt ops s ≫= run_op dflt o.
Proof. by rewrite /run foldl_snoc. Qed.

(** [w] was inserted more recently than [v] in the history [ops]. *)
Local Abbreviation newer ops :=
  (λ w v : T, (last_insert 0 ops v < last_insert 0 ops w)%nat).

Lemma StronglySorted_filter {A} (R : relation A) (P : A → Prop)
    `{!∀ x, Decision (P x)} (l : list A) :
  StronglySorted R l → StronglySorted R (filter P l).
Proof.
  induction 1 as [|x l Hs IH Hx]; [constructor|].
  rewrite filter_cons. case_decide; [|done]. constructor; [done|].
  apply Forall_forall. intros y [_ Hy]%list_elem_of_filter.
  by eapply Forall_forall in Hx.
Qed.

Lemma StronglySorted_ext {A} (R R' : relation A) (l : list A) :
  (∀ x y, x ∈ l → y ∈ l → R x y → R' x y) →
  StronglySorted R l → StronglySorted R' l.
Proof.
  intros HR Hs. induction Hs as [|x l Hs IH Hx]; [constructor|].
  constructor.
  - apply IH. intros y z Hy Hz. apply HR; set_solver.
  - apply Forall_forall. intros y Hy. apply HR; [set_solver..|].
    by eapply Forall_forall in Hx.
Qed.

(** After any history the replacer holds the values of the list, each of
    them inserted at some time, ordered from the most to the least
    recently inserted. *)
Lemma run_model (ops : list (@op T)) :
  ∃ s l, run dflt ops (LRUReplacer_new dflt) = Some s ∧ model s l ∧
    (∀ v, v ∈ l → (0 < last_insert 0 ops v)%nat) ∧
    StronglySorted (newer ops) l.
Proof.
  induction ops as [|o ops IH] using rev_ind.
  - exists (LRUReplacer_new dflt), []. split_and!; [done|apply model_new| |constructor].
    intros v Hv. by apply elem_of_nil in Hv.
  - destruct IH as (s & l & Hrun & Hmod & Hpos & Hsort).
    rewrite run_snoc Hrun /=. destruct o as [x| |x]; simpl.
    + destruct (Insert_model s l x Hmod) as (s' & -> & Hmod').
      exists s', (x :: filter (λ w, w ≠ x) l). split_and!; [done..| |].
      * intros v Hv. rewrite last_insert_snoc. case_decide; [lia|].
        apply Hpos. by apply elem_of_cons in Hv as [->|[_ Hv]%list_elem_of_filter].
      * constructor.
        -- eapply StronglySorted_ext; [|apply (StronglySorted_filter _ _ _ Hsort)].
           intros w v [Hw _]%list_elem_of_filter [Hv _]%list_elem_of_filter.
           assert (x ≠ v) by congruence. assert (x ≠ w) by congruence.
           rewrite !last_insert_snoc (decide_False (P := x = v)) //.
           by rewrite (decide_False (P := x = w)).
        -- apply Forall_forall. intros v [Hv _]%list_elem_of_filter.
           assert (x ≠ v) by congruence.
           rewrite !last_insert_snoc (decide_True (P := x = x)) //.
           rewrite (decide_False (P := x = v)) //.
           pose proof (last_insert_le 0 ops v). lia.
    + destruct l as [|v l0 _] using rev_ind.
      * rewrite (Victim_model_empty s dflt Hmod) /=.
        exists s, []. split_and!; [done..| |constructor].
        intros v Hv. by apply elem_of_nil in Hv.
      * destruct (Victim_model s l0 v dflt Hmod) as (s' & -> & Hmod' & _).
        exists s', l0. split_and!; [done..| |].
        -- intros w Hw. rewrite last_insert_snoc. apply Hpos. set_solver.
        -- apply StronglySorted_app_1_l in Hsort.
           eapply StronglySorted_ext; [|exact Hsort]. intros w u _ _.
           by rewrite !last_insert_snoc.
    + destruct (Erase_model s l x Hmod) as (s' & -> & Hmod' & _).
      exists s', (filter (λ w, w ≠ x) l). split_and!; [done..| |].
      * intros v [_ Hv]%list_elem_of_filter. rewrite last_insert_snoc. by apply Hpos.
      * apply StronglySorted_filter.
        eapply StronglySorted_ext; [|exact Hsort]. intros w u _ _.
        by rewrite !last_insert_snoc.
Qed.


Lemma model_map_lookup (s : @LRUReplacer T _ _) l v :
  model s l → is_Some (map s !! v) ↔ v ∈ l.
Proof. intros (c & Hrep & ->). by apply rep_map_lookup. Qed.

(** C6: in every state of the replacer (reached from the constructor by any
    sequence of calls), [Victim] fails and changes nothing when the replacer
    is empty; otherwise it returns true, outputs a value [v] of the
    replacer whose most recent [Insert] is older than that of every other
    value held, and removes exactly [v] (the last node of the list). *)
Theorem Victim_least_recently_inserted (ops : list (@op T)) (value : T) :
  ∃ s, run dflt ops (LRUReplacer_new dflt) = Some s ∧
    (Size s = 0%nat → Victim value s = Some (false, value, s)) ∧
    (Size s ≠ 0%nat →
     ∃ v s', Victim value s = Some (true, v, s') ∧
       is_Some (map s !! v) ∧
       (0 < last_insert 0 ops v)%nat ∧
       (∀ w, is_Some (map s !! w) → w ≠ v →
             (last_insert 0 ops v < last_insert 0 ops w)%nat) ∧
       map s' = delete v (map s) ∧
       contents s = contents s' ++ [v] ∧
       S (Size s') = Size s).
Proof.
  destruct (run_model ops) as (s & l & Hrun & Hmod & Hpos & Hsort).
  exists s. split; [done|]. rewrite (model_Size s l Hmod). split.
  - intros Hl. apply nil_length_inv in Hl as ->. by apply Victim_model_empty.
  - intros Hl. destruct l as [|v l0 _] using rev_ind; [done|].
    destruct (Victim_model s l0 v value Hmod) as (s' & HV & Hmod' & Hmap).
    exists v, s'. split_and!; [done| | | |done| |].
    + apply (model_map_lookup s _ v Hmod). set_solver.
    + apply Hpos. set_solver.
    + intros w Hw Hne. apply (model_map_lookup s _ w Hmod) in Hw.
      apply elem_of_app in Hw as [Hw|Hw%list_elem_of_singleton]; [|done].
      apply (StronglySorted_app_1_elem_of _ _ _ w v Hsort); set_solver.
    + by rewrite (model_contents s _ Hmod) (model_contents s' _ Hmod').
    + rewrite (model_Size s' l0 Hmod') length_app /=. lia.
Qed.

End lru_facts.

(** ** The extendible hash *)

(** *** Low bits *)

Lemma land_pow2 x l : 0 ≤ l → Z.land x (2 ^ l) = 2 ^ l * ((x `div` 2 ^ l) `mod` 2).
Proof.
  intros Hl. rewrite -Z.testbit_spec' //. apply Z.bits_inj'. intros n Hn.
  rewrite Z.land_spec Z.pow2_bits_eqb //.
  destruct (Z.testbit x l) eqn:Hb; simpl.
  - rewrite Z.mul_1_r Z.pow2_bits_eqb //.
    destruct (Z.eqb_spec l n) as [->|]; [by rewrite Hb|by rewrite andb_false_r].
  - rewrite Z.mul_0_r Z.bits_0.
    destruct (Z.eqb_spec l n) as [->|]; [by rewrite Hb|by rewrite andb_false_r].
Qed.

Lemma mod_pow2_succ x l : 0 ≤ l → x `mod` 2 ^ (l + 1) = x `mod` 2 ^ l + Z.land x (2 ^ l).
Proof.
  intros Hl. rewrite land_pow2 //.
  replace (2 ^ (l + 1)) with (2 ^ l * 2) by (rewrite Z.pow_add_r ?Z.pow_1_r; lia).
  apply Z.rem_mul_r; [|lia]. apply Z.pow_nonzero; lia.
Qed.

Lemma land_pow2_cases x l : 0 ≤ l → Z.land x (2 ^ l) = 0 ∨ Z.land x (2 ^ l) = 2 ^ l.
Proof.
  intros Hl. rewrite land_pow2 //.
  pose proof (Z.mod_pos_bound (x `div` 2 ^ l) 2).
  assert ((x `div` 2 ^ l) `mod` 2 = 0 ∨ (x `div` 2 ^ l) `mod` 2 = 1) as [->| ->] by lia; lia.
Qed.

Lemma mod_pow2_mod x g l : 0 ≤ l ≤ g → (x `mod` 2 ^ g) `mod` 2 ^ l = x `mod` 2 ^ l.
Proof.
  intros Hl. apply Z.mod_mod_divide.
  exists (2 ^ (g - l)). rewrite -Z.pow_add_r; [|lia..]. f_equal. lia.
Qed.

Lemma mod_pow2_le x y g l :
  0 ≤ l ≤ g → x `mod` 2 ^ g = y `mod` 2 ^ g → x `mod` 2 ^ l = y `mod` 2 ^ l.
Proof. intros Hl Hg. by rewrite -(mod_pow2_mod x g l) // Hg mod_pow2_mod. Qed.

(** Agreeing on [l + 1] low bits is agreeing on [l] low bits and on bit [l]. *)
Lemma mod_pow2_succ_eq x y l :
  0 ≤ l →
  x `mod` 2 ^ (l + 1) = y `mod` 2 ^ (l + 1) ↔
  x `mod` 2 ^ l = y `mod` 2 ^ l ∧ (Z.land x (2 ^ l) = 0 ↔ Z.land y (2 ^ l) = 0).
Proof.
  intros Hl. split.
  - intros Heq. assert (x `mod` 2 ^ l = y `mod` 2 ^ l) as Hlow.
    { apply (mod_pow2_le x y (l + 1)); [lia|done]. }
    rewrite !mod_pow2_succ // in Heq. split; [done|]. lia.
  - intros [Hlow Hbit]. rewrite !mod_pow2_succ //.
    destruct (land_pow2_cases x l Hl), (land_pow2_cases y l Hl);
      assert (0 < 2 ^ l) by (apply Z.pow_pos_nonneg; lia); lia.
Qed.

Lemma land_ones_mod x g : 0 ≤ g → Z.land x (2 ^ g - 1) = x `mod` 2 ^ g.
Proof.
  intros Hg. rewrite -Z.land_ones //. f_equal. rewrite Z.ones_equiv. lia.
Qed.

Section eh_facts.
Import EH.
Context {K V : Type} `{!EqDecision K, !Countable K}.
Variable HashKey : K → Z.

Local Abbreviation wf := (wf HashKey).
Local Abbreviation getIdx := (getIdx HashKey).
Local Abbreviation split := (split HashKey).
Local Abbreviation target := (target HashKey).

Lemma shl1_Some d m : shl1 d = Some m ↔ 0 ≤ d < 31 ∧ m = 2 ^ d.
Proof.
  rewrite /shl1. case_decide as Hd.
  - rewrite Z.shiftl_1_l. naive_solver.
  - naive_solver.
Qed.

Lemma getIdx_Some (s : @ExtendibleHash K V _ _) key i :
  getIdx key s = Some i ↔
  0 ≤ globalDepth s < 31 ∧ i = Z.to_nat (HashKey key `mod` 2 ^ globalDepth s).
Proof.
  rewrite /EH.getIdx. destruct (shl1 (globalDepth s)) as [m|] eqn:E; simpl.
  - apply shl1_Some in E as [Hd ->]. rewrite land_ones_mod; [|lia].
    split; [intros [= <-]; by split|by intros [_ ->]].
  - split; [done|]. intros [Hd _]. assert (shl1 (globalDepth s) = Some (2 ^ globalDepth s)) as E'
      by by apply shl1_Some.
    congruence.
Qed.

Lemma pow2_pos l : 0 ≤ l → 0 < 2 ^ l.
Proof. intros. apply Z.pow_pos_nonneg; lia. Qed.

Lemma wf_index (s : @ExtendibleHash K V _ _) key :
  wf s →
  ∃ i, getIdx key s = Some i ∧ (i < length (buckets s))%nat ∧
       Z.of_nat i = HashKey key `mod` 2 ^ globalDepth s.
Proof.
  intros Hwf. destruct Hwf as [Hgd Hlen _ _ _].
  exists (Z.to_nat (HashKey key `mod` 2 ^ globalDepth s)).
  pose proof (pow2_pos (globalDepth s) ltac:(lia)).
  pose proof (Z.mod_pos_bound (HashKey key) (2 ^ globalDepth s) ltac:(lia)).
  split_and!; [by apply getIdx_Some|lia|lia].
Qed.

Lemma wf_new (size : nat) : wf (ExtendibleHash_new (K := K) (V := V) size).
Proof.
  split; simpl; try done.
  - intros b Hb. exists 0%nat. by assert (b = 0%nat) as -> by lia.
  - intros i b Hib. apply list_lookup_singleton_Some in Hib as [-> <-].
    eexists. split; [done|]. simpl. split_and!; [done..| |].
    + intros j Hj. assert (j = 0%nat) as -> by lia. done.
    + intros k [? Hk]. by rewrite lookup_empty in Hk.
Qed.

(** The slot redirection of [split]. *)
Local Abbreviation redirect cur new mask :=
  (λ (i b : nat), if decide (b = cur ∧ Z.land (Z.of_nat i) mask ≠ 0) then new else b).

(** Doubling the directory keeps the invariant. *)
Lemma double_wf (s : @ExtendibleHash K V _ _) :
  wf s → globalDepth s + 1 < 31 →
  wf (mkEH (globalDepth s + 1) (bucketSize s) (bucketNum s)
           (buckets s ++ buckets s) (store s)).
Proof.
  intros [Hgd Hlen Hnum Href Hdir] Hlt.
  pose proof (pow2_pos (globalDepth s) ltac:(lia)) as Hpos.
  assert (Z.of_nat (length (buckets s)) = 2 ^ globalDepth s) as HlenZ by lia.
  assert (∀ j, (j < length (buckets s ++ buckets s))%nat →
            ∃ j0, (j0 < length (buckets s))%nat ∧
                  (buckets s ++ buckets s) !! j = buckets s !! j0 ∧
                  ∀ l, 0 ≤ l ≤ globalDepth s →
                       Z.of_nat j0 `mod` 2 ^ l = Z.of_nat j `mod` 2 ^ l) as Horig.
  { intros j Hj. rewrite length_app in Hj.
    destruct (decide (j < length (buckets s))%nat) as [Hlow|Hhigh].
    - exists j. split_and!; [done|by rewrite lookup_app_l|done].
    - exists (j - length (buckets s))%nat. split_and!; [lia|rewrite lookup_app_r //; lia|].
      intros l Hl. rewrite Nat2Z.inj_sub; [|lia]. rewrite HlenZ.
      replace (2 ^ globalDepth s) with (2 ^ (globalDepth s - l) * 2 ^ l).
      2:{ rewrite -Z.pow_add_r; [|lia..]. f_equal. lia. }
      rewrite -(Z.add_opp_r) -Z.mul_opp_l. apply Z.mod_add.
      pose proof (pow2_pos l). lia. }
  split; simpl.
  - lia.
  - rewrite length_app Hlen Z.pow_add_r; [|lia..]. lia.
  - done.
  - intros b Hb. destruct (Href b Hb) as [i Hi]. exists i.
    rewrite lookup_app_l //. by eapply lookup_lt_Some.
  - intros j b Hj. destruct (Horig j) as (j0 & Hj0 & Heq & Hmod).
    { by eapply lookup_lt_Some. }
    rewrite Heq in Hj. destruct (Hdir j0 b Hj) as (bk & Hbk & Hld & Hslots & Hkeys).
    exists bk. split_and!; [done|lia|lia| |].
    + intros j' Hj'. destruct (Horig j' Hj') as (j0' & Hj0' & Heq' & Hmod').
      rewrite Heq' (Hslots j0' Hj0') Hmod' // Hmod //.
    + intros k Hk. by rewrite (Hkeys k Hk) Hmod.
Qed.

Lemma lookup_redirect (dir : list nat) cur new mask j b' :
  imap (redirect cur new mask) dir !! j = Some b' ↔
  ∃ b, dir !! j = Some b ∧ b' = redirect cur new mask j b.
Proof.
  rewrite list_lookup_imap. destruct (dir !! j) as [b|]; simpl; naive_solver.
Qed.

(** Inside a residue class of the low [l] bits, the member with bit [l]
    clear and the one with bit [l] set. *)
Lemma low_member r l :
  0 ≤ l → 0 ≤ r < 2 ^ l →
  r `mod` 2 ^ l = r ∧ Z.land r (2 ^ l) = 0 ∧
  (r + 2 ^ l) `mod` 2 ^ l = r ∧ Z.land (r + 2 ^ l) (2 ^ l) = 2 ^ l.
Proof.
  intros Hl Hr. pose proof (pow2_pos l Hl) as Hpos.
  assert (2 ^ (l + 1) = 2 * 2 ^ l) as Hsucc by (rewrite Z.pow_add_r ?Z.pow_1_r; lia).
  assert (r `mod` 2 ^ l = r) as Hr1 by (apply Z.mod_small; lia).
  assert ((r + 2 ^ l) `mod` 2 ^ l = r) as Hr2.
  { replace (r + 2 ^ l) with (r + 1 * 2 ^ l) by lia. rewrite Z.mod_add; lia. }
  split_and!; [done| |done|].
  - pose proof (mod_pow2_succ r l Hl) as Hs.
    rewrite (Z.mod_small r (2 ^ (l + 1))) in Hs; lia.
  - pose proof (mod_pow2_succ (r + 2 ^ l) l Hl) as Hs.
    rewrite (Z.mod_small (r + 2 ^ l) (2 ^ (l + 1))) in Hs; lia.
Qed.

(** Redirecting the slots of an overfull bucket whose local depth is below
    the global depth keeps the invariant. *)
Lemma redirect_wf (s : @ExtendibleHash K V _ _) i cur bk :
  wf s → buckets s !! i = Some cur → store s !! cur = Some bk →
  localDepth bk < globalDepth s →
  let mask := 2 ^ localDepth bk in
  wf (mkEH (globalDepth s) (bucketSize s) (bucketNum s + 1)
        (imap (redirect cur (length (store s)) mask) (buckets s))
        (<[cur := mkBucket (localDepth bk + 1)
                   (filter (λ kv, Z.land (HashKey kv.1) mask = 0) (kmap bk))]> (store s)
         ++ [mkBucket (localDepth bk + 1)
               (filter (λ kv, Z.land (HashKey kv.1) mask ≠ 0) (kmap bk))])).
Proof.
  intros [Hgd Hlen Hnum Href Hdir] Hi Hbk Hlt mask. subst mask.
  set (ld := localDepth bk) in *. set (new := length (store s)).
  destruct (Hdir i cur Hi) as (bk' & Hbk' & Hld & Hslots & Hkeys).
  assert (bk' = bk) as -> by congruence. fold ld in Hld.
  pose proof (pow2_pos ld ltac:(lia)) as Hpos.
  assert (cur < length (store s))%nat as Hcur by by eapply lookup_lt_Some.
  assert (∀ j b, buckets s !! j = Some b → b ≠ new) as Hold.
  { intros j b Hj. destruct (Hdir j b Hj) as (? & Hb & _).
    apply lookup_lt_Some in Hb. unfold new. lia. }
  assert (Z.of_nat (length (buckets s)) = 2 ^ globalDepth s) as HlenZ.
  { pose proof (pow2_pos (globalDepth s) ltac:(lia)). lia. }
  assert (2 ^ (ld + 1) ≤ 2 ^ globalDepth s) as Hpow.
  { apply Z.pow_le_mono_r; lia. }
  assert (2 ^ (ld + 1) = 2 * 2 ^ ld) as Hsucc by (rewrite Z.pow_add_r ?Z.pow_1_r; lia).
  pose proof (Z.mod_pos_bound (Z.of_nat i) (2 ^ ld) Hpos) as Hr.
  split; simpl.
  - done.
  - by rewrite length_imap.
  - rewrite length_app length_insert /=. lia.
  - (* every bucket is referenced *)
    intros b Hb. rewrite length_app length_insert /= in Hb.
    destruct (low_member (Z.of_nat i `mod` 2 ^ ld) ld ltac:(lia) Hr) as (Hm0 & Hb0 & Hm1 & Hb1).
    destruct (decide (b = new)) as [->|Hnew]; [|destruct (decide (b = cur)) as [->|Hne]].
    + set (j1 := Z.to_nat (Z.of_nat i `mod` 2 ^ ld + 2 ^ ld)).
      assert (j1 < length (buckets s))%nat as Hj1 by lia.
      assert (Z.of_nat j1 = Z.of_nat i `mod` 2 ^ ld + 2 ^ ld) as Ej1 by lia.
      exists j1. apply lookup_redirect. exists cur. split.
      * apply (Hslots _ Hj1). by rewrite Ej1.
      * rewrite decide_True; [done|]. split; [done|]. rewrite Ej1.
        lia.
    + set (j0 := Z.to_nat (Z.of_nat i `mod` 2 ^ ld)).
      assert (j0 < length (buckets s))%nat as Hj0 by lia.
      assert (Z.of_nat j0 = Z.of_nat i `mod` 2 ^ ld) as Ej0 by lia.
      exists j0. apply lookup_redirect. exists cur. split.
      * apply (Hslots _ Hj0). by rewrite Ej0.
      * rewrite decide_False; [done|]. intros [_ Hbit]. apply Hbit.
        by rewrite Ej0.
    + destruct (Href b) as [j Hj]; [unfold new in Hnew; lia|].
      exists j. apply lookup_redirect. exists b. split; [done|].
      rewrite decide_False; [done|]. naive_solver.
  - (* the slots and keys of every bucket *)
    intros j b' [b [Hj Hb']]%lookup_redirect.
    destruct (Hdir j b Hj) as (bkb & Hbkb & Hldb & Hslotsb & Hkeysb).
    case_decide as Hcase; subst b'.
    + (* a slot moved to the new bucket *)
      destruct Hcase as [-> Hbit]. assert (bkb = bk) as -> by congruence.
      fold ld in Hldb, Hslotsb, Hkeysb.
      eexists. split.
      { rewrite lookup_app_r length_insert; [|done]. by rewrite Nat.sub_diag. }
      simpl. split_and!; [lia|lia| |].
      * intros j' Hj'. rewrite length_imap in Hj'. rewrite lookup_redirect.
        rewrite mod_pow2_succ_eq; [|lia]. split.
        -- intros (b2 & Hj2 & Hb2). case_decide as Hc2; [|by apply Hold in Hj2].
           destruct Hc2 as [-> Hbit2]. split; [by apply Hslotsb|].
           tauto.
        -- intros [Hlow Hbiteq]. exists cur. split; [by apply Hslotsb|].
           rewrite decide_True; [done|]. split; [done|]. tauto.
      * intros k [v Hk]. apply map_lookup_filter_Some in Hk as [Hk Hkb]. simpl in Hkb.
        rewrite mod_pow2_succ_eq; [|lia]. split; [by apply Hkeysb|].
        tauto.
    + destruct (decide (b = cur)) as [->|Hne].
      * (* a slot that stays with the old bucket *)
        assert (bkb = bk) as -> by congruence.
        fold ld in Hldb, Hslotsb, Hkeysb.
        assert (Z.land (Z.of_nat j) (2 ^ ld) = 0) as Hbit.
        { destruct (decide (Z.land (Z.of_nat j) (2 ^ ld) = 0)); [done|]. naive_solver. }
        eexists. split.
        { rewrite lookup_app_l ?length_insert; [|done].
          by apply list_lookup_insert_eq. }
        simpl. split_and!; [lia|lia| |].
        -- intros j' Hj'. rewrite length_imap in Hj'. rewrite lookup_redirect.
           rewrite mod_pow2_succ_eq; [|lia]. split.
           ++ intros (b2 & Hj2 & Hb2). case_decide as Hc2.
              { exfalso. unfold new in Hb2. lia. }
              subst b2. split; [by apply Hslotsb|].
              assert (Z.land (Z.of_nat j') (2 ^ ld) = 0).
              { destruct (decide (Z.land (Z.of_nat j') (2 ^ ld) = 0)); [done|]. naive_solver. }
              tauto.
           ++ intros [Hlow Hbiteq]. exists cur. split; [by apply Hslotsb|].
              rewrite decide_False; [done|]. tauto.
        -- intros k [v Hk]. apply map_lookup_filter_Some in Hk as [Hk Hkb]. simpl in Hkb.
           rewrite mod_pow2_succ_eq; [|lia]. split; [by apply Hkeysb|].
           tauto.
      * (* a slot of another bucket *)
        exists bkb. split.
        { rewrite lookup_app_l ?length_insert; [|by eapply lookup_lt_Some].
          by rewrite list_lookup_insert_ne. }
        split_and!; [lia|lia| |done].
        intros j' Hj'. rewrite length_imap in Hj'. rewrite lookup_redirect -Hslotsb //.
        split.
        -- intros (b2 & Hj2 & Hb2). case_decide as Hc2.
           { exfalso. by apply (Hold _ _ Hj). }
           by subst.
        -- intros Hj2. exists b. split; [done|]. rewrite decide_False; [done|]. tauto.
Qed.

(** Replacing the entries of a bucket by entries that hash to its slots
    keeps the invariant. *)
Lemma update_wf (s : @ExtendibleHash K V _ _) cur bk m' :
  wf s → store s !! cur = Some bk →
  (∀ k, is_Some (m' !! k) →
        is_Some (kmap bk !! k) ∨
        ∀ j, buckets s !! j = Some cur →
             HashKey k `mod` 2 ^ localDepth bk = Z.of_nat j `mod` 2 ^ localDepth bk) →
  wf (mkEH (globalDepth s) (bucketSize s) (bucketNum s) (buckets s)
           (<[cur := mkBucket (localDepth bk) m']> (store s))).
Proof.
  intros [Hgd Hlen Hnum Href Hdir] Hbk Hm'. split; simpl.
  - done.
  - done.
  - by rewrite length_insert.
  - intros b Hb. rewrite length_insert in Hb. by apply Href.
  - intros j b Hj. destruct (Hdir j b Hj) as (bkb & Hbkb & Hld & Hslots & Hkeys).
    destruct (decide (b = cur)) as [->|Hne].
    + assert (bkb = bk) as -> by congruence.
      eexists. split.
      { apply list_lookup_insert_eq. by eapply lookup_lt_Some. }
      simpl. split_and!; [lia|lia|done|].
      intros k Hk. destruct (Hm' k Hk) as [Hold|Hnew]; [by apply Hkeys|by apply Hnew].
    + exists bkb. split; [by rewrite list_lookup_insert_ne|]. done.
Qed.

Lemma land_mod_pow2 x g l :
  0 ≤ l < g → Z.land (x `mod` 2 ^ g) (2 ^ l) = Z.land x (2 ^ l).
Proof.
  intros Hl.
  pose proof (mod_pow2_succ x l ltac:(lia)) as H1.
  pose proof (mod_pow2_succ (x `mod` 2 ^ g) l ltac:(lia)) as H2.
  rewrite !mod_pow2_mod in H2; lia.
Qed.

(** What [split] does to a well-formed index, and where a key of the split
    bucket is found afterwards. *)
Lemma split_spec (s : @ExtendibleHash K V _ _) i cur bk :
  wf s → buckets s !! i = Some cur → store s !! cur = Some bk →
  ∃ s1, split cur bk s = Some s1 ∧
    globalDepth s1 = Z.max (globalDepth s) (localDepth bk + 1) ∧
    bucketSize s1 = bucketSize s ∧
    (globalDepth s1 < 31 →
     wf s1 ∧
     ∀ key, getIdx key s = Some i →
       ∃ i1 c1,
         getIdx key s1 = Some i1 ∧ buckets s1 !! i1 = Some c1 ∧
         store s1 !! c1 =
           Some (mkBucket (localDepth bk + 1)
                   (filter (λ kv, Z.land (HashKey kv.1) (2 ^ localDepth bk) = 0 ↔
                                  Z.land (HashKey key) (2 ^ localDepth bk) = 0)
                           (kmap bk)))).
Proof.
  intros Hwf Hi Hbk.
  pose proof Hwf as [Hgd Hlen Hnum Href Hdir].
  destruct (Hdir i cur Hi) as (bk' & Hbk' & Hld & Hslots & Hkeys).
  assert (bk' = bk) as -> by congruence.
  set (ld := localDepth bk) in *.
  assert (shl1 (ld + 1 - 1) = Some (2 ^ ld)) as Hshl.
  { apply shl1_Some. split; [lia|]. f_equal. lia. }
  assert (i < length (buckets s))%nat as Hilt by by eapply lookup_lt_Some.
  rewrite /EH.split. fold ld. rewrite Hshl /=.
  case_decide as Hgrow; (eexists; split; [done|]); simpl.
  - (* the directory doubles *)
    split_and!; [lia|done|]. intros Hlt.
    pose proof (double_wf s Hwf Hlt) as Hwf2.
    set (s2 := mkEH (globalDepth s + 1) (bucketSize s) (bucketNum s)
                    (buckets s ++ buckets s) (store s)) in *.
    assert (buckets s2 !! i = Some cur) as Hi2 by by rewrite /= lookup_app_l.
    assert (localDepth bk < globalDepth s2) as Hlt2 by (simpl; fold ld; lia).
    pose proof (redirect_wf s2 i cur bk Hwf2 Hi2 Hbk Hlt2) as Hwf1.
    simpl in Hwf1. fold ld in Hwf1. split; [exact Hwf1|].
    intros key Hkey. apply getIdx_Some in Hkey as [_ Hkey].
    destruct (wf_index _ key Hwf1) as (i1 & Hi1 & Hi1lt & Hi1Z).
    simpl in Hi1lt, Hi1Z. rewrite length_imap in Hi1lt.
    destruct (Hdir i cur Hi) as (_ & _ & _ & _ & _).
    destruct (wf_dir _ _ Hwf2 i cur Hi2) as (bk2 & Hbk2 & _ & Hslots2 & _).
    assert (bk2 = bk) as -> by (simpl in Hbk2; congruence).
    assert ((buckets s ++ buckets s) !! i1 = Some cur) as Hc.
    { apply (Hslots2 i1 Hi1lt). fold ld. rewrite Hi1Z.
      pose proof (Z.mod_pos_bound (HashKey key) (2 ^ globalDepth s)
                      (pow2_pos (globalDepth s) ltac:(lia))).
      rewrite mod_pow2_mod; [|lia]. rewrite Hkey Z2Nat.id; [|lia].
      rewrite mod_pow2_mod; [done|lia]. }
    assert (Z.land (Z.of_nat i1) (2 ^ ld) = Z.land (HashKey key) (2 ^ ld)) as Hbit.
    { rewrite Hi1Z. apply land_mod_pow2. lia. }
    exists i1. eexists. split; [exact Hi1|]. split.
    { simpl. apply lookup_redirect. eexists. split; [exact Hc|done]. }
    rewrite Hbit. case_decide as Hcase.
    + rewrite lookup_app_r length_insert; [|done]. rewrite Nat.sub_diag /=.
      do 2 f_equal. apply map_filter_ext. intros k v _. simpl. tauto.
    + assert (Z.land (HashKey key) (2 ^ ld) = 0) as Hz.
      { destruct (decide (Z.land (HashKey key) (2 ^ ld) = 0)); [done|tauto]. }
      rewrite lookup_app_l ?length_insert; [|by eapply lookup_lt_Some].
      rewrite list_lookup_insert_eq; [|by eapply lookup_lt_Some].
      do 2 f_equal. apply map_filter_ext. intros k v _. simpl. tauto.
  - (* the directory is large enough *)
    split_and!; [lia|done|]. intros Hlt.
    assert (localDepth bk < globalDepth s) as Hlt2 by (fold ld; lia).
    pose proof (redirect_wf s i cur bk Hwf Hi Hbk Hlt2) as Hwf1.
    simpl in Hwf1. fold ld in Hwf1. split; [exact Hwf1|].
    intros key Hkey.
    destruct (wf_index _ key Hwf1) as (i1 & Hi1 & Hi1lt & Hi1Z).
    simpl in Hi1lt, Hi1Z. rewrite length_imap in Hi1lt.
    assert (i1 = i) as ->.
    { apply getIdx_Some in Hkey as [_ ->]. lia. }
    assert (Z.land (Z.of_nat i) (2 ^ ld) = Z.land (HashKey key) (2 ^ ld)) as Hbit.
    { rewrite Hi1Z. apply land_mod_pow2. lia. }
    exists i. eexists. split; [exact Hi1|]. split.
    { simpl. apply lookup_redirect. eexists. split; [exact Hi|done]. }
    rewrite Hbit. case_decide as Hcase.
    + rewrite lookup_app_r length_insert; [|done]. rewrite Nat.sub_diag /=.
      do 2 f_equal. apply map_filter_ext. intros k v _. simpl. tauto.
    + assert (Z.land (HashKey key) (2 ^ ld) = 0) as Hz.
      { destruct (decide (Z.land (HashKey key) (2 ^ ld) = 0)); [done|tauto]. }
      rewrite lookup_app_l ?length_insert; [|by eapply lookup_lt_Some].
      rewrite list_lookup_insert_eq; [|by eapply lookup_lt_Some].
      do 2 f_equal. apply map_filter_ext. intros k v _. simpl. tauto.
Qed.

Local Abbreviation agree := (agree HashKey).
Local Abbreviation Insert_loop := (Insert_loop HashKey).
Local Abbreviation Insert := (Insert HashKey).
Local Abbreviation Find := (Find HashKey).
Local Abbreviation Remove := (Remove HashKey).
Local Abbreviation fits := (fits HashKey).
Local Abbreviation reachable := (reachable HashKey).

(** The slot of a key holds a bucket, and the key has the low bits of the
    entries of that bucket. *)
Lemma wf_target (s : @ExtendibleHash K V _ _) key :
  wf s →
  ∃ i cur bk, getIdx key s = Some i ∧ buckets s !! i = Some cur ∧
    store s !! cur = Some bk ∧ 0 ≤ localDepth bk ≤ globalDepth s ∧
    HashKey key `mod` 2 ^ localDepth bk = Z.of_nat i `mod` 2 ^ localDepth bk ∧
    (∀ k, is_Some (kmap bk !! k) →
          HashKey k `mod` 2 ^ localDepth bk = HashKey key `mod` 2 ^ localDepth bk).
Proof.
  intros Hwf. destruct (wf_index s key Hwf) as (i & Hi & Hlt & HiZ).
  destruct (lookup_lt_is_Some_2 _ _ Hlt) as [cur Hcur].
  destruct (wf_dir _ _ Hwf i cur Hcur) as (bk & Hbk & Hld & Hslots & Hkeys).
  assert (HashKey key `mod` 2 ^ localDepth bk = Z.of_nat i `mod` 2 ^ localDepth bk) as Hkey.
  { rewrite HiZ mod_pow2_mod //. }
  exists i, cur, bk. split_and!; try done; try lia.
  intros k Hk. by rewrite Hkey Hkeys.
Qed.

Lemma target_Some (s : @ExtendibleHash K V _ _) key i cur bk :
  getIdx key s = Some i → buckets s !! i = Some cur → store s !! cur = Some bk →
  target key s = Some bk.
Proof. intros Hi Hc Hb. by rewrite /EH.target Hi /= Hc /= Hb. Qed.

Lemma agree_all (m : gmap K V) key n l :
  0 ≤ n ≤ l →
  (∀ k, is_Some (m !! k) → HashKey k `mod` 2 ^ l = HashKey key `mod` 2 ^ l) →
  agree key n m = m.
Proof.
  intros Hn Hm. apply map_filter_id. intros k v Hk. simpl.
  apply (mod_pow2_le _ _ l); [done|]. apply Hm. eauto.
Qed.

Lemma agree_same_bit (m : gmap K V) key n l :
  0 ≤ l < n →
  agree key n (filter (λ kv, Z.land (HashKey kv.1) (2 ^ l) = 0 ↔
                             Z.land (HashKey key) (2 ^ l) = 0) m)
  = agree key n m.
Proof.
  intros Hn. rewrite /EH.agree map_filter_filter. apply map_filter_ext.
  intros k v _. simpl. split; [tauto|]. intros Heq. split; [done|].
  assert (HashKey k `mod` 2 ^ (l + 1) = HashKey key `mod` 2 ^ (l + 1)) as Hs.
  { apply (mod_pow2_le _ _ n); [lia|done]. }
  apply mod_pow2_succ_eq in Hs; [tauto|lia].
Qed.

(** A round of the loop that finds room stores the pair and returns. *)
Lemma Insert_loop_room fuel key value cur (s : @ExtendibleHash K V _ _) bk :
  store s !! cur = Some bk →
  (size (kmap bk) < bucketSize s)%nat ∨ is_Some (kmap bk !! key) →
  Insert_loop (S fuel) key value cur s =
    Some (mkEH (globalDepth s) (bucketSize s) (bucketNum s) (buckets s)
               (<[cur := mkBucket (localDepth bk) (<[key := value]> (kmap bk))]> (store s))).
Proof. intros Hbk Hroom. by rewrite /= Hbk /= decide_True. Qed.

(** A round of the loop that finds the bucket full splits it and goes on
    with the bucket of the key's new slot. *)
Lemma Insert_loop_full fuel key value cur (s : @ExtendibleHash K V _ _) bk :
  store s !! cur = Some bk →
  ¬ ((size (kmap bk) < bucketSize s)%nat ∨ is_Some (kmap bk !! key)) →
  Insert_loop (S fuel) key value cur s =
    s' ← split cur bk s; index ← getIdx key s'; cur' ← buckets s' !! index;
    Insert_loop fuel key value cur' s'.
Proof. intros Hbk Hfull. by rewrite /= Hbk /= decide_False. Qed.

Lemma Insert_loop_wf fuel key value :
  ∀ (s : @ExtendibleHash K V _ _) i cur s',
    wf s → getIdx key s = Some i → buckets s !! i = Some cur →
    Insert_loop fuel key value cur s = Some s' →
    wf s' ∧ bucketSize s' = bucketSize s.
Proof.
  induction fuel as [|fuel IH]; intros s i cur s' Hwf Hi Hcur Hrun; [done|].
  destruct (wf_target s key Hwf) as (i' & cur' & bk & Hi' & Hcur' & Hbk & Hld & Hkey & Hkeys).
  assert (i' = i) as -> by congruence. assert (cur' = cur) as -> by congruence.
  destruct (decide ((size (kmap bk) < bucketSize s)%nat ∨ is_Some (kmap bk !! key)))
    as [Hroom|Hfull].
  - rewrite (Insert_loop_room _ _ _ _ _ bk) // in Hrun. injection Hrun as <-.
    split; [|done]. apply update_wf; [done..|]. intros k Hk.
    destruct (decide (k = key)) as [->|Hne].
    + right. intros j Hj.
      destruct (wf_dir _ _ Hwf i cur Hcur) as (bk' & Hbk' & _ & Hslots & _).
      assert (bk' = bk) as -> by congruence.
      rewrite Hkey. symmetry. apply Hslots; [by eapply lookup_lt_Some|done].
    + left. by rewrite lookup_insert_ne in Hk.
  - rewrite (Insert_loop_full _ _ _ _ _ bk) // in Hrun.
    destruct (split_spec s i cur bk Hwf Hcur Hbk) as (s1 & Hsplit & Hgd1 & Hbs1 & Hnext).
    rewrite Hsplit /= in Hrun.
    destruct (getIdx key s1) as [i1|] eqn:Hi1; [|done]. simpl in Hrun.
    destruct (buckets s1 !! i1) as [c1|] eqn:Hc1; [|done]. simpl in Hrun.
    pose proof Hi1 as [Hlt1 _]%getIdx_Some.
    destruct (Hnext ltac:(lia)) as [Hwf1 _].
    destruct (IH s1 i1 c1 s' Hwf1 Hi1 Hc1 Hrun) as [Hwf' Hbs']. split; [done|congruence].
Qed.

Lemma Insert_loop_Find fuel key value w :
  ∀ (s : @ExtendibleHash K V _ _) i cur s',
    getIdx key s = Some i → buckets s !! i = Some cur →
    Insert_loop fuel key value cur s = Some s' →
    Find key w s' = Some (true, value).
Proof.
  induction fuel as [|fuel IH]; intros s i cur s' Hi Hcur Hrun; [done|].
  simpl in Hrun. destruct (store s !! cur) as [bk|] eqn:Hbk; [|done]. simpl in Hrun.
  case_decide as Hroom.
  - injection Hrun as <-. rewrite /EH.Find.
    assert (getIdx key (mkEH (globalDepth s) (bucketSize s) (bucketNum s) (buckets s)
              (<[cur := mkBucket (localDepth bk) (<[key := value]> (kmap bk))]> (store s)))
            = Some i) as -> by done.
    rewrite /= Hcur /= list_lookup_insert_eq; [|by eapply lookup_lt_Some].
    by rewrite /= lookup_insert_eq.
  - destruct (split cur bk s) as [s1|] eqn:Hsplit; [|done]. simpl in Hrun.
    destruct (getIdx key s1) as [i1|] eqn:Hi1; [|done]. simpl in Hrun.
    destruct (buckets s1 !! i1) as [c1|] eqn:Hc1; [|done]. simpl in Hrun.
    by eapply IH.
Qed.

(** The loop returns as soon as few enough entries of the bucket share the
    low [n] bits of the key's hash; it needs at most [n - localDepth + 1]
    rounds. *)
Lemma Insert_loop_fits m key value :
  ∀ (s : @ExtendibleHash K V _ _) i cur bk,
    wf s → getIdx key s = Some i → buckets s !! i = Some cur →
    store s !! cur = Some bk →
    (is_Some (kmap bk !! key) ∨
     ∃ n, 0 ≤ n < 31 ∧ (size (agree key n (kmap bk)) < bucketSize s)%nat ∧
          n - localDepth bk ≤ Z.of_nat m) →
    ∃ s', Insert_loop (S m) key value cur s = Some s'.
Proof.
  induction m as [|m IH]; intros s i cur bk Hwf Hi Hcur Hbk Hfits.
  all: destruct (decide ((size (kmap bk) < bucketSize s)%nat ∨ is_Some (kmap bk !! key)))
    as [Hroom|Hfull]; [rewrite (Insert_loop_room _ _ _ _ _ bk) //; eauto|].
  all: destruct Hfits as [Hin|(n & Hn & Hsize & Hm)]; [tauto|].
  all: destruct (wf_target s key Hwf) as (i' & cur' & bk' & Hi' & Hcur' & Hbk' & Hld & Hkey & Hkeys).
  all: assert (i' = i) as -> by congruence; assert (cur' = cur) as -> by congruence.
  all: assert (bk' = bk) as -> by congruence.
  all: assert (localDepth bk < n) as Hlt.
  1,3: destruct (decide (localDepth bk < n)) as [|Hge]; [done|]; exfalso; apply Hfull; left.
  1,2: rewrite (agree_all _ key n (localDepth bk)) // in Hsize; lia.
  - lia.
  - rewrite (Insert_loop_full _ _ _ _ _ bk) //.
    destruct (split_spec s i cur bk Hwf Hcur Hbk) as (s1 & Hsplit & Hgd1 & Hbs1 & Hnext).
    destruct (Hnext ltac:(destruct Hwf; lia)) as [Hwf1 Htgt].
    destruct (Htgt key Hi) as (i1 & c1 & Hi1 & Hc1 & Hb1).
    rewrite Hsplit /= Hi1 /= Hc1 /=.
    eapply (IH s1 i1 c1); [done..|]. right. exists n. simpl.
    rewrite agree_same_bit; [|lia]. rewrite Hbs1. split_and!; [lia|lia|done|lia].
Qed.

(** A run of the loop that returns started from a state where room could be
    found for the key. *)
Lemma Insert_loop_returns fuel key value :
  ∀ (s : @ExtendibleHash K V _ _) i cur bk s',
    wf s → getIdx key s = Some i → buckets s !! i = Some cur →
    store s !! cur = Some bk →
    Insert_loop fuel key value cur s = Some s' →
    is_Some (kmap bk !! key) ∨
    ∃ n, 0 ≤ n < 31 ∧ (size (agree key n (kmap bk)) < bucketSize s)%nat.
Proof.
  induction fuel as [|fuel IH]; intros s i cur bk s' Hwf Hi Hcur Hbk Hrun; [done|].
  destruct (wf_target s key Hwf) as (i' & cur' & bk' & Hi' & Hcur' & Hbk' & Hld & Hkey & Hkeys).
  assert (i' = i) as -> by congruence. assert (cur' = cur) as -> by congruence.
  assert (bk' = bk) as -> by congruence.
  destruct (decide ((size (kmap bk) < bucketSize s)%nat ∨ is_Some (kmap bk !! key)))
    as [[Hroom|Hin]|Hfull].
  - right. exists 0. split; [lia|].
    rewrite (agree_all _ key 0 (localDepth bk)); [done|lia|done].
  - by left.
  - rewrite (Insert_loop_full _ _ _ _ _ bk) // in Hrun.
    destruct (split_spec s i cur bk Hwf Hcur Hbk) as (s1 & Hsplit & Hgd1 & Hbs1 & Hnext).
    rewrite Hsplit /= in Hrun.
    destruct (getIdx key s1) as [i1|] eqn:Hi1; [|done]. simpl in Hrun.
    destruct (buckets s1 !! i1) as [c1|] eqn:Hc1; [|done]. simpl in Hrun.
    pose proof Hi1 as [Hlt1 _]%getIdx_Some.
    destruct (Hnext ltac:(lia)) as [Hwf1 Htgt].
    destruct (Htgt key Hi) as (i1' & c1' & Hi1' & Hc1' & Hb1).
    assert (i1' = i1) as -> by congruence. assert (c1' = c1) as -> by congruence.
    destruct (IH s1 i1 c1 _ s' Hwf1 Hi1 Hc1 Hb1 Hrun) as [Hin|(n & Hn & Hsize)].
    + left. simpl in Hin. destruct Hin as [v Hv].
      apply map_lookup_filter_Some in Hv as [Hv _]. eauto.
    + right. simpl in Hsize. rewrite Hbs1 in Hsize.
      destruct (decide (localDepth bk < n)) as [Hlt|Hge].
      * exists n. split; [done|]. rewrite agree_same_bit in Hsize; [done|lia].
      * exists (localDepth bk + 1). split; [lia|].
        rewrite -(agree_same_bit _ key (localDepth bk + 1) (localDepth bk)); [|lia].
        destruct (wf_target s1 key Hwf1) as (i2 & c2 & bk2 & Hi2 & Hc2 & Hb2 & Hld2 & _ & Hkeys2).
        assert (i2 = i1) as -> by congruence. assert (c2 = c1) as -> by congruence.
        rewrite Hb1 in Hb2. injection Hb2 as <-. simpl in Hkeys2.
        rewrite (agree_all _ key (localDepth bk + 1) (localDepth bk + 1)); [|lia|done].
        rewrite (agree_all _ key n (localDepth bk + 1)) in Hsize; [|lia|done]. done.
Qed.

(** When room can be found for the key, [Insert] returns within 32 rounds
    of its loop. *)
Lemma Insert_fits_returns (s : @ExtendibleHash K V _ _) key value :
  wf s → fits key s → ∃ s', Insert 32 key value s = Some s'.
Proof.
  intros Hwf (bk' & Htgt & Hfits).
  destruct (wf_target s key Hwf) as (i & cur & bk & Hi & Hcur & Hbk & Hld & _).
  rewrite (target_Some s key i cur bk) // in Htgt. injection Htgt as <-.
  destruct (Insert_loop_fits 31 key value s i cur bk Hwf Hi Hcur Hbk) as [s' Hs'].
  { destruct Hfits as [Hin|(n & Hn & Hsize)]; [by left|].
    right. exists n. split_and!; [lia|lia|done|lia]. }
  exists s'. by rewrite /EH.Insert Hi /= Hcur.
Qed.

(** When [Insert] returns, room could be found for the key. *)
Lemma Insert_returns_fits fuel (s s' : @ExtendibleHash K V _ _) key value :
  wf s → Insert fuel key value s = Some s' → fits key s.
Proof.
  intros Hwf Hrun.
  destruct (wf_target s key Hwf) as (i & cur & bk & Hi & Hcur & Hbk & Hld & _).
  rewrite /EH.Insert Hi /= Hcur /= in Hrun.
  exists bk. split; [by apply (target_Some s key i cur bk)|].
  by eapply Insert_loop_returns.
Qed.

Lemma Insert_wf fuel key value (s s' : @ExtendibleHash K V _ _) :
  wf s → Insert fuel key value s = Some s' → wf s' ∧ bucketSize s' = bucketSize s.
Proof.
  intros Hwf Hrun. rewrite /EH.Insert in Hrun.
  destruct (getIdx key s) as [i|] eqn:Hi; [|done]. simpl in Hrun.
  destruct (buckets s !! i) as [cur|] eqn:Hcur; [|done]. simpl in Hrun.
  by eapply Insert_loop_wf.
Qed.

Lemma Insert_Find fuel key value w (s s' : @ExtendibleHash K V _ _) :
  Insert fuel key value s = Some s' → Find key w s' = Some (true, value).
Proof.
  intros Hrun. rewrite /EH.Insert in Hrun.
  destruct (getIdx key s) as [i|] eqn:Hi; [|done]. simpl in Hrun.
  destruct (buckets s !! i) as [cur|] eqn:Hcur; [|done]. simpl in Hrun.
  by eapply Insert_loop_Find.
Qed.

Lemma Remove_Find key w b (s s' : @ExtendibleHash K V _ _) :
  Remove key s = Some (b, s') → Find key w s' = Some (false, w).
Proof.
  rewrite /EH.Remove /EH.Find. intros Hrun.
  destruct (getIdx key s) as [i|] eqn:Hi; [|done]. simpl in Hrun.
  destruct (buckets s !! i) as [cur|] eqn:Hcur; [|done]. simpl in Hrun.
  destruct (store s !! cur) as [bk|] eqn:Hbk; [|done]. simpl in Hrun.
  destruct (kmap bk !! key) as [v|] eqn:Hk.
  - injection Hrun as <- <-.
    assert (getIdx key (mkEH (globalDepth s) (bucketSize s) (bucketNum s) (buckets s)
              (<[cur := mkBucket (localDepth bk) (delete key (kmap bk))]> (store s)))
            = Some i) as -> by done.
    rewrite /= Hcur /= list_lookup_insert_eq; [|by eapply lookup_lt_Some].
    by rewrite /= lookup_delete_eq.
  - injection Hrun as <- <-. by rewrite Hi /= Hcur /= Hbk /= Hk.
Qed.

Lemma Remove_wf key (s : @ExtendibleHash K V _ _) :
  wf s → ∃ b s', Remove key s = Some (b, s') ∧ wf s' ∧ bucketSize s' = bucketSize s.
Proof.
  intros Hwf.
  destruct (wf_target s key Hwf) as (i & cur & bk & Hi & Hcur & Hbk & _).
  rewrite /EH.Remove Hi /= Hcur /= Hbk /=.
  destruct (kmap bk !! key) as [v|] eqn:Hk; [|by eauto].
  do 2 eexists. split; [done|]. split; [|done].
  apply update_wf; [done..|]. intros k Hkk. left.
  destruct (decide (k = key)) as [->|Hne]; [by rewrite lookup_delete_eq in Hkk|].
  by rewrite lookup_delete_ne in Hkk.
Qed.

(** For a key stored in no bucket, [Find] returns false and hands back the
    output parameter as it was passed in. *)
Lemma Find_absent (s : @ExtendibleHash K V _ _) key value :
  wf s → absent key s → Find key value s = Some (false, value).
Proof.
  intros Hwf Habs.
  destruct (wf_target s key Hwf) as (i & cur & bk & Hi & Hcur & Hbk & _).
  rewrite /EH.Find Hi /= Hcur /= Hbk /= Habs //.
  by eapply list_elem_of_lookup_2.
Qed.

Lemma reachable_wf size (s : @ExtendibleHash K V _ _) :
  reachable size s → wf s ∧ bucketSize s = size.
Proof.
  induction 1 as [|s fuel key value s' _ [IHwf IHsz] Hrun
                  |s key b s' _ [IHwf IHsz] Hrun].
  - split; [apply wf_new|done].
  - destruct (Insert_wf _ _ _ _ _ IHwf Hrun). split; [done|congruence].
  - destruct (Remove_wf key s IHwf) as (b0 & s0 & Hrun0 & Hwf0 & Hsz0).
    assert (s0 = s') as -> by congruence. split; [done|congruence].
Qed.

(** In a well-formed index every [int] field is far from the bounds of
    [int]: the increments of [Insert] are exact. *)
Lemma wf_int_range (s : @ExtendibleHash K V _ _) :
  wf s →
  0 ≤ globalDepth s < 31 ∧ 0 < bucketNum s ≤ 2 ^ globalDepth s ∧
  ∀ b bk, store s !! b = Some bk → 0 ≤ localDepth bk ≤ globalDepth s.
Proof.
  intros [Hgd Hlen Hnum Href Hdir].
  pose proof (pow2_pos (globalDepth s) ltac:(lia)) as Hpos.
  split; [done|]. split.
  - rewrite Hnum. split.
    + destruct (lookup_lt_is_Some_2 (buckets s) 0%nat) as [b Hb]; [lia|].
      destruct (Hdir _ _ Hb) as (bk & Hbk%lookup_lt_Some & _). lia.
    + assert (length (seq 0 (length (store s))) ≤ length (buckets s))%nat as Hle.
      { apply submseteq_length, NoDup_submseteq; [apply NoDup_seq|].
        intros b Hb%elem_of_seq. destruct (Href b) as [i Hi]; [lia|].
        by eapply list_elem_of_lookup_2. }
      rewrite length_seq in Hle. lia.
  - intros b bk Hbk. destruct (Href b) as [i Hi]; [by eapply lookup_lt_Some|].
    destruct (Hdir _ _ Hi) as (bk' & Hbk' & Hld & _). by assert (bk' = bk) as -> by congruence.
Qed.

(** *** Counting the slots of a bucket *)

Lemma filter_ext_in {A} (P Q : A → Prop) `{!∀ x, Decision (P x), !∀ x, Decision (Q x)}
    (l : list A) :
  (∀ x, x ∈ l → P x ↔ Q x) → filter P l = filter Q l.
Proof.
  induction l as [|x l IH]; intros HPQ; [done|].
  rewrite !filter_cons. rewrite IH; [|intros y Hy; apply HPQ; set_solver].
  destruct (decide (P x)) as [HP|HP], (decide (Q x)) as [HQ|HQ]; try done.
  - exfalso. apply HQ, HPQ; [set_solver|done].
  - exfalso. apply HP, HPQ; [set_solver|done].
Qed.

(** Counting the occurrences of [b] is counting the positions that hold it. *)
Lemma count_positions (l : list nat) b :
  length (filter (λ x, x = b) l) =
  length (filter (λ j, l !! j = Some b) (seq 0 (length l))).
Proof.
  induction l as [|x l IH] using rev_ind; [done|].
  rewrite filter_app !length_app /= Nat.add_1_r seq_S filter_app length_app IH.
  f_equal.
  - f_equal. apply filter_ext_in. intros j Hj%elem_of_seq.
    rewrite lookup_app_l; [done|lia].
  - simpl. rewrite !filter_cons !filter_nil list_lookup_middle //.
    destruct (decide (x = b)) as [->|Hne].
    + by rewrite decide_True.
    + rewrite decide_False //. congruence.
Qed.

(** Among the [2 ^ g] slot numbers, [2 ^ (g - l)] have given low [l] bits. *)
Lemma count_residue g l r :
  0 ≤ l ≤ g → 0 ≤ r < 2 ^ l →
  Z.of_nat (length (filter (λ j, Z.of_nat j `mod` 2 ^ l = r)
                           (seq 0 (Z.to_nat (2 ^ g))))) = 2 ^ (g - l).
Proof.
  intros Hl Hr.
  pose proof (pow2_pos l ltac:(lia)) as Hpl.
  pose proof (pow2_pos (g - l) ltac:(lia)) as Hpgl.
  assert (2 ^ g = 2 ^ l * 2 ^ (g - l)) as Hg.
  { rewrite -Z.pow_add_r; [|lia..]. f_equal. lia. }
  set (f := λ t : nat, Z.to_nat (r + 2 ^ l * Z.of_nat t)).
  assert (filter (λ j, Z.of_nat j `mod` 2 ^ l = r) (seq 0 (Z.to_nat (2 ^ g)))
          ≡ₚ f <$> seq 0 (Z.to_nat (2 ^ (g - l)))) as ->.
  { apply NoDup_Permutation.
    - apply NoDup_filter, NoDup_seq.
    - apply NoDup_fmap_2_strong; [|apply NoDup_seq].
      intros t1 t2 _ _ Hf. unfold f in Hf. nia.
    - intros j. rewrite list_elem_of_filter elem_of_seq list_elem_of_fmap. split.
      + intros [Hmod Hj]. exists (Z.to_nat (Z.of_nat j `div` 2 ^ l)).
        pose proof (Z.div_mod (Z.of_nat j) (2 ^ l) ltac:(lia)) as Hdm.
        assert (0 ≤ Z.of_nat j `div` 2 ^ l) by (apply Z.div_pos; lia).
        split; [unfold f; lia|]. apply elem_of_seq.
        assert (Z.of_nat j `div` 2 ^ l < 2 ^ (g - l)); [|lia].
        apply Z.div_lt_upper_bound; lia.
      + intros (t & -> & Ht%elem_of_seq). unfold f.
        rewrite Z2Nat.id; [|nia]. split.
        * rewrite Z.mul_comm Z.mod_add; [|lia]. apply Z.mod_small. lia.
        * nia. }
  rewrite length_fmap length_seq. lia.
Qed.

Lemma num_slots_wf (s : @ExtendibleHash K V _ _) b bk :
  wf s → store s !! b = Some bk →
  localDepth bk ≤ globalDepth s ∧
  Z.of_nat (num_slots b s) = 2 ^ (globalDepth s - localDepth bk).
Proof.
  intros Hwf Hbk. pose proof Hwf as [Hgd Hlen Hnum Href Hdir].
  destruct (Href b) as [i Hi]; [by eapply lookup_lt_Some|].
  destruct (Hdir i b Hi) as (bk' & Hbk' & Hld & Hslots & _).
  assert (bk' = bk) as -> by congruence. split; [lia|].
  rewrite /num_slots count_positions.
  rewrite (filter_ext_in _ (λ j, Z.of_nat j `mod` 2 ^ localDepth bk =
                                 Z.of_nat i `mod` 2 ^ localDepth bk)).
  2:{ intros j Hj%elem_of_seq. apply Hslots. lia. }
  rewrite Hlen. apply count_residue; [lia|].
  apply Z.mod_pos_bound, pow2_pos. lia.
Qed.

(** C4: after every sequence of [Insert] (and [Remove]) calls on a new
    index, the directory has [2 ^ globalDepth] slots, and every bucket has a
    local depth of at most [globalDepth] and is referenced by
    [2 ^ (globalDepth - localDepth)] slots. *)
Theorem reachable_directory size (s : @ExtendibleHash K V _ _) :
  reachable size s →
  Z.of_nat (length (buckets s)) = 2 ^ globalDepth s ∧
  ∀ b bk, store s !! b = Some bk →
    localDepth bk ≤ globalDepth s ∧
    Z.of_nat (num_slots b s) = 2 ^ (globalDepth s - localDepth bk).
Proof.
  intros [Hwf _]%reachable_wf. split.
  - destruct Hwf as [Hgd Hlen _ _ _]. rewrite Hlen.
    pose proof (pow2_pos (globalDepth s) ltac:(lia)). lia.
  - intros b bk Hbk. by apply num_slots_wf.
Qed.

(** C3 (amended): in every reachable state of the index, [Insert] returns
    exactly when the key is in its bucket already or, for some depth [n]
    below the 31 bits of an [int], fewer than [bucketSize] entries of the
    bucket agree with the key's hash on the low [n] bits; it then returns
    within 32 rounds of its loop.  A bucket full of entries whose hashes are
    those of the key is split again and again and the call never returns. *)
Theorem Insert_returns_iff_fits size (s : @ExtendibleHash K V _ _) key value :
  reachable size s →
  ((∃ fuel s', Insert fuel key value s = Some s') ↔ fits key s) ∧
  (fits key s → ∃ s', Insert 32 key value s = Some s') ∧
  (¬ fits key s → ∀ fuel, Insert fuel key value s = None).
Proof.
  intros [Hwf _]%reachable_wf. split_and!.
  - split.
    + intros (fuel & s' & Hrun). by eapply Insert_returns_fits.
    + intros Hfits. destruct (Insert_fits_returns s key value Hwf Hfits) as [s' Hs'].
      by exists 32%nat, s'.
  - by apply Insert_fits_returns.
  - intros Hno fuel. destruct (Insert fuel key value s) as [s'|] eqn:Hrun; [|done].
    exfalso. apply Hno. by eapply Insert_returns_fits.
Qed.




End eh_facts.

(** ** The buffer pool manager *)

Section bpm_facts.
Import BPM.
Context {Data : Type}.
Variable zeroed : Data.
Variable INVALID_PAGE_ID : Z.
Variable BUCKET_SIZE : nat.
Variable HashKey : Z → Z.
Variable disk_alloc : list (@DiskCall Data) → Z.
Variable disk_read : list (@DiskCall Data) → Z → Data.

Local Abbreviation BufferPoolManager := (@BufferPoolManager Data).
Local Abbreviation FetchPage := (FetchPage INVALID_PAGE_ID HashKey disk_read).
Local Abbreviation NewPage := (NewPage zeroed INVALID_PAGE_ID HashKey disk_alloc).
Local Abbreviation UnpinPage := (UnpinPage HashKey).
Local Abbreviation FlushPage := (FlushPage INVALID_PAGE_ID HashKey).
Local Abbreviation DeletePage := (DeletePage zeroed HashKey).
Local Abbreviation GetVictimPage := (GetVictimPage INVALID_PAGE_ID).
Local Abbreviation resident := (resident HashKey).


(** An unpin of a resident page whose pin count is positive returns true
    and sets the dirty flag of the frame to the flag passed in, whatever
    the flag was; the pin count drops by one and the frame goes to the
    front of the replacer when it reaches zero. *)
Lemma UnpinPage_overwrites_dirty (s : BufferPoolManager) page_id is_dirty f pg :
  resident page_id f s → pages_ s !! f = Some pg →
  0 < pin_count_ pg → LRU.valid None (replacer_ s) →
  ∃ s', UnpinPage page_id is_dirty s = Some (true, s') ∧
    pages_ s' = <[f := mkPage (data_ pg) (page_id_ pg) (pin_count_ pg - 1) is_dirty]> (pages_ s) ∧
    is_dirty_ <$> pages_ s' !! f = Some is_dirty ∧
    LRU.valid None (replacer_ s') ∧
    (pin_count_ pg = 1 →
       LRU.contents (replacer_ s') =
         Some f :: filter (λ x, x ≠ Some f) (LRU.contents (replacer_ s))) ∧
    (pin_count_ pg ≠ 1 → replacer_ s' = replacer_ s) ∧
    page_table_ s' = page_table_ s ∧
    free_list_ s' = free_list_ s ∧
    disk_manager_ s' = disk_manager_ s.
Proof.
  intros Hres Hpg Hpin [l Hmod]. rewrite /BPM.resident in Hres.
  assert (f < length (pages_ s))%nat as Hf by by eapply lookup_lt_Some.
  destruct (Insert_model None (replacer_ s) l (Some f) Hmod) as (r & Hins & Hmod').
  rewrite /BPM.UnpinPage Hres /= Hpg /=.
  rewrite decide_False; [|lia]. rewrite list_lookup_insert_eq //=.
  rewrite list_insert_insert_eq.
  destruct (decide (pin_count_ pg - 1 = 0)) as [Hz|Hnz].
  - rewrite Hins /=. eexists. split; [done|]. simpl.
    rewrite list_lookup_insert_eq // (model_contents None _ _ Hmod).
    split_and!; try done.
    + by eexists.
    + intros _. by apply (model_contents None).
    + lia.
  - eexists. split; [done|]. simpl.
    rewrite list_lookup_insert_eq //. split_and!; try done.
    + by exists l.
    + lia.
Qed.

Lemma GetVictimPage_frame (s s1 : BufferPoolManager) tar :
  GetVictimPage s = Some (tar, s1) →
  pages_ s1 = pages_ s ∧ disk_manager_ s1 = disk_manager_ s.
Proof.
  rewrite /BPM.GetVictimPage. intros Hrun.
  destruct (free_list_ s) as [|tar' rest].
  - case_decide; [by injection Hrun as <- <-|].
    destruct (LRU.Victim _ _) as [[[? tar'] r]|]; [|done]. simpl in Hrun.
    destruct (deref tar' s) as [pg|]; [|done]. simpl in Hrun.
    case_decide; [|done]. by injection Hrun as <- <-.
  - destruct (deref tar' s) as [pg|]; [|done]. simpl in Hrun.
    repeat (case_decide; [|done]). by injection Hrun as <- <-.
Qed.

(** What [NewPage] tells the disk manager when it reuses a frame: the
    allocation, then a write-back of the frame exactly when its dirty flag
    is set. *)
Lemma NewPage_write_back (s s' : BufferPoolManager) fuel page_id page_id' f pg :
  pages_ s !! f = Some pg →
  NewPage fuel page_id s = Some (Some f, page_id', s') →
  disk_manager_ s' =
    disk_manager_ s ++ AllocatePage ::
      (if is_dirty_ pg then [WritePage (page_id_ pg) (data_ pg)] else []).
Proof.
  intros Hpg. rewrite /BPM.NewPage.
  destruct (GetVictimPage s) as [[tar s1]|] eqn:Hvic; [|done].
  destruct (GetVictimPage_frame _ _ _ Hvic) as [Hpages Hdisk].
  rewrite -Hpages in Hpg. rewrite -Hdisk. simpl.
  destruct tar as [f'|]; [|done]. simpl.
  destruct (pages_ s1 !! f') as [pg'|] eqn:Hpg'; [|done]. simpl.
  destruct (is_dirty_ pg') eqn:Hdirty; simpl.
  all: destruct (EH.Remove _ _ _) as [[? pt]|]; [|done]; simpl.
  all: destruct (EH.Insert _ _ _ _ _) as [pt'|]; [|done]; simpl.
  all: rewrite Hpg' /=; intros [= -> _ <-]; simpl.
  all: assert (pg' = pg) as -> by congruence; rewrite Hdirty.
  - by rewrite -assoc.
  - done.
Qed.

(** C8: an unpin of a resident page whose pin count is not positive returns
    false, and the state it leaves differs from the one it found: the dirty
    flag of the frame is the flag passed in.  The change shows later: when
    [NewPage] reuses the frame, it writes the old page back exactly when
    that flag was true. *)
Theorem UnpinPage_unpinned_sets_dirty (s : BufferPoolManager) page_id is_dirty f pg :
  resident page_id f s → pages_ s !! f = Some pg → pin_count_ pg ≤ 0 →
  ∃ s', UnpinPage page_id is_dirty s = Some (false, s') ∧
    s' = set_pages (<[f := mkPage (data_ pg) (page_id_ pg) (pin_count_ pg) is_dirty]>
                      (pages_ s)) s ∧
    is_dirty_ <$> pages_ s' !! f = Some is_dirty ∧
    ∀ fuel q q' s'',
      NewPage fuel q s' = Some (Some f, q', s'') →
      disk_manager_ s'' =
        disk_manager_ s ++ AllocatePage ::
          (if is_dirty then [WritePage (page_id_ pg) (data_ pg)] else []).
Proof.
  intros Hres Hpg Hpin. rewrite /BPM.resident in Hres.
  assert (f < length (pages_ s))%nat as Hf by by eapply lookup_lt_Some.
  eexists. split_and!; [|reflexivity| |].
  - rewrite /BPM.UnpinPage Hres /= Hpg /=. by rewrite decide_True.
  - by rewrite /= list_lookup_insert_eq.
  - intros fuel q q' s'' Hnew.
    eapply NewPage_write_back in Hnew; [|by apply list_lookup_insert_eq].
    exact Hnew.
Qed.

(** C9: with an empty free list and an empty replacer, [NewPage] returns the
    null pointer, leaves the page id parameter and the whole state as they
    were, and so makes no call on the disk manager. *)
Theorem NewPage_exhausted (s : BufferPoolManager) fuel page_id :
  free_list_ s = [] → LRU.Size (replacer_ s) = 0%nat →
  NewPage fuel page_id s = Some (None, page_id, s).
Proof.
  intros Hfree Hsize. by rewrite /BPM.NewPage /BPM.GetVictimPage Hfree decide_True.
Qed.

Lemma UnpinPage_not_resident (s : BufferPoolManager) page_id is_dirty :
  EH.wf HashKey (page_table_ s) → EH.absent page_id (page_table_ s) →
  UnpinPage page_id is_dirty s = Some (false, s).
Proof.
  intros Hwf Habs. by rewrite /BPM.UnpinPage (Find_absent HashKey _ _ None Hwf Habs).
Qed.

Lemma FlushPage_not_resident (s : BufferPoolManager) page_id :
  EH.wf HashKey (page_table_ s) → EH.absent page_id (page_table_ s) →
  FlushPage page_id s = Some (false, s).
Proof.
  intros Hwf Habs. by rewrite /BPM.FlushPage (Find_absent HashKey _ _ None Hwf Habs).
Qed.

Section index.
Context {K V : Type} `{!EqDecision K, !Countable K}.
Variable hashK : K → Z.

(** C10: for a key stored in no bucket of a reachable index, [Find] returns
    false and hands back the output parameter as it was passed in; and
    [UnpinPage], which passes the null pointer to [Find] and tests the
    pointer afterwards, returns false without touching the state when the
    page table does not hold the page id. *)
Theorem Find_absent_output_unchanged size (t : @EH.ExtendibleHash K V _ _) key value
    size' (s : BufferPoolManager) page_id is_dirty :
  EH.reachable hashK size t → EH.absent key t →
  EH.reachable HashKey size' (page_table_ s) → EH.absent page_id (page_table_ s) →
  EH.Find hashK key value t = Some (false, value) ∧
  EH.Find HashKey page_id None (page_table_ s) = Some (false, None) ∧
  UnpinPage page_id is_dirty s = Some (false, s).
Proof.
  intros [Hwf _]%reachable_wf Habs [Hwf' _]%reachable_wf Habs'. split_and!.
  - by apply Find_absent.
  - by apply Find_absent.
  - by apply UnpinPage_not_resident.
Qed.

End index.

End bpm_facts.

(** ** The theorems at concrete states *)

Section concrete.
Import Demo.

Lemma reachable_eh_collide : EH.reachable hash_const 2 eh_collide.
Proof.
  apply (EH.reach_Insert _ _
           (default (EH.ExtendibleHash_new 2)
                    (EH.Insert hash_const 1 1 10 (EH.ExtendibleHash_new 2)))
           1%nat 2 20); [|by vm_compute].
  apply (EH.reach_Insert _ _ (EH.ExtendibleHash_new 2) 1%nat 1 10); [|by vm_compute].
  apply EH.reach_new.
Defined.

Lemma reachable_eh_three : EH.reachable hash_int 2 eh_three.
Proof.
  apply (EH.reach_Insert _ _ eh_two 3%nat 4 40); [|by vm_compute].
  apply (EH.reach_Insert _ _
           (default (EH.ExtendibleHash_new 2)
                    (EH.Insert hash_int 1 0 10 (EH.ExtendibleHash_new 2)))
           1%nat 2 20); [|by vm_compute].
  apply (EH.reach_Insert _ _ (EH.ExtendibleHash_new 2) 1%nat 0 10); [|by vm_compute].
  apply EH.reach_new.
Defined.

Lemma reachable_page_table_bpm1 : EH.reachable hash_int 2 (BPM.page_table_ bpm1).
Proof.
  apply (EH.reach_Insert _ _ (EH.ExtendibleHash_new 2) 1%nat 0 (Some 0%nat));
    [|by vm_compute].
  apply EH.reach_new.
Defined.


(** C3, counterexample: with buckets of two entries and a hash that sends
    the keys 1, 2 and 3 to the same value, the inserts of 1 and 2 return
    and the insert of 3 returns for no amount of fuel; and with buckets of
    no entry the first insert never returns either, whatever the hash. *)
Lemma Insert_identical_hashes_never_returns :
  EH.reachable hash_const 2 eh_collide ∧
  (∀ fuel, EH.Insert hash_const fuel 3 30 eh_collide = None) ∧
  (∀ fuel, EH.Insert hash_int fuel 1 10 (EH.ExtendibleHash_new (V := Z) 0) = None).
Proof.
  split; [exact reachable_eh_collide|]. split.
  - intros fuel.
    destruct (EH.Insert hash_const fuel 3 30 eh_collide) as [s'|] eqn:Hrun; [|done].
    exfalso.
    destruct (reachable_wf _ _ _ reachable_eh_collide) as [Hwf _].
    assert (EH.fits hash_const 3 eh_collide) as (bk & Htgt & Hfits).
    { by eapply (Insert_returns_fits hash_const fuel eh_collide s' 3 30 Hwf). }
    vm_compute in Htgt. injection Htgt as <-.
    destruct Hfits as [[v Hv]|(n & Hn & Hsize)]; [by vm_compute in Hv|].
    rewrite /EH.agree map_filter_id in Hsize; [|done].
    vm_compute in Hsize. lia.
  - intros fuel.
    destruct (EH.Insert hash_int fuel 1 10 (EH.ExtendibleHash_new 0)) as [s'|] eqn:Hrun; [|done].
    exfalso.
    assert (EH.fits hash_int 1 (EH.ExtendibleHash_new (V := Z) 0)) as (bk & Htgt & Hfits).
    { by eapply (Insert_returns_fits hash_int fuel _ s' 1 10 (wf_new hash_int 0)). }
    vm_compute in Htgt. injection Htgt as <-.
    destruct Hfits as [[v Hv]|(n & Hn & Hsize)]; [by vm_compute in Hv|].
    simpl in Hsize. lia.
Qed.

Lemma Insert_returns_iff_fits_witness :
  EH.reachable hash_int 2 eh_three ∧
  ((∃ fuel s', EH.Insert hash_int fuel 6 60 eh_three = Some s') ↔
   EH.fits hash_int 6 eh_three) ∧
  (EH.fits hash_int 6 eh_three →
   ∃ s', EH.Insert hash_int 32 6 60 eh_three = Some s') ∧
  (¬ EH.fits hash_int 6 eh_three →
   ∀ fuel, EH.Insert hash_int fuel 6 60 eh_three = None).
Proof.
  split; [exact reachable_eh_three|].
  exact (Insert_returns_iff_fits hash_int 2 eh_three 6 60 reachable_eh_three).
Defined.

Lemma reachable_directory_witness :
  EH.reachable hash_int 2 eh_three ∧
  Z.of_nat (length (EH.buckets eh_three)) = 2 ^ EH.globalDepth eh_three ∧
  ∀ b bk, EH.store eh_three !! b = Some bk →
    EH.localDepth bk ≤ EH.globalDepth eh_three ∧
    Z.of_nat (EH.num_slots b eh_three) = 2 ^ (EH.globalDepth eh_three - EH.localDepth bk).
Proof.
  split; [exact reachable_eh_three|].
  exact (reachable_directory hash_int 2 eh_three reachable_eh_three).
Defined.

Lemma absent_bpm0 : EH.absent 7 (BPM.page_table_ bpm0).
Proof. intros bk ->%list_elem_of_singleton. done. Qed.

Lemma absent_eh_three : EH.absent 6 eh_three.
Proof.
  intros bk Hbk. rewrite /eh_three /= in Hbk.
  apply elem_of_cons in Hbk as [->|Hbk]; [done|].
  apply elem_of_cons in Hbk as [->|Hbk]; [done|].
  by apply list_elem_of_singleton in Hbk as ->.
Qed.

(** C1, the failing input: page 0 sits in frame 0, pinned once and dirty;
    an unpin that passes false returns true and leaves the frame clean,
    where the OR of the two flags is true. *)
Lemma UnpinPage_false_clears_dirty :
  BPM.resident hash_int 0 0 bpm3 ∧
  BPM.pin_count_ <$> BPM.pages_ bpm3 !! 0%nat = Some 1 ∧
  BPM.is_dirty_ <$> BPM.pages_ bpm3 !! 0%nat = Some true ∧
  fst <$> BPM.UnpinPage hash_int 0 false bpm3 = Some true ∧
  (BPM.UnpinPage hash_int 0 false bpm3
     ≫= λ r, BPM.is_dirty_ <$> BPM.pages_ r.2 !! 0%nat) = Some false ∧
  Some false ≠ Some (true || false).
Proof. by vm_compute. Qed.

(** C2, counterexample: no page was ever created, page 7 is not in the page
    table, and [DeletePage(7)] returns true. *)
Lemma DeletePage_absent_returns_true :
  EH.absent 7 (BPM.page_table_ bpm0) ∧
  BPM.DeletePage 0 hash_int 7 bpm0 =
    Some (true, BPM.disk_call (BPM.DeallocatePage 7) bpm0) ∧
  fst <$> BPM.DeletePage 0 hash_int 7 bpm0 ≠ Some false.
Proof. split; [exact absent_bpm0|]. by vm_compute. Qed.


Lemma UnpinPage_unpinned_sets_dirty_witness :
  BPM.resident hash_int 0 0 bpm2 ∧
  ∃ s', BPM.UnpinPage hash_int 0 true bpm2 = Some (false, s') ∧
    s' = BPM.set_pages (<[0%nat := BPM.mkPage 0 0 0 true]> (BPM.pages_ bpm2)) bpm2 ∧
    BPM.is_dirty_ <$> BPM.pages_ s' !! 0%nat = Some true ∧
    ∀ fuel q q' s'',
      BPM.NewPage 0 (-1) hash_int alloc fuel q s' = Some (Some 0%nat, q', s'') →
      BPM.disk_manager_ s'' =
        BPM.disk_manager_ bpm2 ++ [BPM.AllocatePage; BPM.WritePage 0 0].
Proof.
  split; [by vm_compute|].
  apply (UnpinPage_unpinned_sets_dirty 0 (-1) hash_int alloc bpm2 0 true 0%nat
           (BPM.mkPage 0 0 0 false)).
  - by vm_compute.
  - reflexivity.
  - simpl. lia.
Defined.

Lemma NewPage_exhausted_witness :
  BPM.free_list_ bpm1 = [] ∧ LRU.Size (BPM.replacer_ bpm1) = 0%nat ∧
  BPM.NewPage 0 (-1) hash_int alloc 1 5 bpm1 = Some (None, 5, bpm1).
Proof.
  split; [reflexivity|]. split; [reflexivity|].
  apply (NewPage_exhausted 0 (-1) hash_int alloc bpm1 1 5); reflexivity.
Defined.

Lemma Find_absent_output_unchanged_witness :
  EH.reachable hash_int 2 eh_three ∧ EH.absent 6 eh_three ∧
  EH.Find hash_int 6 99 eh_three = Some (false, 99) ∧
  EH.Find hash_int 7 None (BPM.page_table_ bpm0) = Some (false, None) ∧
  BPM.UnpinPage hash_int 7 true bpm0 = Some (false, bpm0).
Proof.
  split; [exact reachable_eh_three|]. split; [exact absent_eh_three|].
  apply (Find_absent_output_unchanged hash_int hash_int 2 eh_three 6 99 2 bpm0 7 true).
  - exact reachable_eh_three.
  - exact absent_eh_three.
  - apply EH.reach_new.
  - exact absent_bpm0.
Defined.

End concrete.

(** ** More on the extendible hash *)

Section eh_more.
Import EH.
Context {K V : Type} `{!EqDecision K, !Countable K}.
Variable HashKey : K → Z.

Local Abbreviation wf := (wf HashKey).
Local Abbreviation getIdx := (getIdx HashKey).
Local Abbreviation split := (split HashKey).
Local Abbreviation target := (target HashKey).
Local Abbreviation agree := (agree HashKey).
Local Abbreviation Insert_loop := (Insert_loop HashKey).
Local Abbreviation Insert := (Insert HashKey).
Local Abbreviation Find := (Find HashKey).
Local Abbreviation Remove := (Remove HashKey).
Local Abbreviation fits := (fits HashKey).
Local Abbreviation reachable := (reachable HashKey).

(** An entry of any bucket is in the bucket its key's slot references. *)
Lemma stored_target (s : @ExtendibleHash K V _ _) key value :
  wf s → stored key value s →
  ∃ bk, target key s = Some bk ∧ kmap bk !! key = Some value.
Proof.
  intros Hwf (b & bk & Hbk & Hk).
  destruct (wf_ref _ _ Hwf b) as [i Hi]; [by eapply lookup_lt_Some|].
  destruct (wf_dir _ _ Hwf i b Hi) as (bk' & Hbk' & Hld & Hslots & Hkeys).
  assert (bk' = bk) as -> by congruence.
  destruct (wf_index _ s key Hwf) as (ik & Hik & Hlt & HikZ).
  exists bk. split; [|done].
  apply (target_Some _ s key ik b bk); [done| |done].
  apply (Hslots ik Hlt). rewrite HikZ mod_pow2_mod; [|lia].
  apply Hkeys. eauto.
Qed.

Lemma Find_stored (s : @ExtendibleHash K V _ _) key value w :
  wf s → stored key value s → Find key w s = Some (true, value).
Proof.
  intros Hwf Hst. destruct (stored_target s key value Hwf Hst) as (bk & Htgt & Hk).
  rewrite /EH.target in Htgt. rewrite /EH.Find.
  destruct (EH.getIdx HashKey key s) as [i|]; [|done]. simpl in *.
  destruct (buckets s !! i) as [b|]; [|done]. simpl in *.
  by rewrite Htgt /= Hk.
Qed.

Lemma not_stored_absent (s : @ExtendibleHash K V _ _) key :
  (∀ v, ¬ stored key v s) ↔ absent key s.
Proof.
  split.
  - intros Hno bk [b Hb]%list_elem_of_lookup.
    destruct (kmap bk !! key) as [v|] eqn:Hk; [|done].
    exfalso. apply (Hno v). by exists b, bk.
  - intros Habs v (b & bk & Hb & Hk). rewrite Habs in Hk; [done|].
    by eapply list_elem_of_lookup_2.
Qed.

(** On a well-formed index [Find] is defined, and it tells the stored keys
    from the absent ones. *)
Lemma Find_cases (s : @ExtendibleHash K V _ _) key w :
  wf s →
  (∃ v, stored key v s ∧ Find key w s = Some (true, v)) ∨
  (absent key s ∧ Find key w s = Some (false, w)).
Proof.
  intros Hwf.
  destruct (wf_target _ s key Hwf) as (i & cur & bk & Hi & Hcur & Hbk & _).
  destruct (kmap bk !! key) as [v|] eqn:Hk.
  - left. exists v. assert (stored key v s) as Hst by by exists cur, bk.
    split; [done|]. by apply Find_stored.
  - right. assert (absent key s) as Habs.
    { apply not_stored_absent. intros v Hst.
      destruct (stored_target s key v Hwf Hst) as (bk' & Htgt & Hk').
      rewrite (target_Some _ s key i cur bk) // in Htgt. congruence. }
    split; [done|]. by apply Find_absent.
Qed.

Lemma Find_true_stored (s : @ExtendibleHash K V _ _) key w v :
  wf s → Find key w s = Some (true, v) → stored key v s.
Proof.
  intros Hwf Hfind.
  destruct (Find_cases s key w Hwf) as [(v' & Hst & Hf)|[Habs Hf]]; congruence.
Qed.

Lemma Find_false_absent (s : @ExtendibleHash K V _ _) key w x :
  wf s → Find key w s = Some (false, x) → absent key s ∧ x = w.
Proof.
  intros Hwf Hfind.
  destruct (Find_cases s key w Hwf) as [(v' & Hst & Hf)|[Habs Hf]]; [congruence|].
  split; [done|congruence].
Qed.

Lemma stored_unique (s : @ExtendibleHash K V _ _) key v v' :
  wf s → stored key v s → stored key v' s → v = v'.
Proof.
  intros Hwf Hv Hv'.
  pose proof (Find_stored s key v v Hwf Hv) as H1.
  pose proof (Find_stored s key v' v Hwf Hv') as H2. congruence.
Qed.

(** The entries of the store after one bucket is replaced. *)
Lemma stored_update (s : @ExtendibleHash K V _ _) cur bk bk' gd sz num dir key value :
  store s !! cur = Some bk →
  stored key value (mkEH gd sz num dir (<[cur := bk']> (store s))) ↔
  kmap bk' !! key = Some value ∨
  ∃ b bk0, b ≠ cur ∧ store s !! b = Some bk0 ∧ kmap bk0 !! key = Some value.
Proof.
  intros Hcur. pose proof (lookup_lt_Some _ _ _ Hcur) as Hlt.
  rewrite /EH.stored /=. split.
  - intros (b & bk0 & Hb & Hk). destruct (decide (b = cur)) as [->|Hne].
    + rewrite list_lookup_insert_eq // in Hb. injection Hb as <-. by left.
    + rewrite list_lookup_insert_ne // in Hb. right. by exists b, bk0.
  - intros [Hk|(b & bk0 & Hne & Hb & Hk)].
    + exists cur, bk'. by rewrite list_lookup_insert_eq.
    + exists b, bk0. by rewrite list_lookup_insert_ne.
Qed.

Lemma stored_cases (s : @ExtendibleHash K V _ _) cur bk key value :
  store s !! cur = Some bk →
  stored key value s ↔
  kmap bk !! key = Some value ∨
  ∃ b bk0, b ≠ cur ∧ store s !! b = Some bk0 ∧ kmap bk0 !! key = Some value.
Proof.
  intros Hcur. rewrite /EH.stored. split.
  - intros (b & bk0 & Hb & Hk). destruct (decide (b = cur)) as [->|Hne].
    + left. congruence.
    + right. by exists b, bk0.
  - intros [Hk|(b & bk0 & Hne & Hb & Hk)]; eauto.
Qed.

(** The store after a split. *)
Lemma split_store (s s1 : @ExtendibleHash K V _ _) cur bk :
  split cur bk s = Some s1 →
  ∃ mask,
    store s1 =
      <[cur := mkBucket (localDepth bk + 1)
                 (filter (λ kv, Z.land (HashKey kv.1) mask = 0) (kmap bk))]> (store s)
      ++ [mkBucket (localDepth bk + 1)
            (filter (λ kv, Z.land (HashKey kv.1) mask ≠ 0) (kmap bk))] ∧
    bucketNum s1 = bucketNum s + 1 ∧
    bucketSize s1 = bucketSize s ∧
    globalDepth s ≤ globalDepth s1 ≤ globalDepth s + 1.
Proof.
  rewrite /EH.split. intros Hsplit.
  destruct (decide (localDepth bk + 1 > globalDepth s)).
  all: destruct (shl1 (localDepth bk + 1 - 1)) as [mask|]; [|done].
  all: simpl in Hsplit; injection Hsplit as <-; exists mask; simpl.
  all: split_and!; try done; lia.
Qed.

(** A split moves entries between two buckets and loses none. *)
Lemma split_stored (s s1 : @ExtendibleHash K V _ _) cur bk key value :
  store s !! cur = Some bk → split cur bk s = Some s1 →
  stored key value s1 ↔ stored key value s.
Proof.
  intros Hcur Hsplit. pose proof (lookup_lt_Some _ _ _ Hcur) as Hlt.
  destruct (split_store s s1 cur bk Hsplit) as (mask & Hst & _).
  rewrite (stored_cases s cur bk) //. rewrite /EH.stored Hst. split.
  - intros (b & bk0 & Hb & Hk).
    destruct (decide (b < length (store s))%nat) as [Hin|Hout].
    + rewrite lookup_app_l ?length_insert // in Hb.
      destruct (decide (b = cur)) as [->|Hne].
      * rewrite list_lookup_insert_eq // in Hb. injection Hb as <-.
        apply map_lookup_filter_Some in Hk as [Hk _]. by left.
      * rewrite list_lookup_insert_ne // in Hb. right. by exists b, bk0.
    + rewrite lookup_app_r ?length_insert in Hb; [|lia].
      apply list_lookup_singleton_Some in Hb as [_ <-].
      apply map_lookup_filter_Some in Hk as [Hk _]. by left.
  - intros [Hk|(b & bk0 & Hne & Hb & Hk)].
    + destruct (decide (Z.land (HashKey key) mask = 0)) as [Hz|Hnz].
      * exists cur. eexists. split.
        { rewrite lookup_app_l ?length_insert //. by apply list_lookup_insert_eq. }
        simpl. by apply map_lookup_filter_Some.
      * exists (length (store s)). eexists. split.
        { rewrite lookup_app_r ?length_insert //. by rewrite Nat.sub_diag. }
        simpl. by apply map_lookup_filter_Some.
    + exists b, bk0. split; [|done].
      rewrite lookup_app_l ?length_insert; [|by eapply lookup_lt_Some].
      by rewrite list_lookup_insert_ne.
Qed.

(** [Insert] keeps every entry of another key, and adds none. *)
Lemma Insert_loop_stored fuel key value key' value' :
  ∀ (s : @ExtendibleHash K V _ _) i cur s',
    wf s → getIdx key s = Some i → buckets s !! i = Some cur →
    Insert_loop fuel key value cur s = Some s' → key' ≠ key →
    stored key' value' s' ↔ stored key' value' s.
Proof.
  induction fuel as [|fuel IH]; intros s i cur s' Hwf Hi Hcur Hrun Hne; [done|].
  destruct (wf_target _ s key Hwf) as (i' & cur' & bk & Hi' & Hcur' & Hbk & _).
  assert (i' = i) as -> by congruence. assert (cur' = cur) as -> by congruence.
  destruct (decide ((size (kmap bk) < bucketSize s)%nat ∨ is_Some (kmap bk !! key)))
    as [Hroom|Hfull].
  - rewrite (Insert_loop_room _ _ _ _ _ _ bk) // in Hrun. injection Hrun as <-.
    rewrite (stored_update s cur bk) // (stored_cases s cur bk) //=.
    by rewrite lookup_insert_ne.
  - rewrite (Insert_loop_full _ _ _ _ _ _ bk) // in Hrun.
    destruct (split_spec _ s i cur bk Hwf Hcur Hbk) as (s1 & Hsplit & Hgd1 & Hbs1 & Hnext).
    rewrite Hsplit /= in Hrun.
    destruct (getIdx key s1) as [i1|] eqn:Hi1; [|done]. simpl in Hrun.
    destruct (buckets s1 !! i1) as [c1|] eqn:Hc1; [|done]. simpl in Hrun.
    pose proof Hi1 as [Hlt1 _]%getIdx_Some.
    destruct (Hnext ltac:(lia)) as [Hwf1 _].
    rewrite (IH s1 i1 c1 s' Hwf1 Hi1 Hc1 Hrun Hne).
    by apply (split_stored s s1 cur bk).
Qed.

Lemma Insert_stored fuel key value key' value' (s s' : @ExtendibleHash K V _ _) :
  wf s → Insert fuel key value s = Some s' → key' ≠ key →
  stored key' value' s' ↔ stored key' value' s.
Proof.
  intros Hwf Hrun Hne. rewrite /EH.Insert in Hrun.
  destruct (getIdx key s) as [i|] eqn:Hi; [|done]. simpl in Hrun.
  destruct (buckets s !! i) as [cur|] eqn:Hcur; [|done]. simpl in Hrun.
  by eapply Insert_loop_stored.
Qed.

(** On a well-formed index the result of [Find] is a function of the stored
    entries of the key. *)
Lemma Find_ext (s s' : @ExtendibleHash K V _ _) key w :
  wf s → wf s' → (∀ v, stored key v s' ↔ stored key v s) →
  Find key w s' = Find key w s.
Proof.
  intros Hwf Hwf' Hsame.
  destruct (Find_cases s key w Hwf) as [(v & Hst & ->)|[Habs ->]].
  - apply Find_stored; [done|]. by apply Hsame.
  - apply Find_absent; [done|]. apply not_stored_absent. intros v Hv%Hsame.
    by apply not_stored_absent in Hv.
Qed.

Lemma Insert_Find_other fuel key value key' w (s s' : @ExtendibleHash K V _ _) :
  wf s → Insert fuel key value s = Some s' → key' ≠ key →
  Find key' w s' = Find key' w s.
Proof.
  intros Hwf Hrun Hne. destruct (Insert_wf _ _ _ _ _ _ Hwf Hrun) as [Hwf' _].
  apply Find_ext; [done..|]. intros v. by eapply Insert_stored.
Qed.

Lemma Remove_stored key key' value' b (s s' : @ExtendibleHash K V _ _) :
  Remove key s = Some (b, s') → key' ≠ key →
  stored key' value' s' ↔ stored key' value' s.
Proof.
  intros Hrun Hne. rewrite /EH.Remove in Hrun.
  destruct (getIdx key s) as [i|] eqn:Hi; [|done]. simpl in Hrun.
  destruct (buckets s !! i) as [cur|] eqn:Hcur; [|done]. simpl in Hrun.
  destruct (store s !! cur) as [bk|] eqn:Hbk; [|done]. simpl in Hrun.
  destruct (kmap bk !! key) as [v|] eqn:Hk; injection Hrun as <- <-; [|done].
  rewrite (stored_update s cur bk) // (stored_cases s cur bk) //=.
  by rewrite lookup_delete_ne.
Qed.

(** [Remove] returns what [Find] would have answered. *)
Lemma Remove_fst_Find key w b (s s' : @ExtendibleHash K V _ _) :
  Remove key s = Some (b, s') → fst <$> Find key w s = Some b.
Proof.
  rewrite /EH.Remove /EH.Find. intros Hrun.
  destruct (EH.getIdx HashKey key s) as [i|]; [|done]. simpl in *.
  destruct (buckets s !! i) as [cur|]; [|done]. simpl in *.
  destruct (store s !! cur) as [bk|]; [|done]. simpl in *.
  destruct (kmap bk !! key); by simplify_eq.
Qed.

Lemma Remove_Find_other key key' w b (s s' : @ExtendibleHash K V _ _) :
  wf s → Remove key s = Some (b, s') → key' ≠ key →
  Find key' w s' = Find key' w s.
Proof.
  intros Hwf Hrun Hne.
  destruct (Remove_wf _ key s Hwf) as (b0 & s0 & Hrun0 & Hwf0 & _).
  assert (s0 = s') as -> by congruence.
  apply Find_ext; [done..|]. intros v. by eapply Remove_stored.
Qed.

(** An entry of a bucket is reached through the slot of its key. *)
Lemma stored_slot (s : @ExtendibleHash K V _ _) key b bk :
  wf s → store s !! b = Some bk → is_Some (kmap bk !! key) →
  ∃ i, getIdx key s = Some i ∧ buckets s !! i = Some b.
Proof.
  intros Hwf Hbk Hk.
  destruct (wf_ref _ _ Hwf b) as [i Hi]; [by eapply lookup_lt_Some|].
  destruct (wf_dir _ _ Hwf i b Hi) as (bk' & Hbk' & Hld & Hslots & Hkeys).
  assert (bk' = bk) as -> by congruence.
  destruct (wf_index _ s key Hwf) as (ik & Hik & Hlt & HikZ).
  exists ik. split; [done|].
  apply (Hslots ik Hlt). rewrite HikZ mod_pow2_mod; [|lia]. by apply Hkeys.
Qed.

Lemma Insert_loop_capped fuel key value :
  ∀ (s : @ExtendibleHash K V _ _) cur s',
    capped s → Insert_loop fuel key value cur s = Some s' → capped s'.
Proof.
  induction fuel as [|fuel IH]; intros s cur s' Hcap Hrun; [done|].
  simpl in Hrun. destruct (store s !! cur) as [bk|] eqn:Hbk; [|done]. simpl in Hrun.
  pose proof (lookup_lt_Some _ _ _ Hbk) as Hlt.
  case_decide as Hroom.
  - injection Hrun as <-. intros b bk0 Hb. simpl in *.
    destruct (decide (b = cur)) as [->|Hne].
    + rewrite list_lookup_insert_eq // in Hb. injection Hb as <-. simpl.
      rewrite map_size_insert. destruct Hroom as [Hroom|[v Hv]].
      * destruct (kmap bk !! key); simpl; lia.
      * rewrite Hv /=. by apply (Hcap cur bk).
    + rewrite list_lookup_insert_ne // in Hb. by apply (Hcap b bk0).
  - destruct (split cur bk s) as [s1|] eqn:Hsplit; [|done]. simpl in Hrun.
    destruct (getIdx key s1) as [i1|] eqn:Hi1; [|done]. simpl in Hrun.
    destruct (buckets s1 !! i1) as [c1|] eqn:Hc1; [|done]. simpl in Hrun.
    apply (IH s1 c1 s'); [|done].
    destruct (split_store s s1 cur bk Hsplit) as (mask & Hst & _ & Hbs & _).
    intros b bk0 Hb. rewrite Hbs. rewrite Hst in Hb.
    pose proof (Hcap cur bk Hbk) as Hc.
    destruct (decide (b < length (store s))%nat) as [Hin|Hout].
    + rewrite lookup_app_l ?length_insert // in Hb.
      destruct (decide (b = cur)) as [->|Hne].
      * rewrite list_lookup_insert_eq // in Hb. injection Hb as <-. simpl.
        etrans; [apply map_size_filter|done].
      * rewrite list_lookup_insert_ne // in Hb. by apply (Hcap b bk0).
    + rewrite lookup_app_r ?length_insert in Hb; [|lia].
      apply list_lookup_singleton_Some in Hb as [_ <-]. simpl.
      etrans; [apply map_size_filter|done].
Qed.

Lemma reachable_capped sz (s : @ExtendibleHash K V _ _) :
  reachable sz s → capped s.
Proof.
  induction 1 as [|s fuel key value s' _ IH Hrun|s key b s' _ IH Hrun].
  - intros b bk Hb. apply list_lookup_singleton_Some in Hb as [_ <-]. simpl.
    rewrite map_size_empty. lia.
  - rewrite /EH.Insert in Hrun.
    destruct (getIdx key s) as [i|] eqn:Hi; [|done]. simpl in Hrun.
    destruct (buckets s !! i) as [cur|] eqn:Hcur; [|done]. simpl in Hrun.
    by eapply Insert_loop_capped.
  - rewrite /EH.Remove in Hrun.
    destruct (getIdx key s) as [i|] eqn:Hi; [|done]. simpl in Hrun.
    destruct (buckets s !! i) as [cur|] eqn:Hcur; [|done]. simpl in Hrun.
    destruct (store s !! cur) as [bk|] eqn:Hbk; [|done]. simpl in Hrun.
    destruct (kmap bk !! key) as [v|] eqn:Hk; injection Hrun as <- <-; [|done].
    intros b0 bk0 Hb. simpl in *. pose proof (lookup_lt_Some _ _ _ Hbk) as Hlt.
    destruct (decide (b0 = cur)) as [->|Hne].
    + rewrite list_lookup_insert_eq // in Hb. injection Hb as <-. simpl.
      rewrite map_size_delete Hk. pose proof (IH cur bk Hbk). lia.
    + rewrite list_lookup_insert_ne // in Hb. by apply (IH b0 bk0).
Qed.

(** How far a returning run of the loop moves the depth and the bucket
    count: each round that does not return adds one bucket and at most one
    level. *)
Lemma Insert_loop_grow fuel key value :
  ∀ (s : @ExtendibleHash K V _ _) cur bk s',
    store s !! cur = Some bk →
    Insert_loop fuel key value cur s = Some s' →
    globalDepth s ≤ globalDepth s' ∧
    globalDepth s' - globalDepth s ≤ bucketNum s' - bucketNum s ∧
    (((size (kmap bk) < bucketSize s)%nat ∨ is_Some (kmap bk !! key)) ↔
     bucketNum s' = bucketNum s) ∧
    (bucketNum s' = bucketNum s →
     buckets s' = buckets s ∧ globalDepth s' = globalDepth s).
Proof.
  induction fuel as [|fuel IH]; intros s cur bk s' Hbk Hrun; [done|].
  destruct (decide ((size (kmap bk) < bucketSize s)%nat ∨ is_Some (kmap bk !! key)))
    as [Hroom|Hfull].
  - rewrite (Insert_loop_room _ _ _ _ _ _ bk) // in Hrun. injection Hrun as <-. simpl.
    split_and!; [lia|lia|done|done].
  - rewrite (Insert_loop_full _ _ _ _ _ _ bk) // in Hrun.
    destruct (split cur bk s) as [s1|] eqn:Hsplit; [|done]. simpl in Hrun.
    destruct (getIdx key s1) as [i1|] eqn:Hi1; [|done]. simpl in Hrun.
    destruct (buckets s1 !! i1) as [c1|] eqn:Hc1; [|done]. simpl in Hrun.
    destruct (split_store s s1 cur bk Hsplit) as (mask & Hst & Hnum & Hbs & Hgd).
    destruct fuel as [|fuel']; [done|].
    destruct (store s1 !! c1) as [bk1|] eqn:Hbk1; [|by rewrite /= Hbk1 in Hrun].
    destruct (IH s1 c1 bk1 s' Hbk1 Hrun) as (Hg & Hd & _ & _).
    split_and!; [lia|lia| |lia]. split; [done|lia].
Qed.

(** The addresses the directory holds are those of the store. *)
Lemma wf_directory_addresses (s : @ExtendibleHash K V _ _) :
  wf s → remove_dups (buckets s) ≡ₚ seq 0 (length (store s)).
Proof.
  intros Hwf. apply NoDup_Permutation; [apply NoDup_remove_dups|apply NoDup_seq|].
  intros b. rewrite elem_of_remove_dups elem_of_seq list_elem_of_lookup. split.
  - intros [i Hi]. destruct (wf_dir _ _ Hwf i b Hi) as (bk & Hbk%lookup_lt_Some & _). lia.
  - intros [_ Hb]. by apply (wf_ref _ _ Hwf).
Qed.

(** X1: in a table reached from the constructor, [Find] returns exactly the
    entries the buckets hold: a stored entry is found with its value, a
    key that no bucket holds is reported missing with the output parameter
    untouched, and no key is held by two buckets. *)
Theorem Find_iff_stored size (s : @ExtendibleHash K V _ _) key w :
  reachable size s →
  (∀ v, Find key w s = Some (true, v) ↔ stored key v s) ∧
  (Find key w s = Some (false, w) ↔ absent key s) ∧
  (∀ b b' bk bk', store s !! b = Some bk → store s !! b' = Some bk' →
     is_Some (kmap bk !! key) → is_Some (kmap bk' !! key) → b = b').
Proof.
  intros [Hwf _]%reachable_wf. split_and!.
  - intros v. split; [|by apply Find_stored].
    destruct (Find_cases s key w Hwf) as [(v' & Hst & ->)|[Habs ->]]; [|done].
    by intros [= <-].
  - split; [|by apply Find_absent].
    destruct (Find_cases s key w Hwf) as [(v' & Hst & ->)|[Habs ->]]; done.
  - intros b b' bk bk' Hb Hb' Hk Hk'.
    destruct (stored_slot s key b bk Hwf Hb Hk) as (i & Hi & Hib).
    destruct (stored_slot s key b' bk' Hwf Hb' Hk') as (i' & Hi' & Hib').
    congruence.
Qed.

(** X2: an [Insert] that returns leaves the answer of [Find] for every other
    key as it was, through any number of splits and directory doublings. *)
Theorem Insert_keeps_other_keys size (s s' : @ExtendibleHash K V _ _)
    fuel key value key' w :
  reachable size s → Insert fuel key value s = Some s' → key' ≠ key →
  Find key' w s' = Find key' w s.
Proof.
  intros [Hwf _]%reachable_wf Hrun Hne. by eapply Insert_Find_other.
Qed.

(** X3: [Remove] on a reachable table always returns; its result tells
    whether [Find] would have found the key; the answers of [Find] for the
    other keys, the depth, the directory and the bucket count are left as
    they were (buckets are never merged), and a call that returns false
    changes nothing. *)
Theorem Remove_spec size (s : @ExtendibleHash K V _ _) key w :
  reachable size s →
  ∃ b s', Remove key s = Some (b, s') ∧
    fst <$> Find key w s = Some b ∧
    (∀ key' w', key' ≠ key → Find key' w' s' = Find key' w' s) ∧
    GetGlobalDepth s' = GetGlobalDepth s ∧
    buckets s' = buckets s ∧
    GetNumBuckets s' = GetNumBuckets s ∧
    (b = false → s' = s).
Proof.
  intros [Hwf _]%reachable_wf.
  destruct (Remove_wf _ key s Hwf) as (b & s' & Hrun & Hwf' & _).
  exists b, s'. split; [done|].
  assert (∀ key' w', key' ≠ key → Find key' w' s' = Find key' w' s) as Hother.
  { intros key' w' Hne. by eapply Remove_Find_other. }
  rewrite /EH.Remove /EH.Find in Hrun |- *.
  destruct (EH.getIdx HashKey key s) as [i|]; [|done]. simpl in *.
  destruct (buckets s !! i) as [cur|]; [|done]. simpl in *.
  destruct (store s !! cur) as [bk|]; [|done]. simpl in *.
  destruct (kmap bk !! key); simplify_eq; done.
Qed.

(** X4: in a table reached from the constructor with bucket size [sz], no
    bucket ever holds more than [sz] entries. *)
Theorem bucket_capacity sz (s : @ExtendibleHash K V _ _) b bk :
  reachable sz s → store s !! b = Some bk → (size (kmap bk) ≤ sz)%nat.
Proof.
  intros Hreach Hb. pose proof (reachable_capped sz s Hreach b bk Hb) as Hc.
  by destruct (reachable_wf _ sz s Hreach) as [_ <-].
Qed.

(** X5: [GetNumBuckets] is the number of distinct buckets the directory
    references; it is at least one and at most the number of slots. *)
Theorem GetNumBuckets_distinct size (s : @ExtendibleHash K V _ _) :
  reachable size s →
  GetNumBuckets s = Z.of_nat (length (remove_dups (buckets s))) ∧
  1 ≤ GetNumBuckets s ≤ 2 ^ GetGlobalDepth s.
Proof.
  intros [Hwf _]%reachable_wf. split.
  - rewrite (wf_directory_addresses s Hwf) length_seq. apply (wf_num _ _ Hwf).
  - destruct (wf_int_range _ s Hwf) as (_ & Hnum & _). rewrite /EH.GetNumBuckets
      /EH.GetGlobalDepth. lia.
Qed.

(** X6: an [Insert] that returns has split a bucket exactly when the bucket
    of the key was full and did not hold the key.  Without a split the
    depth and the directory are unchanged, so that overwriting a stored key
    never restructures the table; with splits, the depth and the bucket
    count never shrink, and each new level of depth comes with at least one
    new bucket. *)
Theorem Insert_splits_iff_full sz (s s' : @ExtendibleHash K V _ _)
    fuel key value bk :
  reachable sz s → target key s = Some bk →
  Insert fuel key value s = Some s' →
  (((size (kmap bk) < sz)%nat ∨ is_Some (kmap bk !! key)) ↔
   GetNumBuckets s' = GetNumBuckets s) ∧
  (GetNumBuckets s' = GetNumBuckets s →
   buckets s' = buckets s ∧ GetGlobalDepth s' = GetGlobalDepth s) ∧
  GetGlobalDepth s ≤ GetGlobalDepth s' ∧
  GetGlobalDepth s' - GetGlobalDepth s ≤ GetNumBuckets s' - GetNumBuckets s.
Proof.
  intros [Hwf <-]%reachable_wf Htgt Hrun.
  rewrite /EH.Insert in Hrun. rewrite /EH.target in Htgt.
  destruct (EH.getIdx HashKey key s) as [i|]; [|done]. simpl in *.
  destruct (buckets s !! i) as [cur|]; [|done]. simpl in *.
  destruct (Insert_loop_grow fuel key value s cur bk s' Htgt Hrun) as (Hg & Hd & Hiff & Hsame).
  rewrite /EH.GetNumBuckets /EH.GetGlobalDepth. done.
Qed.

(** X7: on a reachable table [GetLocalDepth] is defined for the slots of the
    directory and for no other index; it answers -1 for a slot whose bucket
    holds no entry, and the local depth of the bucket, between 0 and the
    global depth, otherwise. *)
Theorem GetLocalDepth_range size (s : @ExtendibleHash K V _ _) bucket_id :
  reachable size s →
  (2 ^ GetGlobalDepth s ≤ Z.of_nat bucket_id → GetLocalDepth bucket_id s = None) ∧
  (Z.of_nat bucket_id < 2 ^ GetGlobalDepth s →
   ∃ b bk, buckets s !! bucket_id = Some b ∧ store s !! b = Some bk ∧
     0 ≤ localDepth bk ≤ GetGlobalDepth s ∧
     (kmap bk = ∅ → GetLocalDepth bucket_id s = Some (-1)) ∧
     (kmap bk ≠ ∅ → GetLocalDepth bucket_id s = Some (localDepth bk))).
Proof.
  intros [Hwf _]%reachable_wf. pose proof Hwf as [Hgd Hlen _ _ Hdir].
  pose proof (pow2_pos (globalDepth s) ltac:(lia)) as Hpos.
  rewrite /EH.GetGlobalDepth. split.
  - intros Hout. rewrite /EH.GetLocalDepth lookup_ge_None_2 //. lia.
  - intros Hin.
    destruct (lookup_lt_is_Some_2 (buckets s) bucket_id) as [b Hb]; [lia|].
    destruct (Hdir bucket_id b Hb) as (bk & Hbk & Hld & _).
    exists b, bk. split_and!; [done..|lia|lia| |].
    all: intros Hemp; rewrite /EH.GetLocalDepth Hb /= Hbk /=.
    all: case_decide as Hsz; try done.
    + by rewrite Hemp map_size_empty in Hsz.
    + by apply map_size_empty_inv in Hsz.
Qed.

(** X8: a table built by the constructor without argument has an empty
    directory, whatever its scalar members hold: [Find], [Remove], [Insert]
    and [GetLocalDepth] index outside the directory on every input. *)
Theorem ExtendibleHash_default_unusable gd size num fuel key (value w : V) bucket_id :
  let s : @ExtendibleHash K V _ _ := ExtendibleHash_default gd size num in
  Find key w s = None ∧
  Remove key s = None ∧
  Insert fuel key value s = None ∧
  GetLocalDepth bucket_id s = None.
Proof.
  rewrite /EH.Find /EH.Remove /EH.Insert /EH.GetLocalDepth /=.
  destruct (EH.getIdx HashKey key _) as [i|]; done.
Qed.

(** X9: [Insert] returns within 32 rounds when buckets hold at least one
    entry and no other stored key has the low 30 bits of the hash of the
    key in common with it. *)
Theorem Insert_returns_distinct_hashes sz (s : @ExtendibleHash K V _ _) key value :
  reachable sz s → (1 ≤ sz)%nat →
  (∀ k v, stored k v s → k ≠ key →
     HashKey k `mod` 2 ^ 30 ≠ HashKey key `mod` 2 ^ 30) →
  ∃ s', Insert 32 key value s = Some s'.
Proof.
  intros [Hwf <-]%reachable_wf Hsize Hinj. apply Insert_fits_returns; [done|].
  destruct (wf_target _ s key Hwf) as (i & cur & bk & Hi & Hcur & Hbk & _).
  exists bk. split; [by apply (target_Some _ s key i cur bk)|].
  destruct (kmap bk !! key) as [v|] eqn:Hk; [left; eauto|].
  right. exists 30. split; [lia|].
  assert (agree key 30 (kmap bk) = ∅) as ->; [|rewrite map_size_empty; lia].
  apply map_empty_filter. intros k v Hkv Hag. simpl in Hag.
  apply (Hinj k v); [by exists cur, bk| |done]. congruence.
Qed.

(** A run of calls keeps the table in step with the map the calls build. *)
Lemma run_denote fuel (ops : list (@op K V)) :
  ∀ (s0 s : @ExtendibleHash K V _ _) m0,
    wf s0 → (∀ k v, stored k v s0 ↔ m0 !! k = Some v) →
    run HashKey fuel ops s0 = Some s →
    wf s ∧ ∀ k v, stored k v s ↔ denote ops m0 !! k = Some v.
Proof.
  induction ops as [|o ops IH]; intros s0 s m0 Hwf Hm Hrun.
  - injection Hrun as <-. done.
  - rewrite /EH.run /= in Hrun.
    destruct (run_op HashKey fuel o s0) as [s1|] eqn:Hop.
    2:{ exfalso. clear -Hrun. induction ops as [|o' ops IH']; [done|]. by apply IH'. }
    destruct o as [key value|key]; simpl in Hop.
    + destruct (Insert_wf _ _ _ _ _ _ Hwf Hop) as [Hwf1 _].
      apply (IH s1 s (<[key := value]> m0)); [done| |done].
      intros k v. destruct (decide (k = key)) as [->|Hne].
      * rewrite lookup_insert_eq. split.
        -- intros Hst. f_equal. symmetry.
           apply (stored_unique s1 key v value Hwf1 Hst).
           apply (Find_true_stored s1 key value); [done|]. by eapply Insert_Find.
        -- intros [= Heq]. subst v. apply (Find_true_stored s1 key value); [done|].
           by eapply Insert_Find.
      * rewrite lookup_insert_ne //. rewrite -Hm. by eapply Insert_stored.
    + destruct (Remove key s0) as [[b s1']|] eqn:Hrem; [|done].
      injection Hop as ->.
      destruct (Remove_wf _ key s0 Hwf) as (b0 & s0' & Hrem0 & Hwf1 & _).
      assert (s0' = s1) as -> by congruence.
      apply (IH s1 s (delete key m0)); [done| |done].
      intros k v. destruct (decide (k = key)) as [->|Hne].
      * rewrite lookup_delete_eq. split; [|done]. intros Hst.
        pose proof (Remove_Find _ key v _ _ _ Hrem) as Hf.
        by rewrite (Find_stored s1 key v v Hwf1 Hst) in Hf.
      * rewrite lookup_delete_ne //. rewrite -Hm. by eapply Remove_stored.
Qed.

(** X28: the table is a finite map.  After any sequence of [Insert] and
    [Remove] calls that returned, [Find] answers for every key as the map
    built by the same sequence of updates does: the value of the latest
    [Insert] of the key that no [Remove] followed, and otherwise false
    with the output parameter untouched. *)
Theorem run_is_map fuel size (ops : list (@op K V)) (s : @ExtendibleHash K V _ _) key w :
  run HashKey fuel ops (ExtendibleHash_new size) = Some s →
  Find key w s =
    Some (match denote ops ∅ !! key with
          | Some v => (true, v)
          | None => (false, w)
          end).
Proof.
  intros Hrun.
  destruct (run_denote fuel ops (ExtendibleHash_new size) s ∅ (wf_new _ size)) as [Hwf Hm];
    [|done|].
  { intros k v. rewrite lookup_empty. split; [|done].
    intros (b & bk & Hb & Hk). apply list_lookup_singleton_Some in Hb as [_ <-].
    by rewrite lookup_empty in Hk. }
  destruct (denote ops ∅ !! key) as [v|] eqn:Hd.
  - apply Find_stored; [done|]. by apply Hm.
  - apply Find_absent; [done|]. apply not_stored_absent. intros v Hv%Hm. congruence.
Qed.

End eh_more.

(** ** More on the LRU replacer *)

Section lru_more.
Import LRU.
Context {T : Type} `{!EqDecision T, !Countable T}.
Variable dflt : T.

Local Abbreviation model := (model dflt).
Local Abbreviation valid := (valid dflt).

Lemma valid_model (s : @LRUReplacer T _ _) : valid s → model s (contents s).
Proof. intros [l Hl]. by rewrite (model_contents dflt s l Hl). Qed.

Lemma drain_model (l : list T) :
  ∀ (s : @LRUReplacer T _ _), model s l →
    ∃ s', drain dflt (length l) s = Some (reverse l, s') ∧ model s' [].
Proof.
  induction l as [|v l IH] using rev_ind; intros s Hmod.
  - exists s. done.
  - rewrite length_app /= Nat.add_1_r reverse_snoc /=.
    destruct (Victim_model dflt s l v dflt Hmod) as (s1 & Hv & Hmod1 & _).
    rewrite Hv /=. destruct (IH s1 Hmod1) as (s' & Hd & Hmod').
    exists s'. by rewrite Hd.
Qed.

(** X10: whatever calls of [Insert], [Victim] and [Erase] a replacer has
    received since it was built, every one of them returned (no null
    pointer was followed), the list holds no value twice, its values are
    those of the map, and [Size] is its length. *)
Theorem run_valid (ops : list (@op T)) :
  ∃ s, run dflt ops (LRUReplacer_new dflt) = Some s ∧
    valid s ∧ NoDup (contents s) ∧
    Size s = length (contents s) ∧
    ∀ v, v ∈ contents s ↔ is_Some (map s !! v).
Proof.
  destruct (run_model dflt ops) as (s & l & Hrun & Hmod & _).
  exists s. rewrite (model_contents dflt s l Hmod).
  split_and!; [done|by exists l|by apply (model_NoDup dflt s l)|by apply (model_Size dflt)|].
  intros v. symmetry. by apply (model_map_lookup dflt).
Qed.

(** X11: [Insert] on a replacer that satisfies its invariant returns, puts
    the value at the most recent end and keeps the order of the others; a
    value the replacer held already is moved, not duplicated, and [Size]
    grows only for a new value. *)
Theorem Insert_moves_to_front (s : @LRUReplacer T _ _) v :
  valid s →
  ∃ s', Insert v s = Some s' ∧ valid s' ∧
    contents s' = v :: filter (λ w, w ≠ v) (contents s) ∧
    Size s' = if decide (v ∈ contents s) then Size s else S (Size s).
Proof.
  intros Hmod%valid_model.
  destruct (Insert_model dflt s _ v Hmod) as (s' & Hins & Hmod').
  exists s'. split_and!; [done|by eexists|by apply (model_contents dflt)|].
  rewrite (model_Size dflt s' _ Hmod') (model_Size dflt s _ Hmod) /=.
  pose proof (model_NoDup dflt s _ Hmod) as Hnd.
  destruct (decide (v ∈ contents s)) as [Hin|Hin].
  - apply list_elem_of_lookup in Hin as [k Hk].
    rewrite (filter_ne_delete _ k) // length_delete; [|by eauto].
    apply lookup_lt_Some in Hk. lia.
  - by rewrite filter_ne_id.
Qed.

(** X12: [Erase] on a replacer that satisfies its invariant returns true
    exactly when the replacer held the value, takes the value out and keeps
    the order of the others; erasing a value the replacer does not hold
    leaves it as it was. *)
Theorem Erase_removes (s : @LRUReplacer T _ _) v :
  valid s →
  ∃ s', Erase v s = Some (bool_decide (v ∈ contents s), s') ∧ valid s' ∧
    contents s' = filter (λ w, w ≠ v) (contents s) ∧
    Size s' = (if decide (v ∈ contents s) then Nat.pred (Size s) else Size s) ∧
    (v ∉ contents s → s' = s).
Proof.
  intros Hmod%valid_model.
  destruct (Erase_model dflt s _ v Hmod) as (s' & Her & Hmod' & _ & Hsame).
  exists s'. split_and!; [done|by eexists|by apply (model_contents dflt)| |done].
  rewrite (model_Size dflt s' _ Hmod') (model_Size dflt s _ Hmod) /=.
  pose proof (model_NoDup dflt s _ Hmod) as Hnd.
  destruct (decide (v ∈ contents s)) as [Hin|Hin].
  - apply list_elem_of_lookup in Hin as [k Hk].
    rewrite (filter_ne_delete _ k) // length_delete; [|by eauto]. lia.
  - by rewrite filter_ne_id.
Qed.

(** X13: [Size] calls of [Victim] in a row all succeed, hand out the values
    of the replacer from the least to the most recently inserted, and
    leave it empty: a further [Victim] fails and leaves its output
    parameter untouched. *)
Theorem drain_oldest_first (s : @LRUReplacer T _ _) value :
  valid s →
  ∃ s', drain dflt (Size s) s = Some (reverse (contents s), s') ∧
    contents s' = [] ∧ Size s' = 0%nat ∧
    Victim value s' = Some (false, value, s').
Proof.
  intros Hmod%valid_model. rewrite (model_Size dflt s _ Hmod).
  destruct (drain_model _ s Hmod) as (s' & Hd & Hmod').
  exists s'. split_and!; [done|by apply (model_contents dflt)| |by apply (Victim_model_empty dflt)].
  by rewrite (model_Size dflt s' _ Hmod').
Qed.

(** X14: an [Erase] that follows the [Insert] of the same value always
    returns true, and leaves the list as an [Erase] alone would have: the
    list as it was, when the value is new. *)
Theorem Insert_then_Erase (s : @LRUReplacer T _ _) v :
  valid s →
  ∃ s1 s2, Insert v s = Some s1 ∧ Erase v s1 = Some (true, s2) ∧
    contents s2 = filter (λ w, w ≠ v) (contents s) ∧
    (v ∉ contents s → contents s2 = contents s ∧ Size s2 = Size s).
Proof.
  intros Hmod%valid_model.
  destruct (Insert_model dflt s _ v Hmod) as (s1 & Hins & Hmod1).
  destruct (Erase_model dflt s1 _ v Hmod1) as (s2 & Her & Hmod2 & _).
  rewrite bool_decide_true in Her; [|by left].
  assert (¬ v ≠ v) as Hvv by (intros Hvv; by apply Hvv).
  rewrite (filter_cons_False (λ w, w ≠ v) v _ Hvv) in Hmod2.
  rewrite list_filter_filter in Hmod2.
  assert (filter (λ x, x ≠ v ∧ x ≠ v) (contents s) = filter (λ w, w ≠ v) (contents s)) as Heq.
  { apply list_filter_iff. tauto. }
  rewrite Heq in Hmod2.
  exists s1, s2. split_and!; [done|done|by apply (model_contents dflt)|].
  intros Hnot. rewrite filter_ne_id // in Hmod2.
  split; [by apply (model_contents dflt)|].
  by rewrite (model_Size dflt s2 _ Hmod2) (model_Size dflt s _ Hmod).
Qed.

End lru_more.

(** ** More on the buffer pool manager *)

Section bpm_more.
Import BPM.
Context {Data : Type}.
Variable zeroed : Data.
Variable INVALID_PAGE_ID : Z.
Variable BUCKET_SIZE : nat.
Variable HashKey : Z → Z.
Variable disk_alloc : list (@DiskCall Data) → Z.
Variable disk_read : list (@DiskCall Data) → Z → Data.

Local Abbreviation BufferPoolManager := (@BufferPoolManager Data).
Local Abbreviation FetchPage := (FetchPage INVALID_PAGE_ID HashKey disk_read).
Local Abbreviation NewPage := (NewPage zeroed INVALID_PAGE_ID HashKey disk_alloc).
Local Abbreviation UnpinPage := (UnpinPage HashKey).
Local Abbreviation FlushPage := (FlushPage INVALID_PAGE_ID HashKey).
Local Abbreviation DeletePage := (DeletePage zeroed HashKey).
Local Abbreviation GetVictimPage := (GetVictimPage INVALID_PAGE_ID).
Local Abbreviation resident := (resident HashKey).
Local Abbreviation inv := (inv HashKey).
Local Abbreviation reachable :=
  (reachable zeroed INVALID_PAGE_ID BUCKET_SIZE HashKey disk_alloc disk_read).

(** The invariant reads the frames, the page table, the replacer and the
    free list only. *)
Lemma inv_ext (s s' : BufferPoolManager) :
  pages_ s' = pages_ s → page_table_ s' = page_table_ s →
  replacer_ s' = replacer_ s → free_list_ s' = free_list_ s →
  inv s → inv s'.
Proof.
  intros Hp Ht Hr Hf [H1 H2 H3 H4 H5 H6 H7 H8 H9].
  split; rewrite ?Hp ?Ht ?Hr ?Hf; done.
Qed.

Lemma inv_new pool_size :
  inv (BufferPoolManager_new zeroed INVALID_PAGE_ID BUCKET_SIZE pool_size).
Proof.
  split; simpl.
  - apply wf_new.
  - exists []. apply model_new.
  - intros pid x (b & bk & Hb & Hk).
    apply list_lookup_singleton_Some in Hb as [_ <-]. by rewrite lookup_empty in Hk.
  - rewrite (model_contents None _ [] (model_new None)). by intros x ?%elem_of_nil.
  - intros x [f [-> Hf]]%list_elem_of_fmap. apply elem_of_seq in Hf.
    exists f, (mkPage zeroed INVALID_PAGE_ID 0 false). split; [done|]. split; [|done].
    apply lookup_replicate_2. lia.
  - by intros f pg [-> _]%lookup_replicate.
  - apply NoDup_fmap_2; [|apply NoDup_seq]. by intros ?? [=].
  - rewrite (model_contents None _ [] (model_new None)). by intros x _ ?%elem_of_nil.
  - intros pid x (b & bk & Hb & Hk).
    apply list_lookup_singleton_Some in Hb as [_ <-]. by rewrite lookup_empty in Hk.
Qed.

(** A page is resident exactly when the page table stores its id. *)
Lemma resident_stored (s : BufferPoolManager) page_id f :
  EH.wf HashKey (page_table_ s) →
  resident page_id f s ↔ EH.stored page_id (Some f) (page_table_ s).
Proof.
  intros Hwf. rewrite /BPM.resident. split.
  - by apply Find_true_stored.
  - by apply Find_stored.
Qed.

Lemma snoc_cases {A} (l : list A) : l = [] ∨ ∃ l' x, l = l' ++ [x].
Proof. destruct l as [|x l] using rev_ind; [by left|right; eauto]. Qed.

(** What [GetVictimPage] hands out in a state that satisfies the invariant:
    a frame of the pool with no pin, taken out of the free list or out of
    the replacer. *)
Lemma GetVictimPage_inv (s s1 : BufferPoolManager) f :
  inv s → GetVictimPage s = Some (Some f, s1) →
  inv s1 ∧ (Some f ∉ free_list_ s1) ∧ (Some f ∉ LRU.contents (replacer_ s1)) ∧
  pages_ s1 = pages_ s ∧ page_table_ s1 = page_table_ s ∧
  disk_manager_ s1 = disk_manager_ s ∧
  ∃ pg, pages_ s !! f = Some pg ∧ pin_count_ pg = 0.
Proof.
  intros Hinv Hrun. pose proof Hinv as [H1 H2 H3 H4 H5 H6 H7 H8 H9].
  rewrite /BPM.GetVictimPage in Hrun.
  destruct (free_list_ s) as [|tar rest] eqn:Hfree.
  - case_decide as Hsz; [done|].
    pose proof (valid_model None _ H2) as Hmod.
    rewrite (model_Size None _ _ Hmod) in Hsz.
    destruct (snoc_cases (LRU.contents (replacer_ s))) as [Hc|(l0 & v0 & Hc)];
      rewrite Hc in Hsz, Hmod; [done|].
    destruct (Victim_model None _ _ _ None Hmod) as (r & Hv & Hmodr & _).
    rewrite Hv /= in Hrun.
    destruct (deref v0 s) as [pg|] eqn:Hpg; [|done]. simpl in Hrun.
    case_decide as Hpin; [|done]. injection Hrun as -> <-.
    pose proof (model_NoDup None _ _ Hmod) as Hnd.
    apply NoDup_app in Hnd as (_ & Hnot & _).
    split_and!; simpl; try done.
    + split; simpl; try done.
      * by exists l0.
      * rewrite (model_contents None _ _ Hmodr). intros x Hx. apply H4.
        rewrite Hc. apply elem_of_app. by left.
      * by rewrite Hfree.
      * rewrite Hfree. apply NoDup_nil_2.
      * rewrite Hfree. by intros x ?%elem_of_nil.
      * rewrite Hfree. by intros pid x _ ?%elem_of_nil.
    + rewrite Hfree. by intros ?%elem_of_nil.
    + rewrite (model_contents None _ _ Hmodr). intros Hin.
      apply (Hnot _ Hin). by left.
    + by exists pg.
  - destruct (deref tar s) as [pg|] eqn:Hpg; [|done]. simpl in Hrun.
    case_decide as Hid; [|done]. case_decide as Hpin; [|done].
    injection Hrun as -> <-. apply NoDup_cons in H7 as [Hnot Hnd].
    split_and!; simpl; try done.
    + split; simpl; try done.
      * intros x Hx. apply H5. by right.
      * intros x Hx. apply H8. by right.
      * intros pid x Hst Hx. apply (H9 pid x Hst). by right.
    + apply H8. by left.
    + by exists pg.
Qed.

(** Binding a detached frame to a page id: the tail of [NewPage] and of a
    [FetchPage] that misses. *)
Lemma rebind_inv (s1 : BufferPoolManager) f pg page_id fuel b pt1 pt2 d dm :
  inv s1 → Some f ∉ free_list_ s1 → Some f ∉ LRU.contents (replacer_ s1) →
  pages_ s1 !! f = Some pg →
  EH.Remove HashKey (page_id_ pg) (page_table_ s1) = Some (b, pt1) →
  EH.Insert HashKey fuel page_id (Some f) pt1 = Some pt2 →
  inv (mkBPM (pool_size_ s1) (<[f := mkPage d page_id 1 false]> (pages_ s1)) pt2
             (replacer_ s1) (free_list_ s1) dm).
Proof.
  intros [H1 H2 H3 H4 H5 H6 H7 H8 H9] Hnf Hnr Hpg Hrem Hins.
  pose proof (lookup_lt_Some _ _ _ Hpg) as Hlt.
  destruct (Remove_wf _ (page_id_ pg) _ H1) as (b0 & pt0 & Hrem0 & Hwf1 & _).
  assert (pt0 = pt1) as -> by congruence. clear Hrem0.
  destruct (Insert_wf _ _ _ _ _ _ Hwf1 Hins) as [Hwf2 _].
  assert (EH.stored page_id (Some f) pt2) as Hnew.
  { apply (Find_true_stored HashKey _ _ None); [done|]. by eapply Insert_Find. }
  assert (∀ pid x, EH.stored pid x pt2 → pid ≠ page_id →
            EH.stored pid x (page_table_ s1) ∧ pid ≠ page_id_ pg) as Hold.
  { intros pid x Hst Hne.
    apply (Insert_stored HashKey fuel page_id (Some f) pid x pt1 pt2 Hwf1 Hins Hne) in Hst.
    assert (pid ≠ page_id_ pg) as Hne'.
    { intros ->. pose proof (Remove_Find _ _ None _ _ _ Hrem) as Hf.
      rewrite (Find_stored HashKey _ _ x None Hwf1 Hst) in Hf. done. }
    split; [|done]. by apply (Remove_stored HashKey _ pid x b _ pt1 Hrem Hne'). }
  split; simpl; try done.
  - intros pid x Hst. destruct (decide (pid = page_id)) as [->|Hne].
    + rewrite (stored_unique HashKey pt2 page_id x (Some f) Hwf2 Hst Hnew).
      eexists f, _. split; [done|]. by rewrite list_lookup_insert_eq.
    + destruct (Hold pid x Hst Hne) as [Hst1 Hne'].
      destruct (H3 pid x Hst1) as (f' & pg' & -> & Hpg' & Hid).
      exists f', pg'. split; [done|]. split; [|done].
      rewrite list_lookup_insert_ne //. intros <-. congruence.
  - intros x Hx. destruct (H4 x Hx) as (f' & pg' & -> & Hpg' & Hpin).
    exists f', pg'. split; [done|]. split; [|done].
    rewrite list_lookup_insert_ne //. by intros <-.
  - intros x Hx. destruct (H5 x Hx) as (f' & pg' & -> & Hpg' & Hpin).
    exists f', pg'. split; [done|]. split; [|done].
    rewrite list_lookup_insert_ne //. by intros <-.
  - intros f' pg' Hpg'. destruct (decide (f' = f)) as [->|Hne].
    + rewrite list_lookup_insert_eq // in Hpg'. injection Hpg' as <-. simpl. lia.
    + rewrite list_lookup_insert_ne // in Hpg'. by apply (H6 f').
  - intros pid x Hst. destruct (decide (pid = page_id)) as [->|Hne].
    + by rewrite (stored_unique HashKey pt2 page_id x (Some f) Hwf2 Hst Hnew).
    + destruct (Hold pid x Hst Hne) as [Hst1 _]. by apply (H9 pid).
Qed.

Lemma GetVictimPage_None (s s1 : BufferPoolManager) :
  GetVictimPage s = Some (None, s1) →
  s1 = s ∧ free_list_ s = [] ∧ LRU.Size (replacer_ s) = 0%nat.
Proof.
  rewrite /BPM.GetVictimPage. intros Hrun.
  destruct (free_list_ s) as [|tar rest].
  - case_decide; [by injection Hrun as <-|].
    destruct (LRU.Victim _ _) as [[[? tar] r]|]; [|done]. simpl in Hrun.
    destruct tar as [f|]; [|done]. simpl in Hrun.
    destruct (pages_ s !! f); [|done]. simpl in Hrun. by case_decide.
  - destruct tar as [f|]; [|done]. simpl in Hrun.
    destruct (pages_ s !! f); [|done]. simpl in Hrun. by repeat case_decide.
Qed.

Lemma NewPage_inv (s s' : BufferPoolManager) fuel page_id tar page_id' :
  inv s → NewPage fuel page_id s = Some (tar, page_id', s') → inv s'.
Proof.
  intros Hinv Hrun. rewrite /BPM.NewPage in Hrun.
  destruct (GetVictimPage s) as [[[f|] s1]|] eqn:Hvic; [|simpl in Hrun|done].
  - destruct (GetVictimPage_inv s s1 f Hinv Hvic)
      as (Hinv1 & Hnf & Hnr & Hp & Ht & Hd & pg & Hpg & Hpin).
    rewrite -Hp in Hpg. simpl in Hrun. rewrite Hpg /= in Hrun.
    destruct (is_dirty_ pg) eqn:Hdirty; simpl in Hrun.
    all: destruct (EH.Remove HashKey (page_id_ pg) (page_table_ s1))
           as [[b pt1]|] eqn:Hrem; [|done]; simpl in Hrun.
    all: destruct (EH.Insert HashKey fuel _ (Some f) pt1) as [pt2|] eqn:Hins; [|done].
    all: simpl in Hrun; rewrite Hpg /= in Hrun; injection Hrun as <- <- <-.
    all: eapply inv_ext; [..|by eapply (rebind_inv s1 f pg)]; done.
  - apply GetVictimPage_None in Hvic as (-> & _). by injection Hrun as <- <- <-.
Qed.

(** Changing the pin count, the flag or the payload of a frame that is not
    free, with a replacer that holds the frame only when it has no pin. *)
Lemma frame_update_inv (s : BufferPoolManager) f pg pg' r dm :
  inv s → pages_ s !! f = Some pg →
  page_id_ pg' = page_id_ pg → 0 ≤ pin_count_ pg' →
  Some f ∉ free_list_ s →
  LRU.valid None r →
  (∀ x, x ∈ LRU.contents r → x ∈ LRU.contents (replacer_ s) ∨ x = Some f) →
  (Some f ∈ LRU.contents r → pin_count_ pg' = 0) →
  inv (mkBPM (pool_size_ s) (<[f := pg']> (pages_ s)) (page_table_ s) r
             (free_list_ s) dm).
Proof.
  intros [H1 H2 H3 H4 H5 H6 H7 H8 H9] Hpg Hid Hpin Hnf Hr Hsub Hzero.
  pose proof (lookup_lt_Some _ _ _ Hpg) as Hlt.
  split; simpl; try done.
  - intros pid x Hst. destruct (H3 pid x Hst) as (f' & pg0 & -> & Hpg0 & Hid0).
    destruct (decide (f' = f)) as [->|Hne].
    + exists f, pg'. rewrite list_lookup_insert_eq //. split_and!; [done..|]. congruence.
    + exists f', pg0. by rewrite list_lookup_insert_ne.
  - intros x Hx. destruct (decide (x = Some f)) as [->|Hne].
    + exists f, pg'. rewrite list_lookup_insert_eq //. split_and!; [done..|]. by apply Hzero.
    + destruct (Hsub x Hx) as [Hold|?]; [|done].
      destruct (H4 x Hold) as (f' & pg0 & -> & Hpg0 & Hpin0).
      exists f', pg0. rewrite list_lookup_insert_ne //. congruence.
  - intros x Hx. destruct (H5 x Hx) as (f' & pg0 & -> & Hpg0 & Hpin0).
    exists f', pg0. rewrite list_lookup_insert_ne //. by intros <-.
  - intros f' pg0 Hpg0. destruct (decide (f' = f)) as [->|Hne].
    + rewrite list_lookup_insert_eq // in Hpg0. by injection Hpg0 as <-.
    + rewrite list_lookup_insert_ne // in Hpg0. by apply (H6 f').
  - intros x Hx Hin. destruct (Hsub x Hin) as [Hold| ->]; [|done]. by apply (H8 x).
Qed.

(** The frame a page id is bound to. *)
Lemma inv_Find (s : BufferPoolManager) page_id b tar :
  inv s → EH.Find HashKey page_id None (page_table_ s) = Some (b, tar) →
  (tar = None ∧ b = false) ∨
  ∃ f pg, tar = Some f ∧ b = true ∧ pages_ s !! f = Some pg ∧ page_id_ pg = page_id ∧
          (Some f ∉ free_list_ s) ∧
          EH.stored page_id (Some f) (page_table_ s).
Proof.
  intros Hinv Hfind. pose proof Hinv as [H1 H2 H3 H4 H5 H6 H7 H8 H9].
  destruct b.
  - right. apply Find_true_stored in Hfind; [|done].
    destruct (H3 _ _ Hfind) as (f & pg & -> & Hpg & Hid).
    exists f, pg. split_and!; try done. by apply (H9 page_id).
  - left. apply Find_false_absent in Hfind as [_ ->]; done.
Qed.

Lemma FetchPage_inv (s s' : BufferPoolManager) fuel page_id tar :
  inv s → FetchPage fuel page_id s = Some (tar, s') → inv s'.
Proof.
  intros Hinv Hrun. rewrite /BPM.FetchPage in Hrun.
  destruct (EH.Find HashKey page_id None (page_table_ s)) as [[b tar0]|] eqn:Hfind; [|done].
  simpl in Hrun.
  destruct (inv_Find s page_id b tar0 Hinv Hfind)
    as [[-> ->]|(f & pg & -> & -> & Hpg & Hid & Hnf & Hst)].
  - destruct (GetVictimPage s) as [[[f|] s1]|] eqn:Hvic; [|simpl in Hrun|done].
    + destruct (GetVictimPage_inv s s1 f Hinv Hvic)
        as (Hinv1 & Hnf & Hnr & Hp & Ht & Hd & pg & Hpg & Hpin).
      rewrite -Hp in Hpg. simpl in Hrun. rewrite Hpg /= in Hrun.
      destruct (is_dirty_ pg) eqn:Hdirty; simpl in Hrun.
      all: destruct (EH.Remove HashKey (page_id_ pg) (page_table_ s1))
             as [[b pt1]|] eqn:Hrem; [|done]; simpl in Hrun.
      all: destruct (EH.Insert HashKey fuel _ (Some f) pt1) as [pt2|] eqn:Hins; [|done].
      all: simpl in Hrun; rewrite Hpg /= in Hrun; injection Hrun as <- <-.
      all: eapply inv_ext; [..|by eapply (rebind_inv s1 f pg)]; done.
    + apply GetVictimPage_None in Hvic as (-> & _). by injection Hrun as <- <-.
  - simpl in Hrun. rewrite Hpg /= in Hrun. case_decide as Hmax; [|done].
    pose proof (valid_model None _ (inv_replacer _ _ _ Hinv)) as Hmod.
    destruct (Erase_model None _ _ (Some f) Hmod) as (r & Her & Hmodr & _).
    rewrite Her /= in Hrun. injection Hrun as <- <-.
    eapply inv_ext; [..|eapply (frame_update_inv s f pg _ r)]; try done.
    + simpl. pose proof (inv_pin _ _ _ Hinv f pg Hpg). lia.
    + by eexists.
    + intros x. rewrite (model_contents None _ _ Hmodr).
      intros [_ Hx]%list_elem_of_filter. by left.
    + rewrite (model_contents None _ _ Hmodr).
      by intros [Hx _]%list_elem_of_filter.
Qed.

Lemma UnpinPage_inv (s s' : BufferPoolManager) page_id is_dirty b :
  inv s → UnpinPage page_id is_dirty s = Some (b, s') → inv s'.
Proof.
  intros Hinv Hrun. rewrite /BPM.UnpinPage in Hrun.
  destruct (EH.Find HashKey page_id None (page_table_ s)) as [[b0 tar0]|] eqn:Hfind; [|done].
  simpl in Hrun.
  destruct (inv_Find s page_id b0 tar0 Hinv Hfind)
    as [[-> ->]|(f & pg & -> & -> & Hpg & Hid & Hnf & Hst)].
  - by injection Hrun as <- <-.
  - simpl in Hrun. rewrite Hpg /= in Hrun.
    pose proof (lookup_lt_Some _ _ _ Hpg) as Hlt.
    pose proof (inv_pin _ _ _ Hinv f pg Hpg) as Hpin.
    case_decide as Hle.
    + injection Hrun as <- <-.
      eapply inv_ext; [..|eapply (frame_update_inv s f pg _ (replacer_ s))]; try done.
      * by apply (inv_replacer _ _ _ Hinv).
      * by left.
      * intros Hin. destruct (inv_evictable _ _ _ Hinv _ Hin) as (f' & pg' & [= <-] & Hpg' & Hz).
        simpl. congruence.
    + rewrite list_lookup_insert_eq //= list_insert_insert_eq in Hrun.
      case_decide as Hz.
      * pose proof (valid_model None _ (inv_replacer _ _ _ Hinv)) as Hmod.
        destruct (Insert_model None _ _ (Some f) Hmod) as (r & Hins & Hmodr).
        rewrite Hins /= in Hrun. injection Hrun as <- <-.
        eapply inv_ext; [..|eapply (frame_update_inv s f pg _ r)]; try done.
        -- simpl. lia.
        -- by eexists.
        -- intros x. rewrite (model_contents None _ _ Hmodr).
           intros [->|[_ Hx]%list_elem_of_filter]%elem_of_cons; by [right|left].
      * injection Hrun as <- <-.
        eapply inv_ext; [..|eapply (frame_update_inv s f pg _ (replacer_ s))]; try done.
        -- simpl. lia.
        -- by apply (inv_replacer _ _ _ Hinv).
        -- by left.
        -- intros Hin.
           destruct (inv_evictable _ _ _ Hinv _ Hin) as (f' & pg' & [= <-] & Hpg' & Hz').
           assert (pg' = pg) as -> by congruence. lia.
Qed.

Lemma FlushPage_inv (s s' : BufferPoolManager) page_id b :
  inv s → FlushPage page_id s = Some (b, s') → inv s'.
Proof.
  intros Hinv Hrun. rewrite /BPM.FlushPage in Hrun.
  destruct (EH.Find HashKey page_id None (page_table_ s)) as [[b0 tar0]|] eqn:Hfind; [|done].
  simpl in Hrun.
  destruct (inv_Find s page_id b0 tar0 Hinv Hfind)
    as [[-> ->]|(f & pg & -> & -> & Hpg & Hid & Hnf & Hst)].
  - by injection Hrun as <- <-.
  - simpl in Hrun. rewrite Hpg /= in Hrun.
    case_decide as Hinval; [by injection Hrun as <- <-|].
    destruct (is_dirty_ pg) eqn:Hdirty; [|by injection Hrun as <- <-].
    simpl in Hrun. injection Hrun as <- <-.
    eapply inv_ext; [..|eapply (frame_update_inv s f pg _ (replacer_ s))]; try done.
    + by apply (inv_pin _ _ _ Hinv f pg).
    + by apply (inv_replacer _ _ _ Hinv).
    + by left.
    + intros Hin.
      destruct (inv_evictable _ _ _ Hinv _ Hin) as (f' & pg' & [= <-] & Hpg' & Hz').
      simpl. congruence.
Qed.

Lemma DeletePage_inv (s s' : BufferPoolManager) page_id b :
  inv s → DeletePage page_id s = Some (b, s') → inv s'.
Proof.
  intros Hinv Hrun. rewrite /BPM.DeletePage in Hrun.
  destruct (EH.Find HashKey page_id None (page_table_ s)) as [[b0 tar0]|] eqn:Hfind; [|done].
  simpl in Hrun.
  destruct (inv_Find s page_id b0 tar0 Hinv Hfind)
    as [[-> ->]|(f & pg & -> & -> & Hpg & Hid & Hnf & Hst)].
  - injection Hrun as <- <-. by eapply inv_ext; [..|exact Hinv].
  - simpl in Hrun. rewrite Hpg /= in Hrun.
    case_decide as Hpos; [by injection Hrun as <- <-|].
    pose proof Hinv as [H1 H2 H3 H4 H5 H6 H7 H8 H9].
    pose proof (lookup_lt_Some _ _ _ Hpg) as Hlt.
    pose proof (valid_model None _ H2) as Hmod.
    destruct (Erase_model None _ _ (Some f) Hmod) as (r & Her & Hmodr & _).
    rewrite Her /= in Hrun.
    destruct (Remove_wf _ page_id _ H1) as (b1 & pt & Hrem & Hwf1 & _).
    rewrite Hrem /= in Hrun. injection Hrun as <- <-.
    assert (∀ pid x, EH.stored pid x pt →
              pid ≠ page_id ∧ EH.stored pid x (page_table_ s)) as Hold.
    { intros pid x Hx. assert (pid ≠ page_id) as Hne.
      { intros ->. pose proof (Remove_Find _ _ None _ _ _ Hrem) as Hf.
        rewrite (Find_stored HashKey _ _ x None Hwf1 Hx) in Hf. done. }
      split; [done|]. by apply (Remove_stored HashKey _ pid x b1 _ pt Hrem Hne). }
    split; simpl.
    + done.
    + by eexists.
    + intros pid x Hx. destruct (Hold pid x Hx) as [Hne Hx0].
      destruct (H3 pid x Hx0) as (f' & pg' & -> & Hpg' & Hid').
      exists f', pg'. split; [done|]. split; [|done].
      rewrite list_lookup_insert_ne //. intros <-. congruence.
    + intros x. rewrite (model_contents None _ _ Hmodr).
      intros [Hne Hx]%list_elem_of_filter.
      destruct (H4 x Hx) as (f' & pg' & -> & Hpg' & Hpin').
      exists f', pg'. split; [done|]. split; [|done].
      rewrite list_lookup_insert_ne //. congruence.
    + intros x [Hx| ->%list_elem_of_singleton]%elem_of_app.
      * destruct (H5 x Hx) as (f' & pg' & -> & Hpg' & Hpin').
        exists f', pg'. split; [done|]. split; [|done].
        rewrite list_lookup_insert_ne //. by intros <-.
      * eexists f, _. split; [done|]. rewrite list_lookup_insert_eq //.
        split; [done|]. simpl. pose proof (H6 f pg Hpg). lia.
    + intros f' pg' Hpg'. destruct (decide (f' = f)) as [->|Hne].
      * rewrite list_lookup_insert_eq // in Hpg'. injection Hpg' as <-. simpl.
        by apply (H6 f pg).
      * rewrite list_lookup_insert_ne // in Hpg'. by apply (H6 f').
    + apply NoDup_app. split_and!; [done| |apply NoDup_singleton].
      intros x Hx ->%list_elem_of_singleton. done.
    + intros x Hx. rewrite (model_contents None _ _ Hmodr).
      intros [Hne Hin]%list_elem_of_filter.
      apply elem_of_app in Hx as [Hx| ->%list_elem_of_singleton]; [|done].
      by apply (H8 x).
    + intros pid x Hx. destruct (Hold pid x Hx) as [Hne Hx0].
      intros [Hin| ->%list_elem_of_singleton]%elem_of_app.
      * by apply (H9 pid x).
      * destruct (H3 pid _ Hx0) as (f' & pg' & [= <-] & Hpg' & Hid'). congruence.
Qed.

(** Every reachable state satisfies the invariant. *)
Lemma reachable_inv pool_size (s : BufferPoolManager) :
  reachable pool_size s → inv s.
Proof.
  induction 1 as [|s fuel page_id tar s' _ IH Hrun
                  |s page_id is_dirty b s' _ IH Hrun
                  |s page_id b s' _ IH Hrun
                  |s page_id b s' _ IH Hrun
                  |s fuel page_id tar page_id' s' _ IH Hrun].
  - apply inv_new.
  - by eapply FetchPage_inv.
  - by eapply UnpinPage_inv.
  - by eapply FlushPage_inv.
  - by eapply DeletePage_inv.
  - by eapply NewPage_inv.
Qed.

(** X15: in every state reached from the constructor, the frame a page id
    is bound to carries this page id; hence no frame is bound to two page
    ids, and a bound frame is not on the free list. *)
Theorem resident_frame_holds_page pool_size (s : BufferPoolManager) page_id f :
  reachable pool_size s → resident page_id f s →
  (∃ pg, pages_ s !! f = Some pg ∧ page_id_ pg = page_id) ∧
  (∀ page_id', resident page_id' f s → page_id' = page_id) ∧
  Some f ∉ free_list_ s.
Proof.
  intros Hinv%reachable_inv Hres.
  pose proof (inv_table _ _ _ Hinv) as Hwf.
  apply resident_stored in Hres; [|done].
  destruct (inv_resident _ _ _ Hinv _ _ Hres) as (f' & pg & [= <-] & Hpg & Hid).
  split_and!.
  - by exists pg.
  - intros page_id' Hres'%resident_stored; [|done].
    destruct (inv_resident _ _ _ Hinv _ _ Hres') as (f' & pg' & [= <-] & Hpg' & Hid').
    congruence.
  - by apply (inv_free_resident _ _ _ Hinv page_id).
Qed.

(** X16: in every state reached from the constructor no pin count is
    negative, and a frame with a pin is neither in the replacer nor on the
    free list: it cannot be chosen as a victim. *)
Theorem pinned_frame_not_evictable pool_size (s : BufferPoolManager) f pg :
  reachable pool_size s → pages_ s !! f = Some pg →
  0 ≤ pin_count_ pg ∧
  (pin_count_ pg ≠ 0 →
   (Some f ∉ LRU.contents (replacer_ s)) ∧ (Some f ∉ free_list_ s) ∧
   ∀ s1, GetVictimPage s ≠ Some (Some f, s1)).
Proof.
  intros Hinv%reachable_inv Hpg. split; [by apply (inv_pin _ _ _ Hinv f)|].
  intros Hpin.
  assert (Some f ∉ LRU.contents (replacer_ s)) as Hnr.
  { intros Hin. destruct (inv_evictable _ _ _ Hinv _ Hin) as (f' & pg' & [= <-] & Hpg' & Hz).
    congruence. }
  assert (Some f ∉ free_list_ s) as Hnf.
  { intros Hin.
    destruct (inv_free _ _ _ Hinv _ Hin) as (f' & pg' & [= <-] & Hpg' & Hz & _).
    congruence. }
  split_and!; [done..|]. intros s1 Hvic.
  destruct (GetVictimPage_inv s s1 f Hinv Hvic) as (_ & _ & _ & _ & _ & _ & pg' & Hpg' & Hz).
  congruence.
Qed.

(** X17: in every state reached from the constructor the free list holds
    each of its frames once, and a frame of the free list is neither in
    the replacer nor bound to a page id; the replacer holds no frame
    twice. *)
Theorem free_frames_detached pool_size (s : BufferPoolManager) :
  reachable pool_size s →
  NoDup (free_list_ s) ∧ NoDup (LRU.contents (replacer_ s)) ∧
  ∀ x, x ∈ free_list_ s →
    ∃ f, x = Some f ∧ is_Some (pages_ s !! f) ∧
         (Some f ∉ LRU.contents (replacer_ s)) ∧
         ∀ page_id, ¬ resident page_id f s.
Proof.
  intros Hinv%reachable_inv. split_and!.
  - by apply (inv_free_NoDup _ _ _ Hinv).
  - apply (model_NoDup None (replacer_ s)).
    apply valid_model, (inv_replacer _ _ _ Hinv).
  - intros x Hx. destruct (inv_free _ _ _ Hinv _ Hx) as (f & pg & -> & Hpg & _).
    exists f. split_and!; [done|by eexists|by apply (inv_free_evictable _ _ _ Hinv)|].
    intros page_id Hres%resident_stored; [|by apply (inv_table _ _ _ Hinv)].
    by apply (inv_free_resident _ _ _ Hinv _ _ Hres).
Qed.

(** X18: in a state reached from the constructor [GetVictimPage] leaves the
    defined behaviour in one case only: the frame at the front of the free
    list carries a page id other than [INVALID_PAGE_ID], which fails the
    first assertion.  The assertion on the pin count never fails, and the
    replacer never hands out a null or foreign pointer. *)
Theorem GetVictimPage_fails_iff pool_size (s : BufferPoolManager) :
  reachable pool_size s →
  GetVictimPage s = None ↔
  ∃ f rest pg, free_list_ s = Some f :: rest ∧ pages_ s !! f = Some pg ∧
               page_id_ pg ≠ INVALID_PAGE_ID.
Proof.
  intros Hinv%reachable_inv. pose proof Hinv as [H1 H2 H3 H4 H5 H6 H7 H8 H9].
  rewrite /BPM.GetVictimPage. destruct (free_list_ s) as [|x rest] eqn:Hfree.
  - split; [|by intros (? & ? & ? & ? & _)].
    case_decide as Hsz; [done|].
    pose proof (valid_model None _ H2) as Hmod.
    rewrite (model_Size None _ _ Hmod) in Hsz.
    destruct (snoc_cases (LRU.contents (replacer_ s))) as [Hc|(l0 & v0 & Hc)];
      rewrite Hc in Hsz, Hmod; [done|].
    destruct (Victim_model None _ _ _ None Hmod) as (r & Hv & _).
    rewrite Hv /=.
    destruct (H4 v0) as (f & pg & -> & Hpg & Hpin).
    { rewrite Hc. apply elem_of_app. right. by left. }
    by rewrite /= Hpg /= decide_True.
  - destruct (H5 x) as (f & pg & -> & Hpg & Hpin & _); [by left|].
    rewrite /= Hpg /=. split.
    + intros Hrun. exists f, rest, pg. split_and!; [done..|].
      intros Hid. by rewrite !decide_True in Hrun.
    + intros (f' & rest' & pg' & [= <- <-] & Hpg' & Hid).
      assert (pg' = pg) as -> by congruence. by rewrite decide_False.
Qed.

Lemma not_resident_Find (s : BufferPoolManager) page_id :
  inv s → (∀ f, ¬ resident page_id f s) →
  EH.Find HashKey page_id None (page_table_ s) = Some (false, None).
Proof.
  intros Hinv Hno. pose proof (inv_table _ _ _ Hinv) as Hwf.
  destruct (Find_cases HashKey (page_table_ s) page_id None Hwf)
    as [(x & Hst & Hf)|[_ Hf]]; [|done].
  destruct (inv_resident _ _ _ Hinv _ _ Hst) as (f & pg & -> & _).
  by destruct (Hno f).
Qed.

Lemma resident_frame (s : BufferPoolManager) page_id f :
  inv s → resident page_id f s →
  ∃ pg, pages_ s !! f = Some pg ∧ page_id_ pg = page_id ∧ 0 ≤ pin_count_ pg ∧
        (Some f ∉ free_list_ s) ∧
        (Some f ∈ LRU.contents (replacer_ s) → pin_count_ pg = 0).
Proof.
  intros Hinv Hres. pose proof (inv_table _ _ _ Hinv) as Hwf.
  apply resident_stored in Hres; [|done].
  destruct (inv_resident _ _ _ Hinv _ _ Hres) as (f' & pg & [= <-] & Hpg & Hid).
  exists pg. split_and!; [done..|by apply (inv_pin _ _ _ Hinv f)
                             |by apply (inv_free_resident _ _ _ Hinv page_id)|].
  intros Hin. destruct (inv_evictable _ _ _ Hinv _ Hin) as (f' & pg' & [= <-] & Hpg' & Hz).
  congruence.
Qed.

(** X19: a [FetchPage] of a page that is not resident, when the free list
    and the replacer are both empty, returns the null pointer and leaves
    the state, the call log of the disk manager included, as it was. *)
Theorem FetchPage_exhausted pool_size (s : BufferPoolManager) fuel page_id :
  reachable pool_size s → (∀ f, ¬ resident page_id f s) →
  free_list_ s = [] → LRU.Size (replacer_ s) = 0%nat →
  FetchPage fuel page_id s = Some (None, s).
Proof.
  intros Hinv%reachable_inv Hno Hfree Hsz.
  rewrite /BPM.FetchPage (not_resident_Find s page_id Hinv Hno) /=.
  by rewrite /BPM.GetVictimPage Hfree decide_True.
Qed.

(** X20: [FlushPage] of a resident page with a valid page id returns true;
    it writes the payload of the frame to the disk manager exactly when
    the frame is dirty, and leaves the frame clean with its pin count, and
    the page table, the replacer and the free list, as they were.  A
    second [FlushPage] makes no further call on the disk manager. *)
Theorem FlushPage_writes_once pool_size (s : BufferPoolManager) page_id f pg :
  reachable pool_size s → resident page_id f s → pages_ s !! f = Some pg →
  page_id ≠ INVALID_PAGE_ID →
  ∃ s', FlushPage page_id s = Some (true, s') ∧
    pages_ s' = <[f := mkPage (data_ pg) page_id (pin_count_ pg) false]> (pages_ s) ∧
    disk_manager_ s' =
      disk_manager_ s ++ (if is_dirty_ pg then [WritePage page_id (data_ pg)] else []) ∧
    page_table_ s' = page_table_ s ∧ replacer_ s' = replacer_ s ∧
    free_list_ s' = free_list_ s ∧
    FlushPage page_id s' = Some (true, s').
Proof.
  intros Hinv%reachable_inv Hres Hpg0 Hid.
  destruct (resident_frame s page_id f Hinv Hres) as (pg' & Hpg & Hpid & _).
  assert (pg' = pg) as -> by congruence. clear Hpg0.
  pose proof (lookup_lt_Some _ _ _ Hpg) as Hlt.
  rewrite /BPM.FlushPage. rewrite /BPM.resident in Hres.
  rewrite Hres /= Hpg /= decide_False; [|congruence].
  destruct pg as [d pid pin dirty]. simpl in *. subst pid.
  destruct dirty; simpl.
  - eexists. split_and!; try done.
    rewrite /= Hres /= list_lookup_insert_eq //= decide_False //.
  - exists s. split_and!; try done.
    + by rewrite list_insert_id.
    + by rewrite app_nil_r.
    + by rewrite Hres /= Hpg /= decide_False.
Qed.

(** What [DeletePage] does to a resident page with no pin. *)
Lemma DeletePage_unpinned (s : BufferPoolManager) page_id f pg :
  inv s → resident page_id f s → pages_ s !! f = Some pg → pin_count_ pg = 0 →
  ∃ r b pt,
    LRU.Erase (Some f) (replacer_ s) = Some (b, r) ∧
    LRU.valid None r ∧
    LRU.contents r = filter (λ x, x ≠ Some f) (LRU.contents (replacer_ s)) ∧
    EH.Remove HashKey page_id (page_table_ s) = Some (true, pt) ∧
    EH.wf HashKey pt ∧
    DeletePage page_id s =
      Some (true,
            mkBPM (pool_size_ s)
                  (<[f := mkPage zeroed (page_id_ pg) 0 false]> (pages_ s))
                  pt r (free_list_ s ++ [Some f])
                  (disk_manager_ s ++ [DeallocatePage page_id])).
Proof.
  intros Hinv Hres Hpg Hpin.
  pose proof (valid_model None _ (inv_replacer _ _ _ Hinv)) as Hmod.
  destruct (Erase_model None _ _ (Some f) Hmod) as (r & Her & Hmodr & _).
  destruct (Remove_wf _ page_id _ (inv_table _ _ _ Hinv)) as (b1 & pt & Hrem & Hwf1 & _).
  assert (b1 = true) as ->.
  { pose proof (Remove_fst_Find HashKey page_id None _ _ _ Hrem) as Hb.
    rewrite /BPM.resident in Hres. rewrite Hres /= in Hb. congruence. }
  eexists r, _, pt. split_and!; [done|by eexists|by apply (model_contents None)|done..|].
  rewrite /BPM.resident in Hres.
  rewrite /BPM.DeletePage Hres /= Hpg /= decide_False; [|lia].
  by rewrite Her /= Hrem /= /BPM.ResetMemory /= Hpin.
Qed.

(** X21: [DeletePage] of a resident page returns false and changes nothing
    while the frame has a pin.  With no pin it returns true: the binding is
    removed from the page table and the frame from the replacer, the
    payload is zeroed and the dirty flag cleared without a write-back, the
    frame goes to the back of the free list, and [DeallocatePage] is the
    one call on the disk manager.  The frame keeps the page id it had. *)
Theorem DeletePage_resident pool_size (s : BufferPoolManager) page_id f pg :
  reachable pool_size s → resident page_id f s → pages_ s !! f = Some pg →
  (0 < pin_count_ pg → DeletePage page_id s = Some (false, s)) ∧
  (pin_count_ pg = 0 →
   ∃ s', DeletePage page_id s = Some (true, s') ∧
     pages_ s' = <[f := mkPage zeroed page_id 0 false]> (pages_ s) ∧
     free_list_ s' = free_list_ s ++ [Some f] ∧
     LRU.contents (replacer_ s') =
       filter (λ x, x ≠ Some f) (LRU.contents (replacer_ s)) ∧
     (∀ f', ¬ resident page_id f' s') ∧
     (∀ q f', q ≠ page_id → resident q f' s' ↔ resident q f' s) ∧
     disk_manager_ s' = disk_manager_ s ++ [DeallocatePage page_id]).
Proof.
  intros Hinv%reachable_inv Hres Hpg0.
  destruct (resident_frame s page_id f Hinv Hres) as (pg' & Hpg & Hpid & _).
  assert (pg' = pg) as -> by congruence. clear Hpg0.
  split.
  - intros Hpin. rewrite /BPM.resident in Hres.
    rewrite /BPM.DeletePage Hres /= Hpg /= decide_True //. lia.
  - intros Hpin.
    destruct (DeletePage_unpinned s page_id f pg Hinv Hres Hpg Hpin)
      as (r & b & pt & Her & Hr & Hc & Hrem & Hwf1 & ->).
    pose proof (inv_table _ _ _ Hinv) as Hwf.
    eexists. split; [done|]. simpl. rewrite Hpid. split_and!; try done.
    + intros f' Hres'. rewrite /BPM.resident /= in Hres'.
      by rewrite (Remove_Find _ _ None _ _ _ Hrem) in Hres'.
    + intros q f' Hne. rewrite /BPM.resident /=.
      by rewrite (Remove_Find_other HashKey page_id q None true _ pt Hwf Hrem Hne).
Qed.

(** X22: once [DeletePage] has put a frame that still carries a valid page
    id on an empty free list, [GetVictimPage] fails its assertion on the
    page id of a free frame: the next [NewPage], or [FetchPage] of the
    deleted page, leaves the defined behaviour. *)
Theorem DeletePage_then_NewPage_fails pool_size (s : BufferPoolManager) page_id f pg :
  reachable pool_size s → resident page_id f s →
  pages_ s !! f = Some pg → pin_count_ pg = 0 →
  page_id ≠ INVALID_PAGE_ID → free_list_ s = [] →
  ∃ s', DeletePage page_id s = Some (true, s') ∧
    (∀ fuel q, NewPage fuel q s' = None) ∧
    (∀ fuel, FetchPage fuel page_id s' = None).
Proof.
  intros Hinv%reachable_inv Hres Hpg Hpin Hid Hfree.
  destruct (resident_frame s page_id f Hinv Hres) as (pg' & Hpg' & Hpid & _).
  assert (pg' = pg) as -> by congruence.
  pose proof (lookup_lt_Some _ _ _ Hpg) as Hlt.
  destruct (DeletePage_unpinned s page_id f pg Hinv Hres Hpg Hpin)
    as (r & b & pt & Her & Hr & Hc & Hrem & Hwf1 & ->).
  eexists. split; [done|].
  assert (GetVictimPage
            (mkBPM (pool_size_ s)
                   (<[f := mkPage zeroed (page_id_ pg) 0 false]> (pages_ s))
                   pt r (free_list_ s ++ [Some f])
                   (disk_manager_ s ++ [DeallocatePage page_id])) = None) as Hvic.
  { rewrite /BPM.GetVictimPage /= Hfree /= list_lookup_insert_eq //=.
    rewrite decide_False //. congruence. }
  split.
  - intros fuel q. by rewrite /BPM.NewPage Hvic.
  - intros fuel. rewrite /BPM.FetchPage /=.
    by rewrite (Remove_Find _ _ None _ _ _ Hrem) /= Hvic.
Qed.

(** The tail of [NewPage] and of a [FetchPage] that misses returns when
    room can be found in the page table. *)
Lemma rebind_returns (pt : EH.ExtendibleHash (K := Z) (V := PagePtr)) old page_id f :
  EH.wf HashKey pt →
  (∀ b pt1, EH.Remove HashKey old pt = Some (b, pt1) → EH.fits HashKey page_id pt1) →
  ∃ b pt1 pt2,
    EH.Remove HashKey old pt = Some (b, pt1) ∧
    EH.Insert HashKey 32 page_id (Some f) pt1 = Some pt2 ∧
    EH.Find HashKey page_id None pt2 = Some (true, Some f) ∧
    (old ≠ page_id → EH.Find HashKey old None pt2 = Some (false, None)) ∧
    (∀ q, q ≠ page_id → q ≠ old →
          EH.Find HashKey q None pt2 = EH.Find HashKey q None pt).
Proof.
  intros Hwf Hfits.
  destruct (Remove_wf _ old _ Hwf) as (b & pt1 & Hrem & Hwf1 & _).
  destruct (Insert_fits_returns HashKey pt1 page_id (Some f) Hwf1 (Hfits _ _ Hrem))
    as [pt2 Hins].
  exists b, pt1, pt2. split_and!; [done..|by eapply Insert_Find| |].
  - intros Hne. rewrite (Insert_Find_other HashKey 32 page_id (Some f) old None pt1 pt2) //.
    by eapply Remove_Find.
  - intros q Hq Hq'.
    rewrite (Insert_Find_other HashKey 32 page_id (Some f) q None pt1 pt2) //.
    by eapply Remove_Find_other.
Qed.

(** X23: [NewPage] takes the frame at the front of the free list, also
    when the replacer holds frames.  Provided that this frame carries
    [INVALID_PAGE_ID] and that the page table finds room for the new
    binding, it asks the disk manager for a page id, binds the frame to
    it, and returns the frame zeroed, clean and pinned once; the replacer
    is untouched and the bindings of the other valid page ids are kept. *)
Theorem NewPage_takes_free_frame pool_size (s : BufferPoolManager) f rest pg page_id :
  reachable pool_size s → free_list_ s = Some f :: rest →
  pages_ s !! f = Some pg → page_id_ pg = INVALID_PAGE_ID →
  (∀ b pt1, EH.Remove HashKey INVALID_PAGE_ID (page_table_ s) = Some (b, pt1) →
            EH.fits HashKey (disk_alloc (disk_manager_ s)) pt1) →
  let new_id := disk_alloc (disk_manager_ s) in
  ∃ s', NewPage 32 page_id s = Some (Some f, new_id, s') ∧
    pages_ s' = <[f := mkPage zeroed new_id 1 false]> (pages_ s) ∧
    free_list_ s' = rest ∧
    replacer_ s' = replacer_ s ∧
    resident new_id f s' ∧
    (∀ q f', q ≠ new_id → q ≠ INVALID_PAGE_ID → resident q f' s' ↔ resident q f' s) ∧
    disk_manager_ s' = disk_manager_ s ++ [AllocatePage].
Proof.
  intros Hinv%reachable_inv Hfree Hpg Hid Hfits new_id.
  destruct (inv_free _ _ _ Hinv (Some f)) as (f' & pg' & [= <-] & Hpg' & Hpin & Hclean).
  { rewrite Hfree. by left. }
  assert (pg' = pg) as -> by congruence.
  destruct (rebind_returns (page_table_ s) INVALID_PAGE_ID new_id f
              (inv_table _ _ _ Hinv) Hfits)
    as (b & pt1 & pt2 & Hrem & Hins & Hnew & _ & Hother).
  rewrite /BPM.NewPage /BPM.GetVictimPage Hfree /= Hpg /=.
  rewrite Hid !decide_True //= Hpg /= Hclean Hid /= Hrem /=.
  fold new_id. rewrite Hins /= Hpg /=.
  eexists. split; [done|]. simpl. split_and!; try done.
  intros q f' Hq Hq'. by rewrite /BPM.resident /= Hother.
Qed.

(** X24: a [FetchPage] that misses with an empty free list evicts the frame
    at the least recent end of the replacer, which has no pin.  Provided
    the page table finds room for the new binding, the old page is written
    back first when the frame is dirty, its binding is removed, the frame
    is bound to the requested page, filled by [ReadPage], and returned
    clean and pinned once.  The other frames of the replacer keep their
    order and the other bindings are kept. *)
Theorem FetchPage_evicts_lru pool_size (s : BufferPoolManager) page_id l f pg :
  reachable pool_size s → (∀ f', ¬ resident page_id f' s) →
  free_list_ s = [] → LRU.contents (replacer_ s) = l ++ [Some f] →
  pages_ s !! f = Some pg →
  (∀ b pt1, EH.Remove HashKey (page_id_ pg) (page_table_ s) = Some (b, pt1) →
            EH.fits HashKey page_id pt1) →
  let wb := if is_dirty_ pg then [WritePage (page_id_ pg) (data_ pg)] else [] in
  pin_count_ pg = 0 ∧
  ∃ s', FetchPage 32 page_id s = Some (Some f, s') ∧
    pages_ s' =
      <[f := mkPage (disk_read (disk_manager_ s ++ wb) page_id) page_id 1 false]>
        (pages_ s) ∧
    LRU.contents (replacer_ s') = l ∧
    free_list_ s' = [] ∧
    resident page_id f s' ∧
    (page_id_ pg ≠ page_id → ∀ f', ¬ resident (page_id_ pg) f' s') ∧
    (∀ q f', q ≠ page_id → q ≠ page_id_ pg → resident q f' s' ↔ resident q f' s) ∧
    disk_manager_ s' = disk_manager_ s ++ wb ++ [ReadPage page_id].
Proof.
  intros Hinv%reachable_inv Hno Hfree Hc Hpg0 Hfits wb.
  destruct (inv_evictable _ _ _ Hinv (Some f)) as (f' & pg' & [= <-] & Hpg & Hpin).
  { rewrite Hc. apply elem_of_app. right. by left. }
  assert (pg' = pg) as -> by congruence. clear Hpg0.
  split; [done|].
  pose proof (valid_model None _ (inv_replacer _ _ _ Hinv)) as Hmod.
  rewrite Hc in Hmod.
  destruct (Victim_model None _ _ _ None Hmod) as (r & Hv & Hmodr & _).
  assert (LRU.Size (replacer_ s) ≠ 0%nat) as Hsz.
  { rewrite (model_Size None _ _ Hmod) length_app /=. lia. }
  destruct (rebind_returns (page_table_ s) (page_id_ pg) page_id f
              (inv_table _ _ _ Hinv) Hfits)
    as (b & pt1 & pt2 & Hrem & Hins & Hnew & Hold & Hother).
  rewrite /BPM.FetchPage (not_resident_Find s page_id Hinv Hno) /=.
  rewrite /BPM.GetVictimPage Hfree decide_False //= Hv /= Hpg /= decide_True //=.
  rewrite Hpg /=. subst wb.
  destruct (is_dirty_ pg); simpl; rewrite Hrem /= Hins /= Hpg /=.
  all: eexists; split; [done|]; simpl.
  all: split_and!; try done.
  all: try by apply (model_contents None).
  all: try (by rewrite app_nil_r).
  all: try (by rewrite -assoc).
  all: try (intros Hne f'; rewrite /BPM.resident /= Hold //).
  all: intros q f' Hq Hq'; by rewrite /BPM.resident /= Hother.
Qed.


(** X26: a [NewPage] with an empty free list evicts the frame at the least
    recent end of the replacer, which has no pin.  Provided the page table
    finds room for the new binding, after [AllocatePage] the old page is
    written back when the frame is dirty, its binding is removed, and the
    frame is bound to the new page id and returned zeroed, clean and pinned
    once.  The other frames of the replacer keep their order and the other
    bindings are kept. *)
Theorem NewPage_evicts_lru pool_size (s : BufferPoolManager) page_id l f pg :
  reachable pool_size s →
  free_list_ s = [] → LRU.contents (replacer_ s) = l ++ [Some f] →
  pages_ s !! f = Some pg →
  (∀ b pt1, EH.Remove HashKey (page_id_ pg) (page_table_ s) = Some (b, pt1) →
            EH.fits HashKey (disk_alloc (disk_manager_ s)) pt1) →
  let new_id := disk_alloc (disk_manager_ s) in
  pin_count_ pg = 0 ∧
  ∃ s', NewPage 32 page_id s = Some (Some f, new_id, s') ∧
    pages_ s' = <[f := mkPage zeroed new_id 1 false]> (pages_ s) ∧
    LRU.contents (replacer_ s') = l ∧
    free_list_ s' = [] ∧
    resident new_id f s' ∧
    (page_id_ pg ≠ new_id → ∀ f', ¬ resident (page_id_ pg) f' s') ∧
    (∀ q f', q ≠ new_id → q ≠ page_id_ pg → resident q f' s' ↔ resident q f' s) ∧
    disk_manager_ s' =
      disk_manager_ s ++ AllocatePage ::
        (if is_dirty_ pg then [WritePage (page_id_ pg) (data_ pg)] else []).
Proof.
  intros Hinv%reachable_inv Hfree Hc Hpg0 Hfits new_id.
  destruct (inv_evictable _ _ _ Hinv (Some f)) as (f' & pg' & [= <-] & Hpg & Hpin).
  { rewrite Hc. apply elem_of_app. right. by left. }
  assert (pg' = pg) as -> by congruence. clear Hpg0.
  split; [done|].
  pose proof (valid_model None _ (inv_replacer _ _ _ Hinv)) as Hmod.
  rewrite Hc in Hmod.
  destruct (Victim_model None _ _ _ None Hmod) as (r & Hv & Hmodr & _).
  assert (LRU.Size (replacer_ s) ≠ 0%nat) as Hsz.
  { rewrite (model_Size None _ _ Hmod) length_app /=. lia. }
  destruct (rebind_returns (page_table_ s) (page_id_ pg) new_id f
              (inv_table _ _ _ Hinv) Hfits)
    as (b & pt1 & pt2 & Hrem & Hins & Hnew & Hold & Hother).
  rewrite /BPM.NewPage.
  rewrite /BPM.GetVictimPage Hfree decide_False //= Hv /= Hpg /= decide_True //=.
  rewrite Hpg /=. fold new_id.
  destruct (is_dirty_ pg); simpl; rewrite Hrem /= Hins /= Hpg /=.
  all: eexists; split; [done|]; simpl.
  all: split_and!; try done.
  all: try by apply (model_contents None).
  all: try (by rewrite -assoc).
  all: try (intros Hne f'; rewrite /BPM.resident /= Hold //).
  all: intros q f' Hq Hq'; by rewrite /BPM.resident /= Hother.
Qed.

(** X27: [FlushPage] returns false, and leaves the state and the call log
    of the disk manager as they were, for a page that is not resident, and
    for [INVALID_PAGE_ID] even when the page table binds it. *)
Theorem FlushPage_refuses pool_size (s : BufferPoolManager) page_id :
  reachable pool_size s →
  (∀ f, ¬ resident page_id f s) ∨ page_id = INVALID_PAGE_ID →
  FlushPage page_id s = Some (false, s).
Proof.
  intros Hinv%reachable_inv Hcase.
  destruct Hcase as [Hno| ->].
  - by rewrite /BPM.FlushPage (not_resident_Find s page_id Hinv Hno).
  - rewrite /BPM.FlushPage.
    destruct (EH.Find HashKey INVALID_PAGE_ID None (page_table_ s))
      as [[b tar]|] eqn:Hfind.
    + destruct (inv_Find s _ b tar Hinv Hfind)
        as [[-> ->]|(f & pg & -> & -> & Hpg & Hid & _)]; [done|].
      by rewrite /= Hpg /= decide_True.
    + destruct (Find_cases HashKey (page_table_ s) INVALID_PAGE_ID None
                  (inv_table _ _ _ Hinv)) as [(x & _ & Hf)|[_ Hf]].
      all: by pose proof (eq_trans (eq_sym Hfind) Hf).
Qed.

(** X29: when every frame of the pool has a pin, the free list and the
    replacer are empty: [NewPage], and a [FetchPage] of a page that is not
    resident, return the null pointer and leave the state as it was. *)
Theorem all_pinned_exhausted pool_size (s : BufferPoolManager) fuel page_id q :
  reachable pool_size s →
  (∀ f pg, pages_ s !! f = Some pg → 0 < pin_count_ pg) →
  (∀ f, ¬ resident q f s) →
  free_list_ s = [] ∧ LRU.Size (replacer_ s) = 0%nat ∧
  NewPage fuel page_id s = Some (None, page_id, s) ∧
  FetchPage fuel q s = Some (None, s).
Proof.
  intros Hinv%reachable_inv Hall Hno.
  assert (free_list_ s = []) as Hfree.
  { destruct (free_list_ s) as [|x rest] eqn:Hfree; [done|].
    destruct (inv_free _ _ _ Hinv x) as (f & pg & _ & Hpg & Hpin & _).
    { rewrite Hfree. by left. }
    pose proof (Hall f pg Hpg). lia. }
  assert (LRU.Size (replacer_ s) = 0%nat) as Hsz.
  { pose proof (valid_model None _ (inv_replacer _ _ _ Hinv)) as Hmod.
    rewrite (model_Size None _ _ Hmod).
    destruct (LRU.contents (replacer_ s)) as [|x rest] eqn:Hc;
      [exact (f_equal length Hc)|].
    assert (x ∈ x :: rest) as Hin by by left.
    destruct (inv_evictable _ _ _ Hinv x (eq_ind_r (λ l, x ∈ l) Hin Hc))
      as (f & pg & _ & Hpg & Hpin).
    pose proof (Hall f pg Hpg). lia. }
  split_and!; [done..| |].
  - by rewrite /BPM.NewPage /BPM.GetVictimPage Hfree decide_True.
  - rewrite /BPM.FetchPage (not_resident_Find s q Hinv Hno) /=.
    by rewrite /BPM.GetVictimPage Hfree decide_True.
Qed.

(** What a [FetchPage] that misses tells the disk manager when it takes
    its frame from the replacer. *)
Lemma FetchPage_miss_evicts (s : BufferPoolManager) page_id l f pg :
  inv s → (∀ f', ¬ resident page_id f' s) →
  free_list_ s = [] → LRU.contents (replacer_ s) = l ++ [Some f] →
  pages_ s !! f = Some pg →
  (∀ b pt1, EH.Remove HashKey (page_id_ pg) (page_table_ s) = Some (b, pt1) →
            EH.fits HashKey page_id pt1) →
  ∃ s', FetchPage 32 page_id s = Some (Some f, s') ∧
    pages_ s' =
      <[f := mkPage (disk_read
                       (disk_manager_ s ++
                        if is_dirty_ pg then [WritePage (page_id_ pg) (data_ pg)] else [])
                       page_id) page_id 1 false]> (pages_ s) ∧
    disk_manager_ s' =
      disk_manager_ s ++
      (if is_dirty_ pg then [WritePage (page_id_ pg) (data_ pg)] else []) ++
      [ReadPage page_id].
Proof.
  intros Hinv Hno Hfree Hc Hpg0 Hfits.
  destruct (inv_evictable _ _ _ Hinv (Some f)) as (f' & pg' & [= <-] & Hpg & Hpin).
  { rewrite Hc. apply elem_of_app. right. by left. }
  assert (pg' = pg) as -> by congruence. clear Hpg0.
  pose proof (valid_model None _ (inv_replacer _ _ _ Hinv)) as Hmod.
  rewrite Hc in Hmod.
  destruct (Victim_model None _ _ _ None Hmod) as (r & Hv & Hmodr & _).
  assert (LRU.Size (replacer_ s) ≠ 0%nat) as Hsz.
  { rewrite (model_Size None _ _ Hmod) length_app /=. lia. }
  destruct (rebind_returns (page_table_ s) (page_id_ pg) page_id f
              (inv_table _ _ _ Hinv) Hfits)
    as (b & pt1 & pt2 & Hrem & Hins & _).
  rewrite /BPM.FetchPage (not_resident_Find s page_id Hinv Hno) /=.
  rewrite /BPM.GetVictimPage Hfree decide_False //= Hv /= Hpg /= decide_True //=.
  rewrite Hpg /=.
  destruct (is_dirty_ pg); simpl; rewrite Hrem /= Hins /= Hpg /=.
  all: eexists; split; [done|]; simpl.
  all: split; try done.
  all: try (by rewrite app_nil_r).
  by rewrite -assoc.
Qed.

(** C1 (defect of the code): [UnpinPage] assigns the flag it is passed.  A
    frame pinned once and marked dirty is clean after [UnpinPage(p, false)],
    where the OR of the two flags is true; no call has reached the disk
    manager, and the frame is now the one the replacer gives out.  The
    [FetchPage] of another page that follows reuses the frame: [ReadPage]
    is its only call on the disk manager, and the payload that was marked
    dirty is neither written back nor kept. *)
Theorem UnpinPage_false_loses_update pool_size (s : BufferPoolManager) page_id f pg q :
  reachable pool_size s → resident page_id f s → pages_ s !! f = Some pg →
  pin_count_ pg = 1 → is_dirty_ pg = true →
  free_list_ s = [] → LRU.contents (replacer_ s) = [] →
  (∀ f', ¬ resident q f' s) →
  (∀ b pt1, EH.Remove HashKey page_id (page_table_ s) = Some (b, pt1) →
            EH.fits HashKey q pt1) →
  ∃ s1 s2,
    UnpinPage page_id false s = Some (true, s1) ∧
    pages_ s1 = <[f := mkPage (data_ pg) page_id 0 false]> (pages_ s) ∧
    is_dirty_ <$> pages_ s1 !! f ≠ Some (is_dirty_ pg || false) ∧
    LRU.contents (replacer_ s1) = [Some f] ∧
    disk_manager_ s1 = disk_manager_ s ∧
    FetchPage 32 q s1 = Some (Some f, s2) ∧
    pages_ s2 = <[f := mkPage (disk_read (disk_manager_ s) q) q 1 false]> (pages_ s) ∧
    disk_manager_ s2 = disk_manager_ s ++ [ReadPage q].
Proof.
  intros Hreach Hres Hpg0 Hpin Hdirty Hfree Hc Hno Hfits.
  pose proof (reachable_inv _ _ Hreach) as Hinv.
  destruct (resident_frame s page_id f Hinv Hres) as (pg' & Hpg & Hpid & _).
  assert (pg' = pg) as -> by congruence. clear Hpg0.
  pose proof (lookup_lt_Some _ _ _ Hpg) as Hlt.
  destruct (UnpinPage_overwrites_dirty HashKey s page_id false f pg Hres Hpg
              ltac:(lia) (inv_replacer _ _ _ Hinv))
    as (s1 & Hun & Hpages & Hflag & _ & Hc1 & _ & Htable & Hfree1 & Hdisk).
  specialize (Hc1 Hpin). rewrite Hc /= in Hc1.
  rewrite Hpid Hpin /= in Hpages.
  pose proof (UnpinPage_inv _ _ _ _ _ Hinv Hun) as Hinv1.
  destruct (FetchPage_miss_evicts s1 q [] f (mkPage (data_ pg) page_id 0 false))
    as (s2 & Hfetch & Hpages2 & Hdisk2).
  - done.
  - intros f'. rewrite /BPM.resident Htable. apply Hno.
  - by rewrite Hfree1.
  - done.
  - by rewrite Hpages list_lookup_insert_eq.
  - simpl. rewrite Htable. apply Hfits.
  - simpl in *. exists s1, s2. split_and!; try done.
    + rewrite Hflag Hdirty. done.
    + by rewrite Hpages2 Hpages Hdisk app_nil_r list_insert_insert_eq.
    + by rewrite Hdisk2 Hdisk.
Qed.

(** C2 (amended): for a page id that the page table does not map,
    [DeletePage] calls [DeallocatePage] on the disk manager, changes nothing
    else, and returns true.  [DeletePage] returns for every page id, and it
    returns false, leaving the state as it was, exactly when the page is
    resident in a frame with a positive pin count. *)
Theorem DeletePage_not_resident pool_size (s : BufferPoolManager) page_id q :
  reachable pool_size s → EH.absent page_id (page_table_ s) →
  DeletePage page_id s = Some (true, disk_call (DeallocatePage page_id) s) ∧
  ∃ b s', DeletePage q s = Some (b, s') ∧
    (b = false ↔
     ∃ f pg, resident q f s ∧ pages_ s !! f = Some pg ∧ 0 < pin_count_ pg) ∧
    (b = false → s' = s).
Proof.
  intros Hinv%reachable_inv Habs. pose proof (inv_table _ _ _ Hinv) as Hwf. split.
  - by rewrite /BPM.DeletePage (Find_absent HashKey _ _ None Hwf Habs).
  - destruct (Find_cases HashKey (page_table_ s) q None Hwf)
      as [(x & Hst & Hfind)|[Hab Hfind]].
    + destruct (inv_resident _ _ _ Hinv _ _ Hst) as (f & pg & -> & Hpg & Hid).
      pose proof (inv_pin _ _ _ Hinv f pg Hpg) as Hge.
      destruct (decide (0 < pin_count_ pg)) as [Hpos|Hzero].
      * exists false, s. split_and!; [|split; [|done]|done].
        -- rewrite /BPM.DeletePage Hfind /= Hpg /= decide_True //. lia.
        -- intros _. by exists f, pg.
      * destruct (DeletePage_unpinned s q f pg Hinv Hfind Hpg ltac:(lia))
          as (r & b & pt & _ & _ & _ & _ & _ & Hdel).
        eexists true, _. split_and!; [exact Hdel|split; [done|]|done].
        intros (f' & pg' & Hres' & Hpg' & Hpos').
        rewrite /BPM.resident in Hres'.
        pose proof (eq_trans (eq_sym Hfind) Hres') as [= <-].
        assert (pg' = pg) as -> by congruence. lia.
    + exists true, (disk_call (DeallocatePage q) s). split_and!; [|split; [done|]|done].
      * by rewrite /BPM.DeletePage Hfind.
      * intros (f' & pg' & Hres' & _). rewrite /BPM.resident in Hres'.
        pose proof (eq_trans (eq_sym Hfind) Hres') as [=].
Qed.

End bpm_more.

(** ** The further theorems at concrete states *)

Section concrete_more.
Import Demo.

Lemma reachable_eh_two : EH.reachable hash_int 2 eh_two.
Proof.
  apply (EH.reach_Insert _ _
           (default (EH.ExtendibleHash_new 2)
                    (EH.Insert hash_int 1 0 10 (EH.ExtendibleHash_new 2)))
           1%nat 2 20); [|by vm_compute].
  apply (EH.reach_Insert _ _ (EH.ExtendibleHash_new 2) 1%nat 0 10); [|by vm_compute].
  apply EH.reach_new.
Defined.

Lemma valid_lru_three : LRU.valid 0 lru_three.
Proof.
  destruct (run_model 0 [LRU.OpInsert 1; LRU.OpInsert 2; LRU.OpInsert 3])
    as (s & l & Hrun & Hmod & _).
  vm_compute in Hrun. injection Hrun as <-. by exists l.
Defined.

Local Abbreviation reachable_bpm :=
  (BPM.reachable (Data := Z) 0 (-1) 2 hash_int alloc read 1).

Lemma reachable_bpm0 : reachable_bpm bpm0.
Proof. apply BPM.reach_init. Defined.

Lemma reachable_bpm1 : reachable_bpm bpm1.
Proof.
  apply (BPM.reach_New _ _ _ _ _ _ _ _ bpm0 1%nat 0 (Some 0%nat) 0);
    [exact reachable_bpm0|by vm_compute].
Defined.

Lemma reachable_bpm2 : reachable_bpm bpm2.
Proof.
  apply (BPM.reach_Unpin _ _ _ _ _ _ _ _ bpm1 0 false true);
    [exact reachable_bpm1|by vm_compute].
Defined.

Lemma reachable_bpm3 : reachable_bpm bpm3.
Proof.
  apply (BPM.reach_Unpin _ _ _ _ _ _ _ _
           (default bpm1 (snd <$> BPM.FetchPage (-1) hash_int read 1 0 bpm1))
           0 true true); [|by vm_compute].
  apply (BPM.reach_Fetch _ _ _ _ _ _ _ _ bpm1 1%nat 0 (Some 0%nat));
    [exact reachable_bpm1|by vm_compute].
Defined.

Lemma reachable_bpm4 : reachable_bpm bpm4.
Proof.
  apply (BPM.reach_Delete _ _ _ _ _ _ _ _ bpm2 0 true);
    [exact reachable_bpm2|by vm_compute].
Defined.

Lemma Find_iff_stored_witness :
  (∀ v, EH.Find hash_int 4 0 eh_three = Some (true, v) ↔ EH.stored 4 v eh_three) ∧
  (EH.Find hash_int 4 0 eh_three = Some (false, 0) ↔ EH.absent 4 eh_three) ∧
  (∀ b b' bk bk', EH.store eh_three !! b = Some bk → EH.store eh_three !! b' = Some bk' →
     is_Some (EH.kmap bk !! 4) → is_Some (EH.kmap bk' !! 4) → b = b').
Proof. exact (Find_iff_stored hash_int 2 eh_three 4 0 reachable_eh_three). Defined.

Lemma Insert_keeps_other_keys_witness :
  EH.Insert hash_int 3 4 40 eh_two = Some eh_three ∧
  EH.Find hash_int 2 0 eh_three = EH.Find hash_int 2 0 eh_two.
Proof.
  split; [reflexivity|].
  apply (Insert_keeps_other_keys hash_int 2 eh_two eh_three 3 4 40 2 0).
  - exact reachable_eh_two.
  - reflexivity.
  - lia.
Defined.

Lemma Remove_spec_witness :
  ∃ b s', EH.Remove hash_int 4 eh_three = Some (b, s') ∧
    fst <$> EH.Find hash_int 4 0 eh_three = Some b ∧
    (∀ key' w', key' ≠ 4 → EH.Find hash_int key' w' s' = EH.Find hash_int key' w' eh_three) ∧
    EH.GetGlobalDepth s' = EH.GetGlobalDepth eh_three ∧
    EH.buckets s' = EH.buckets eh_three ∧
    EH.GetNumBuckets s' = EH.GetNumBuckets eh_three ∧
    (b = false → s' = eh_three).
Proof. exact (Remove_spec hash_int 2 eh_three 4 0 reachable_eh_three). Defined.

Lemma bucket_capacity_witness :
  ∃ bk, EH.store eh_three !! 0%nat = Some bk ∧ (size (EH.kmap bk) ≤ 2)%nat.
Proof.
  eexists. split; [reflexivity|].
  apply (bucket_capacity hash_int 2 eh_three 0%nat _ reachable_eh_three). reflexivity.
Defined.

Lemma GetNumBuckets_distinct_witness :
  EH.GetNumBuckets eh_three = Z.of_nat (length (remove_dups (EH.buckets eh_three))) ∧
  1 ≤ EH.GetNumBuckets eh_three ≤ 2 ^ EH.GetGlobalDepth eh_three.
Proof. exact (GetNumBuckets_distinct hash_int 2 eh_three reachable_eh_three). Defined.

Lemma Insert_splits_iff_full_witness :
  ∃ bk, EH.target hash_int 4 eh_two = Some bk ∧
    ((((size (EH.kmap bk) < 2)%nat ∨ is_Some (EH.kmap bk !! 4)) ↔
      EH.GetNumBuckets eh_three = EH.GetNumBuckets eh_two) ∧
     (EH.GetNumBuckets eh_three = EH.GetNumBuckets eh_two →
      EH.buckets eh_three = EH.buckets eh_two ∧
      EH.GetGlobalDepth eh_three = EH.GetGlobalDepth eh_two) ∧
     EH.GetGlobalDepth eh_two ≤ EH.GetGlobalDepth eh_three ∧
     EH.GetGlobalDepth eh_three - EH.GetGlobalDepth eh_two
       ≤ EH.GetNumBuckets eh_three - EH.GetNumBuckets eh_two).
Proof.
  eexists. split; [reflexivity|].
  apply (Insert_splits_iff_full hash_int 2 eh_two eh_three 3 4 40).
  - exact reachable_eh_two.
  - reflexivity.
  - reflexivity.
Defined.

Lemma GetLocalDepth_range_witness :
  (2 ^ EH.GetGlobalDepth eh_three ≤ Z.of_nat 1 → EH.GetLocalDepth 1 eh_three = None) ∧
  (Z.of_nat 1 < 2 ^ EH.GetGlobalDepth eh_three →
   ∃ b bk, EH.buckets eh_three !! 1%nat = Some b ∧ EH.store eh_three !! b = Some bk ∧
     0 ≤ EH.localDepth bk ≤ EH.GetGlobalDepth eh_three ∧
     (EH.kmap bk = ∅ → EH.GetLocalDepth 1 eh_three = Some (-1)) ∧
     (EH.kmap bk ≠ ∅ → EH.GetLocalDepth 1 eh_three = Some (EH.localDepth bk))).
Proof. exact (GetLocalDepth_range hash_int 2 eh_three 1 reachable_eh_three). Defined.

Lemma Insert_returns_distinct_hashes_witness :
  ∃ s', EH.Insert hash_int 32 8 80 eh_three = Some s'.
Proof.
  apply (Insert_returns_distinct_hashes hash_int 2 eh_three 8 80).
  - exact reachable_eh_three.
  - lia.
  - intros k v (b & bk & Hb & Hk) Hne.
    destruct b as [|[|[|b]]]; simpl in Hb; [..|done].
    all: injection Hb as <-.
    all: apply elem_of_map_to_list, list_elem_of_In in Hk.
    all: vm_compute in Hk.
    all: repeat (destruct Hk as [[= <- <-]|Hk]; [by vm_compute|]).
    all: destruct Hk.
Defined.

Lemma run_is_map_witness :
  EH.run hash_int 3 [EH.OpInsert 0 10; EH.OpInsert 2 20; EH.OpInsert 4 40]
         (EH.ExtendibleHash_new 2) = Some eh_three ∧
  EH.Find hash_int 2 0 eh_three =
    Some (match EH.denote [EH.OpInsert 0 10; EH.OpInsert 2 20; EH.OpInsert 4 40] ∅ !! 2 with
          | Some v => (true, v)
          | None => (false, 0)
          end).
Proof.
  split; [reflexivity|].
  apply (run_is_map hash_int 3 2 [EH.OpInsert 0 10; EH.OpInsert 2 20; EH.OpInsert 4 40]
           eh_three 2 0).
  reflexivity.
Defined.

Lemma Insert_moves_to_front_witness :
  ∃ s', LRU.Insert 2 lru_three = Some s' ∧ LRU.valid 0 s' ∧
    LRU.contents s' = 2 :: filter (λ w, w ≠ 2) (LRU.contents lru_three) ∧
    LRU.Size s' = if decide (2 ∈ LRU.contents lru_three)
                  then LRU.Size lru_three else S (LRU.Size lru_three).
Proof. exact (Insert_moves_to_front 0 lru_three 2 valid_lru_three). Defined.

Lemma Erase_removes_witness :
  ∃ s', LRU.Erase 2 lru_three = Some (bool_decide (2 ∈ LRU.contents lru_three), s') ∧
    LRU.valid 0 s' ∧
    LRU.contents s' = filter (λ w, w ≠ 2) (LRU.contents lru_three) ∧
    LRU.Size s' = (if decide (2 ∈ LRU.contents lru_three)
                   then Nat.pred (LRU.Size lru_three) else LRU.Size lru_three) ∧
    (2 ∉ LRU.contents lru_three → s' = lru_three).
Proof. exact (Erase_removes 0 lru_three 2 valid_lru_three). Defined.

Lemma drain_oldest_first_witness :
  LRU.contents lru_three = [3; 2; 1] ∧
  ∃ s', LRU.drain 0 (LRU.Size lru_three) lru_three
          = Some (reverse (LRU.contents lru_three), s') ∧
    LRU.contents s' = [] ∧ LRU.Size s' = 0%nat ∧
    LRU.Victim 7 s' = Some (false, 7, s').
Proof.
  split; [reflexivity|].
  exact (drain_oldest_first 0 lru_three 7 valid_lru_three).
Defined.

Lemma Insert_then_Erase_witness :
  ∃ s1 s2, LRU.Insert 5 lru_three = Some s1 ∧ LRU.Erase 5 s1 = Some (true, s2) ∧
    LRU.contents s2 = filter (λ w, w ≠ 5) (LRU.contents lru_three) ∧
    (5 ∉ LRU.contents lru_three →
     LRU.contents s2 = LRU.contents lru_three ∧ LRU.Size s2 = LRU.Size lru_three).
Proof. exact (Insert_then_Erase 0 lru_three 5 valid_lru_three). Defined.

Lemma resident_frame_holds_page_witness :
  BPM.resident hash_int 0 0 bpm2 ∧
  (∃ pg, BPM.pages_ bpm2 !! 0%nat = Some pg ∧ BPM.page_id_ pg = 0) ∧
  (∀ page_id', BPM.resident hash_int page_id' 0 bpm2 → page_id' = 0) ∧
  Some 0%nat ∉ BPM.free_list_ bpm2.
Proof.
  split; [reflexivity|].
  apply (resident_frame_holds_page 0 (-1) 2 hash_int alloc read 1 bpm2 0 0 reachable_bpm2).
  reflexivity.
Defined.

Lemma pinned_frame_not_evictable_witness :
  0 ≤ 1 ∧
  (1 ≠ 0 →
   (Some 0%nat ∉ LRU.contents (BPM.replacer_ bpm1)) ∧
   (Some 0%nat ∉ BPM.free_list_ bpm1) ∧
   ∀ s1, BPM.GetVictimPage (-1) bpm1 ≠ Some (Some 0%nat, s1)).
Proof.
  apply (pinned_frame_not_evictable 0 (-1) 2 hash_int alloc read 1 bpm1 0
           (BPM.mkPage 0 0 1 false) reachable_bpm1).
  reflexivity.
Defined.

Lemma free_frames_detached_witness :
  BPM.free_list_ bpm4 = [Some 0%nat] ∧
  NoDup (BPM.free_list_ bpm4) ∧ NoDup (LRU.contents (BPM.replacer_ bpm4)) ∧
  ∀ x, x ∈ BPM.free_list_ bpm4 →
    ∃ f, x = Some f ∧ is_Some (BPM.pages_ bpm4 !! f) ∧
         (Some f ∉ LRU.contents (BPM.replacer_ bpm4)) ∧
         ∀ page_id, ¬ BPM.resident hash_int page_id f bpm4.
Proof.
  split; [reflexivity|].
  exact (free_frames_detached 0 (-1) 2 hash_int alloc read 1 bpm4 reachable_bpm4).
Defined.

Lemma GetVictimPage_fails_iff_witness :
  BPM.GetVictimPage (-1) bpm4 = None ∧
  (BPM.GetVictimPage (-1) bpm4 = None ↔
   ∃ f rest pg, BPM.free_list_ bpm4 = Some f :: rest ∧
                BPM.pages_ bpm4 !! f = Some pg ∧ BPM.page_id_ pg ≠ -1).
Proof.
  split; [reflexivity|].
  exact (GetVictimPage_fails_iff 0 (-1) 2 hash_int alloc read 1 bpm4 reachable_bpm4).
Defined.

Lemma not_resident_7_bpm1 : ∀ f, ¬ BPM.resident hash_int 7 f bpm1.
Proof. intros f Hres. by vm_compute in Hres. Defined.

Lemma FetchPage_exhausted_witness :
  BPM.FetchPage (-1) hash_int read 3 7 bpm1 = Some (None, bpm1).
Proof.
  apply (FetchPage_exhausted 0 (-1) 2 hash_int alloc read 1 bpm1 3 7 reachable_bpm1).
  - exact not_resident_7_bpm1.
  - reflexivity.
  - reflexivity.
Defined.

Lemma FlushPage_writes_once_witness :
  ∃ s', BPM.FlushPage (-1) hash_int 0 bpm3 = Some (true, s') ∧
    BPM.pages_ s' = <[0%nat := BPM.mkPage 0 0 1 false]> (BPM.pages_ bpm3) ∧
    BPM.disk_manager_ s' = BPM.disk_manager_ bpm3 ++ [BPM.WritePage 0 0] ∧
    BPM.page_table_ s' = BPM.page_table_ bpm3 ∧
    BPM.replacer_ s' = BPM.replacer_ bpm3 ∧
    BPM.free_list_ s' = BPM.free_list_ bpm3 ∧
    BPM.FlushPage (-1) hash_int 0 s' = Some (true, s').
Proof.
  apply (FlushPage_writes_once 0 (-1) 2 hash_int alloc read 1 bpm3 0 0
           (BPM.mkPage 0 0 1 true) reachable_bpm3).
  - reflexivity.
  - reflexivity.
  - lia.
Defined.

Lemma DeletePage_resident_witness :
  (0 < 0 → BPM.DeletePage 0 hash_int 0 bpm2 = Some (false, bpm2)) ∧
  (0 = 0 →
   ∃ s', BPM.DeletePage 0 hash_int 0 bpm2 = Some (true, s') ∧
     BPM.pages_ s' = <[0%nat := BPM.mkPage 0 0 0 false]> (BPM.pages_ bpm2) ∧
     BPM.free_list_ s' = BPM.free_list_ bpm2 ++ [Some 0%nat] ∧
     LRU.contents (BPM.replacer_ s') =
       filter (λ x, x ≠ Some 0%nat) (LRU.contents (BPM.replacer_ bpm2)) ∧
     (∀ f', ¬ BPM.resident hash_int 0 f' s') ∧
     (∀ q f', q ≠ 0 → BPM.resident hash_int q f' s' ↔ BPM.resident hash_int q f' bpm2) ∧
     BPM.disk_manager_ s' = BPM.disk_manager_ bpm2 ++ [BPM.DeallocatePage 0]).
Proof.
  apply (DeletePage_resident 0 (-1) 2 hash_int alloc read 1 bpm2 0 0
           (BPM.mkPage 0 0 0 false) reachable_bpm2).
  - reflexivity.
  - reflexivity.
Defined.

Lemma DeletePage_then_NewPage_fails_witness :
  ∃ s', BPM.DeletePage 0 hash_int 0 bpm2 = Some (true, s') ∧
    (∀ fuel q, BPM.NewPage 0 (-1) hash_int alloc fuel q s' = None) ∧
    (∀ fuel, BPM.FetchPage (-1) hash_int read fuel 0 s' = None).
Proof.
  apply (DeletePage_then_NewPage_fails 0 (-1) 2 hash_int alloc read 1 bpm2 0 0
           (BPM.mkPage 0 0 0 false) reachable_bpm2).
  - reflexivity.
  - reflexivity.
  - reflexivity.
  - lia.
  - reflexivity.
Defined.

Lemma fits_bpm2_5 b pt1 :
  EH.Remove hash_int 0 (BPM.page_table_ bpm2) = Some (b, pt1) →
  EH.fits hash_int 5 pt1.
Proof.
  intros Hrem. vm_compute in Hrem. injection Hrem as <- <-.
  eexists. split; [reflexivity|]. right. exists 0. split; [lia|].
  vm_compute. lia.
Defined.

Lemma fits_bpm2_1 b pt1 :
  EH.Remove hash_int 0 (BPM.page_table_ bpm2) = Some (b, pt1) →
  EH.fits hash_int 1 pt1.
Proof.
  intros Hrem. vm_compute in Hrem. injection Hrem as <- <-.
  eexists. split; [reflexivity|]. right. exists 0. split; [lia|].
  vm_compute. lia.
Defined.

Lemma reachable_bpm5 :
  BPM.reachable (Data := Z) 0 (-1) 2 hash_int alloc read 2 bpm5.
Proof.
  apply (BPM.reach_Unpin _ _ _ _ _ _ _ _
           (default bpm5
              (snd <$> BPM.NewPage 0 (-1) hash_int alloc 1 0
                         (BPM.BufferPoolManager_new 0 (-1) 2 2)))
           0 false true); [|by vm_compute].
  apply (BPM.reach_New _ _ _ _ _ _ _ _ (BPM.BufferPoolManager_new 0 (-1) 2 2)
           1%nat 0 (Some 0%nat) 0); [|by vm_compute].
  apply BPM.reach_init.
Defined.

Lemma fits_bpm5 b pt1 :
  EH.Remove hash_int (-1) (BPM.page_table_ bpm5) = Some (b, pt1) →
  EH.fits hash_int 1 pt1.
Proof.
  intros Hrem. vm_compute in Hrem. injection Hrem as <- <-.
  eexists. split; [reflexivity|]. right. exists 0. split; [lia|].
  vm_compute. lia.
Defined.

Lemma NewPage_takes_free_frame_witness :
  BPM.free_list_ bpm5 = [Some 1%nat] ∧
  LRU.contents (BPM.replacer_ bpm5) = [Some 0%nat] ∧
  ∃ s', BPM.NewPage 0 (-1) hash_int alloc 32 9 bpm5 = Some (Some 1%nat, 1, s') ∧
    BPM.pages_ s' = <[1%nat := BPM.mkPage 0 1 1 false]> (BPM.pages_ bpm5) ∧
    BPM.free_list_ s' = [] ∧
    BPM.replacer_ s' = BPM.replacer_ bpm5 ∧
    BPM.resident hash_int 1 1 s' ∧
    (∀ q f', q ≠ 1 → q ≠ -1 →
             BPM.resident hash_int q f' s' ↔ BPM.resident hash_int q f' bpm5) ∧
    BPM.disk_manager_ s' = BPM.disk_manager_ bpm5 ++ [BPM.AllocatePage].
Proof.
  split; [reflexivity|]. split; [reflexivity|].
  apply (NewPage_takes_free_frame 0 (-1) 2 hash_int alloc read 2 bpm5 1 []
           (BPM.mkPage 0 (-1) 0 false) 9 reachable_bpm5).
  - reflexivity.
  - reflexivity.
  - reflexivity.
  - exact fits_bpm5.
Defined.

Lemma not_resident_5_bpm2 : ∀ f, ¬ BPM.resident hash_int 5 f bpm2.
Proof. intros f Hres. by vm_compute in Hres. Defined.

Lemma FetchPage_evicts_lru_witness :
  0 = 0 ∧
  ∃ s', BPM.FetchPage (-1) hash_int read 32 5 bpm2 = Some (Some 0%nat, s') ∧
    BPM.pages_ s' =
      <[0%nat := BPM.mkPage (read (BPM.disk_manager_ bpm2 ++ []) 5) 5 1 false]>
        (BPM.pages_ bpm2) ∧
    LRU.contents (BPM.replacer_ s') = [] ∧
    BPM.free_list_ s' = [] ∧
    BPM.resident hash_int 5 0 s' ∧
    (0 ≠ 5 → ∀ f', ¬ BPM.resident hash_int 0 f' s') ∧
    (∀ q f', q ≠ 5 → q ≠ 0 →
             BPM.resident hash_int q f' s' ↔ BPM.resident hash_int q f' bpm2) ∧
    BPM.disk_manager_ s' = BPM.disk_manager_ bpm2 ++ [] ++ [BPM.ReadPage 5].
Proof.
  apply (FetchPage_evicts_lru 0 (-1) 2 hash_int alloc read 1 bpm2 5 [] 0
           (BPM.mkPage 0 0 0 false) reachable_bpm2).
  - exact not_resident_5_bpm2.
  - reflexivity.
  - reflexivity.
  - reflexivity.
  - exact fits_bpm2_5.
Defined.


Lemma NewPage_evicts_lru_witness :
  0 = 0 ∧
  ∃ s', BPM.NewPage 0 (-1) hash_int alloc 32 9 bpm2 = Some (Some 0%nat, 1, s') ∧
    BPM.pages_ s' = <[0%nat := BPM.mkPage 0 1 1 false]> (BPM.pages_ bpm2) ∧
    LRU.contents (BPM.replacer_ s') = [] ∧
    BPM.free_list_ s' = [] ∧
    BPM.resident hash_int 1 0 s' ∧
    (0 ≠ 1 → ∀ f', ¬ BPM.resident hash_int 0 f' s') ∧
    (∀ q f', q ≠ 1 → q ≠ 0 →
             BPM.resident hash_int q f' s' ↔ BPM.resident hash_int q f' bpm2) ∧
    BPM.disk_manager_ s' = BPM.disk_manager_ bpm2 ++ [BPM.AllocatePage].
Proof.
  apply (NewPage_evicts_lru 0 (-1) 2 hash_int alloc read 1 bpm2 9 [] 0
           (BPM.mkPage 0 0 0 false) reachable_bpm2).
  - reflexivity.
  - reflexivity.
  - reflexivity.
  - exact fits_bpm2_1.
Defined.

Lemma not_resident_7_bpm0 : ∀ f, ¬ BPM.resident hash_int 7 f bpm0.
Proof. intros f Hres. by vm_compute in Hres. Defined.

Lemma FlushPage_refuses_witness :
  BPM.FlushPage (-1) hash_int 7 bpm0 = Some (false, bpm0).
Proof.
  apply (FlushPage_refuses 0 (-1) 2 hash_int alloc read 1 bpm0 7 reachable_bpm0).
  left. exact not_resident_7_bpm0.
Defined.

Lemma all_pinned_bpm1 f pg : BPM.pages_ bpm1 !! f = Some pg → 0 < BPM.pin_count_ pg.
Proof.
  destruct f as [|f]; simpl; [|done]. intros [= <-]. simpl. lia.
Defined.

Lemma all_pinned_exhausted_witness :
  BPM.free_list_ bpm1 = [] ∧ LRU.Size (BPM.replacer_ bpm1) = 0%nat ∧
  BPM.NewPage 0 (-1) hash_int alloc 3 9 bpm1 = Some (None, 9, bpm1) ∧
  BPM.FetchPage (-1) hash_int read 3 7 bpm1 = Some (None, bpm1).
Proof.
  apply (all_pinned_exhausted 0 (-1) 2 hash_int alloc read 1 bpm1 3 9 7 reachable_bpm1).
  - exact all_pinned_bpm1.
  - exact not_resident_7_bpm1.
Defined.





Lemma not_resident_5_bpm3 : ∀ f, ¬ BPM.resident hash_int 5 f bpm3.
Proof. intros f Hres. by vm_compute in Hres. Defined.

Lemma fits_bpm3_5 b pt1 :
  EH.Remove hash_int 0 (BPM.page_table_ bpm3) = Some (b, pt1) →
  EH.fits hash_int 5 pt1.
Proof.
  intros Hrem. vm_compute in Hrem. injection Hrem as <- <-.
  eexists. split; [reflexivity|]. right. exists 0. split; [lia|].
  vm_compute. lia.
Defined.

Lemma UnpinPage_false_loses_update_witness :
  BPM.pages_ bpm3 !! 0%nat = Some (BPM.mkPage 0 0 1 true) ∧
  ∃ s1 s2,
    BPM.UnpinPage hash_int 0 false bpm3 = Some (true, s1) ∧
    BPM.pages_ s1 = <[0%nat := BPM.mkPage 0 0 0 false]> (BPM.pages_ bpm3) ∧
    BPM.is_dirty_ <$> BPM.pages_ s1 !! 0%nat ≠ Some (true || false) ∧
    LRU.contents (BPM.replacer_ s1) = [Some 0%nat] ∧
    BPM.disk_manager_ s1 = BPM.disk_manager_ bpm3 ∧
    BPM.FetchPage (-1) hash_int read 32 5 s1 = Some (Some 0%nat, s2) ∧
    BPM.pages_ s2 =
      <[0%nat := BPM.mkPage (read (BPM.disk_manager_ bpm3) 5) 5 1 false]>
        (BPM.pages_ bpm3) ∧
    BPM.disk_manager_ s2 = BPM.disk_manager_ bpm3 ++ [BPM.ReadPage 5].
Proof.
  split; [reflexivity|].
  apply (UnpinPage_false_loses_update 0 (-1) 2 hash_int alloc read 1 bpm3 0 0
           (BPM.mkPage 0 0 1 true) 5 reachable_bpm3).
  - reflexivity.
  - reflexivity.
  - reflexivity.
  - reflexivity.
  - reflexivity.
  - reflexivity.
  - exact not_resident_5_bpm3.
  - exact fits_bpm3_5.
Defined.

Lemma absent_bpm1 : EH.absent 7 (BPM.page_table_ bpm1).
Proof. intros bk ->%list_elem_of_singleton. done. Qed.

Lemma DeletePage_not_resident_witness :
  EH.absent 7 (BPM.page_table_ bpm1) ∧
  BPM.resident hash_int 0 0 bpm1 ∧
  BPM.DeletePage 0 hash_int 0 bpm1 = Some (false, bpm1) ∧
  BPM.DeletePage 0 hash_int 7 bpm1 =
    Some (true, BPM.disk_call (BPM.DeallocatePage 7) bpm1) ∧
  ∃ b s', BPM.DeletePage 0 hash_int 0 bpm1 = Some (b, s') ∧
    (b = false ↔
     ∃ f pg, BPM.resident hash_int 0 f bpm1 ∧ BPM.pages_ bpm1 !! f = Some pg ∧
             0 < BPM.pin_count_ pg) ∧
    (b = false → s' = bpm1).
Proof.
  split; [exact absent_bpm1|]. split; [reflexivity|]. split; [reflexivity|].
  exact (DeletePage_not_resident 0 (-1) 2 hash_int alloc read 1 bpm1 7 0
           reachable_bpm1 absent_bpm1).
Defined.

End concrete_more.
